(** * pysonolus: the tree IR, the function registry and linker, the front-end
    compiler, flow lowering and two optimizer passes, embedded in Rocq.

    Python floats are IEEE-754 binary64 numbers: they are modelled by the
    kernel's primitive floats.  Python dictionaries keep insertion order, and
    the order of [kwargs] decides the order of the emitted assignments, so
    keyword arguments are association lists; the registry of compiled
    functions and the linker's set of names being inlined are finite maps and
    finite sets. *)

From Stdlib Require Import Ascii String PrimFloat DecimalString.
From Stdlib Require DecimalFacts DecimalNat.
From stdpp Require Import gmap strings list.

Set Warnings "-register-all".

Open Scope string_scope.
Open Scope list_scope.

(** ** Exceptions and the two monads of the embedding *)

(** The exception classes the modelled code raises, with their messages.
    [OutOfFuel] is not a Python exception: it marks a recursion bound of the
    embedding that was set too low. *)
Inductive error : Type :=
| TypeError (msg : string)
| ValueError (msg : string)
| IndexError (msg : string)
| KeyError (msg : string)
| RuntimeError (msg : string)
| AttributeError (msg : string)
| NotImplementedError (msg : string)
| ZeroDivisionError (msg : string)
| OutOfFuel.

Inductive result (A : Type) : Type :=
| Ok (a : A)
| Err (e : error).
Arguments Ok {A} a.
Arguments Err {A} e.

Definition is_TypeError (e : error) : bool :=
  match e with TypeError _ => true | _ => false end.

Definition is_Ok {A} (r : result A) : bool :=
  match r with Ok _ => true | Err _ => false end.

#[global] Instance result_ret : MRet result := fun A a => Ok a.
#[global] Instance result_bind : MBind result :=
  fun A B k c => match c with Ok a => k a | Err e => Err e end.
#[global] Instance result_throw : MThrow error result := fun A e => Err e.

(** Code that also reads and writes shared mutable state of type [S]. *)
Definition stateM (S A : Type) : Type := S -> result (A * S).

#[global] Instance stateM_ret {S} : MRet (stateM S) :=
  fun A a s => Ok (a, s).
#[global] Instance stateM_bind {S} : MBind (stateM S) :=
  fun A B k c s => match c s with Ok (a, s') => k a s' | Err e => Err e end.
#[global] Instance stateM_throw {S} : MThrow error (stateM S) :=
  fun A e s => Err e.

Definition get_state {S} : stateM S S := fun s => Ok (s, s).
Definition put_state {S} (s : S) : stateM S unit := fun _ => Ok (tt, s).
Definition lift_result {S A} (r : result A) : stateM S A :=
  fun s => match r with Ok a => Ok (a, s) | Err e => Err e end.

(** A dict comprehension over [items()] that keeps the keys. *)
Definition mapM_items `{MBind M, MRet M} {K A B} (f : A -> M B)
  : list (K * A) -> M (list (K * B)) :=
  fix go l :=
    match l with
    | [] => mret []
    | (k, x) :: l' => y ← f x; ys ← go l'; mret ((k, y) :: ys)
    end.

(** ** Strings *)

(** [str.replace('.', '$')]. *)
Fixpoint replace_dots (s : string) : string :=
  match s with
  | EmptyString => EmptyString
  | String c s' =>
      String (if Ascii.eqb c "."%char then "$"%char else c) (replace_dots s')
  end.

(** [str(n)] for a non-negative integer. *)
Definition str_of_nat (n : nat) : string :=
  NilZero.string_of_uint (Nat.to_uint n).

(** ** Insertion-ordered dictionaries *)

Section Dict.
Context {V : Type}.

Fixpoint dict_get (d : list (string * V)) (k : string) : option V :=
  match d with
  | [] => None
  | (k', v) :: d' => if String.eqb k' k then Some v else dict_get d' k
  end.

Definition dict_mem (d : list (string * V)) (k : string) : bool :=
  match dict_get d k with Some _ => true | None => false end.

(** [d[k] = v]: an existing key keeps its position, a new key goes last. *)
Fixpoint dict_set (d : list (string * V)) (k : string) (v : V)
  : list (string * V) :=
  match d with
  | [] => [(k, v)]
  | (k', v') :: d' =>
      if String.eqb k' k then (k', v) :: d' else (k', v') :: dict_set d' k v
  end.
End Dict.

(** ** The tree IR ([node/IR.py]) *)

Abbreviation QualifiedName := string (only parsing).

Inductive Node : Type :=
| ValueNode (value : float)
| FunctionNode (name : string) (args : list Node)
| RefNode (name : string)
| AssignNode (name : string) (value : Node)
| GetNode (block index : Z) (offset : Node)
| SetNode (block index : Z) (offset value : Node)
| ExecuteNode (nodes : list Node)
| CallNode (name : QualifiedName) (args : list Node)
    (kwargs : list (string * Node))
| StarredNode (nested : bool)
| IfNode (condition then_ orelse : Node)
| WhileNode (condition body : Node).

Module F.

(** [ExecuteNode.empty]. *)
Definition empty_node (node : Node) : bool :=
  match node with
  | ExecuteNode [] => true
  | _ => false
  end.

Definition empty : Node := ExecuteNode [].
Definition true : Node := ValueNode 1%float.
Definition false : Node := ValueNode 0%float.

Definition Value (value : float) : Node := ValueNode value.
Definition Ref (name : string) : Node := RefNode name.

(** [FunctionMetaClass.__getattr__]: the constructor [F.<name>] of a
    built-in call, applied to its argument nodes. *)
Definition create_function_node (name : string) (nodes : list Node)
  : result Node :=
  if existsb empty_node nodes
  then Err (ValueError
              "Cannot create a function node with empty node in arguments")
  else Ok (FunctionNode name nodes).

(** The loop of [F.Execute]: empty nodes are skipped, sequences spliced. *)
Fixpoint Execute_loop (nodes : list Node) (result : list Node) : list Node :=
  match nodes with
  | [] => result
  | node :: rest =>
      if empty_node node then Execute_loop rest result
      else match node with
           | ExecuteNode ns => Execute_loop rest (result ++ ns)
           | _ => Execute_loop rest (result ++ [node])
           end
  end.

(** [F.Execute] applied to nodes; applied to one iterable it unpacks the
    iterable and calls itself, which is the same function of the list. *)
Definition Execute (nodes : list Node) : Node :=
  match nodes with
  | [node] => node
  | _ => ExecuteNode (Execute_loop nodes [])
  end.

(** The sequence with its last element replaced by its image under [f],
    an [IndexError] for the empty sequence. *)
Definition on_last {A} (f : A -> result A) : list A -> result (list A) :=
  fix go l :=
    match l with
    | [] => Err (IndexError "list index out of range")
    | [last] => a ← f last; Ok [a]
    | x :: l' => r ← go l'; Ok (x :: r)
    end.

Fixpoint Assign (name : string) (value : Node) : result Node :=
  match value with
  | ExecuteNode nodes => ns ← on_last (Assign name) nodes; Ok (Execute ns)
  | _ => Ok (AssignNode name value)
  end.

Definition Call (name : QualifiedName) (args : list Node)
    (kwargs : list (string * Node)) : Node :=
  CallNode name args kwargs.

Definition Starred (nested : bool) : Node := StarredNode nested.

Definition If (condition then_ orelse : Node) : Node :=
  if empty_node then_ then IfNode condition true orelse
  else if empty_node orelse then IfNode condition then_ false
  else IfNode condition then_ orelse.

Definition While (condition body : Node) : Node := WhileNode condition body.

Fixpoint And (condition : Node) (args : list Node) : Node :=
  match args with
  | [] => condition
  | a :: rest => If condition (And a rest) false
  end.

Fixpoint Or (condition : Node) (args : list Node) : Node :=
  match args with
  | [] => condition
  | a :: rest => If condition true (Or a rest)
  end.

End F.

(** [Node.apply]: rebuild a node from its transformed children.  [GetNode]
    and [SetNode] do not override it, and inherit the base method that
    returns the node itself.  The callback may raise and may touch shared
    state, hence the monad. *)
Definition apply `{MBind M, MRet M} (lift : forall A, result A -> M A)
    (func : Node -> M Node) (node : Node) : M Node :=
  match node with
  | FunctionNode name args =>
      args' ← mapM func args; mret (FunctionNode name args')
  | AssignNode name value => v ← func value; lift _ (F.Assign name v)
  | ExecuteNode nodes => ns ← mapM func nodes; mret (F.Execute ns)
  | CallNode name args kwargs =>
      args' ← mapM func args;
      kwargs' ← mapM_items func kwargs;
      mret (F.Call name args' kwargs')
  | IfNode c t e =>
      c' ← func c; t' ← func t; e' ← func e; mret (F.If c' t' e')
  | WhileNode c b => c' ← func c; b' ← func b; mret (F.While c' b')
  | ValueNode _ | RefNode _ | GetNode _ _ _ | SetNode _ _ _ _
  | StarredNode _ => mret node
  end.

(** ** Compiled functions and their calling convention
    ([compiler/function.py]) *)

(** [Parameter]; the name is a reserved word here. *)
Record Param : Type := mkParam {
  p_name : string;
  p_default : option Node;
}.

Record ParameterList : Type := mkParameterList {
  params : list Param;
  va_args : option string;
}.

Record CompiledFunction : Type := mkCompiledFunction {
  fn_name : QualifiedName;
  fn_params : ParameterList;
  fn_node : Node;
}.

(** The subclass adds the list of later registrations to the inherited
    fields, which are those of the first (base) registration. *)
Record CompiledOverloadedFunction : Type := mkCompiledOverloadedFunction {
  base : CompiledFunction;
  overloads : list CompiledFunction;
}.

(** What a registry entry can be. *)
Inductive Function : Type :=
| Plain (f : CompiledFunction)
| Overloaded (f : CompiledOverloadedFunction).

Module CompiledFunction.

(** [param]: the register of a parameter, [{func_name}${param_name}] with
    every dot replaced by a dollar sign. *)
Definition param (self : CompiledFunction) (name : string) : string :=
  replace_dots (fn_name self +:+ "$" +:+ name).

(** An f-string prints [None] for a missing variadic name. *)
Definition format_va (va : option string) : string :=
  match va with Some s => s | None => "None" end.

(** The name under which the [i]-th (from 0) surplus argument is bound. *)
Definition va_name (self : CompiledFunction) (i : nat) : string :=
  format_va (va_args (fn_params self)) +:+ "$" +:+ str_of_nat (i + 1).

Definition va_ref (self : CompiledFunction) (i : nat) : Node :=
  F.Ref (param self (va_name self i)).

(** [functools.reduce] without an initial value. *)
Definition reduce {A} (f : A -> A -> A) (l : list A) : result A :=
  match l with
  | [] => Err (TypeError
                 "reduce() of empty iterable with no initial value")
  | x :: xs => Ok (foldl f x xs)
  end.

Definition _resolve_nested (self : CompiledFunction) (arg_count : nat)
    (unit : Node -> Node -> Node) : result Node :=
  reduce (fun a b => unit b a)
         (map (va_ref self) (rev (seq 0 arg_count))).

(** [_resolve_starred]: the three registered cases, and [apply] for every
    other node class. *)
Fixpoint _resolve_starred (self : CompiledFunction) (node : Node)
    (arg_count : nat) {struct node} : result Node :=
  match node with
  | FunctionNode name args =>
      match last args with
      | None => Ok node
      | Some (StarredNode nested) =>
          if nested then
            nested ← _resolve_nested self arg_count
                       (fun left right => FunctionNode name [left; right]);
            match args with
            | [_] => Ok nested
            | arg0 :: _ => Ok (FunctionNode name [arg0; nested])
            | [] => Ok node
            end
          else
            Ok (FunctionNode name
                  (removelast args
                     ++ map (va_ref self) (seq 0 arg_count)))
      | Some _ =>
          args' ← mapM (fun arg => _resolve_starred self arg arg_count) args;
          Ok (FunctionNode name args')
      end
  | CallNode name args kwargs =>
      match last args with
      | None => Ok node
      | Some (StarredNode nested) =>
          if nested then
            nested ← _resolve_nested self arg_count
                       (fun left right => F.Call name [left; right] kwargs);
            match args with
            | [_] => Ok nested
            | arg0 :: _ => Ok (F.Call name [arg0; nested] kwargs)
            | [] => Ok node
            end
          else
            Ok (F.Call name
                  (removelast args ++ map (va_ref self) (seq 0 arg_count))
                  kwargs)
      | Some _ =>
          args' ← mapM (fun arg => _resolve_starred self arg arg_count) args;
          Ok (F.Call name args' kwargs)
      end
  | StarredNode _ => Err (TypeError "StarredNode not resolved")
  | _ =>
      apply (fun _ r => r) (fun x => _resolve_starred self x arg_count) node
  end.

(** The three binding loops of [call], on the copied [kwargs]. *)
Definition bind_positional (ps : list Param) (args : list Node)
    (kwargs : list (string * Node)) : list (string * Node) :=
  foldl (fun kw pa => dict_set kw (p_name (fst pa)) (snd pa))
        kwargs (zip ps args).

Fixpoint bind_variadic (va : string) (i : nat) (extra : list Node)
    (kwargs : list (string * Node)) : list (string * Node) :=
  match extra with
  | [] => kwargs
  | arg :: rest =>
      bind_variadic va (S i) rest
        (dict_set kwargs (va +:+ "$" +:+ str_of_nat (i + 1)) arg)
  end.

Fixpoint bind_defaults (fname : string) (ps : list Param)
    (kwargs : list (string * Node)) : result (list (string * Node)) :=
  match ps with
  | [] => Ok kwargs
  | p :: rest =>
      if dict_mem kwargs (p_name p) then bind_defaults fname rest kwargs
      else match p_default p with
           | Some d => bind_defaults fname rest (dict_set kwargs (p_name p) d)
           | None =>
               Err (TypeError ("Function " +:+ fname
                                 +:+ " missing parameter " +:+ p_name p))
           end
  end.

(** [if self.params.va_args]: [None] and the empty string are falsy. *)
Definition truthy_name (va : option string) : option string :=
  match va with
  | Some "" => None
  | _ => va
  end.

(** The first half of [call]: the dictionary of bound arguments. *)
Definition bind_arguments (self : CompiledFunction) (args : list Node)
    (kwargs : list (string * Node)) : result (list (string * Node)) :=
  let ps := params (fn_params self) in
  let kwargs := bind_positional ps args kwargs in
  kwargs ←
    (if Nat.ltb (length ps) (length args) then
       match truthy_name (va_args (fn_params self)) with
       | Some va => Ok (bind_variadic va 0 (drop (length ps) args) kwargs)
       | None => Err (TypeError ("Too many arguments for " +:+ fn_name self))
       end
     else Ok kwargs);
  bind_defaults (fn_name self) ps kwargs.

(** [call]: inline this function at a call site. *)
Definition call (self : CompiledFunction) (args : list Node)
    (kwargs : list (string * Node)) : result Node :=
  let ps := params (fn_params self) in
  kwargs ← bind_arguments self args kwargs;
  node ←
    (if Nat.ltb (length ps) (length args)
     then _resolve_starred self (fn_node self) (length args - length ps)
     else Ok (fn_node self));
  assigns ← mapM (fun kv => F.Assign (param self (fst kv)) (snd kv)) kwargs;
  Ok (F.Execute (assigns ++ [node])).

End CompiledFunction.

Module CompiledOverloadedFunction.

(** The loop of the [except TypeError as err] block: [err] holds the
    error to raise when the loop runs out, and every failing overload
    stores its own error in it. *)
Fixpoint try_overloads (overloads : list CompiledFunction)
    (args : list Node) (kwargs : list (string * Node)) (err : error)
  : result Node :=
  match overloads with
  | [] => Err err
  | overload :: rest =>
      match CompiledFunction.call overload args kwargs with
      | Ok node => Ok node
      | Err e =>
          if is_TypeError e then try_overloads rest args kwargs e
          else Err e
      end
  end.

Definition call (self : CompiledOverloadedFunction) (args : list Node)
    (kwargs : list (string * Node)) : result Node :=
  match CompiledFunction.call (base self) args kwargs with
  | Ok node => Ok node
  | Err err =>
      if is_TypeError err
      then try_overloads (overloads self) args kwargs err
      else Err err
  end.

(** [overload]: register one more signature under the same name. *)
Definition overload (func : Function) (overloaded : CompiledFunction)
  : Function :=
  match func with
  | Overloaded f =>
      Overloaded (mkCompiledOverloadedFunction
                    (base f) (overloads f ++ [overloaded]))
  | Plain f => Overloaded (mkCompiledOverloadedFunction f [overloaded])
  end.

End CompiledOverloadedFunction.

(** The method call [function.call(args, kwargs)], dispatched on the class. *)
Definition Function_call (f : Function) (args : list Node)
    (kwargs : list (string * Node)) : result Node :=
  match f with
  | Plain f => CompiledFunction.call f args kwargs
  | Overloaded f => CompiledOverloadedFunction.call f args kwargs
  end.

(** ** The linker ([compiler/compile.py]) *)

Record CompileOutput : Type := mkCompileOutput {
  entry : QualifiedName;
  functions : gmap string Function;
}.

Module CompileOutput.

Definition lookup_function (self : CompileOutput) (name : QualifiedName)
  : result Function :=
  match functions self !! name with
  | Some f => Ok f
  | None => Err (KeyError name)
  end.

(** [_link]: [CallNode] is the one registered case, every other class goes
    through [apply].  The set [recursive] is one shared object, threaded as
    state.  [depth] bounds how many inlinings may be nested. *)
Fixpoint _link (depth : nat) (self : CompileOutput)
  : Node -> stateM (gset string) Node :=
  match depth with
  | O => fun _ => mthrow OutOfFuel
  | S depth' =>
      fix walk (node : Node) : stateM (gset string) Node :=
        match node with
        | CallNode name args kwargs =>
            args' ← mapM walk args;
            kwargs' ← mapM_items walk kwargs;
            recursive ← get_state;
            if decide (name ∈ recursive) then
              mthrow (RuntimeError ("Recursive call detected: " +:+ name))
            else
              _ ← put_state ({[name]} ∪ recursive);
              f ← lift_result (lookup_function self name);
              body ← lift_result (Function_call f args' kwargs');
              result ← _link depth' self body;
              recursive ← get_state;
              _ ← put_state (recursive ∖ {[name]});
              mret result
        | _ => apply (@lift_result _) walk node
        end
  end.

(** [link] with the entry function registered; [entry_func] raises
    [KeyError] otherwise. *)
Definition link (depth : nat) (self : CompileOutput) : result Node :=
  entry_func ← lookup_function self (entry self);
  match entry_func with
  | Plain f | Overloaded {| base := f |} =>
      r ← _link depth self (fn_node f) ∅;
      Ok (fst r)
  end.

End CompileOutput.

(** ** The front-end compiler ([compiler/context.py], [compiler/core.py]) *)

(** The syntax trees of the host language, as the one class hierarchy
    [ast.AST] they are: statements, expressions and operator nodes.  Node
    classes for which the compiler has no [__compile_*__] method are
    [Unsupported]; subscripts are left out (their lowering belongs to the
    addressing collaborator). *)
Inductive constant : Type :=
| Number (value : float)
| NotNumber (type_name : string).

Inductive AST : Type :=
(* statements *)
| FunctionDef (name : string) (body : list AST)
| Expr_ (value : AST)
| Pass
| Return (value : option AST)
| If_ (test : AST) (body orelse : list AST)
| Assign_ (targets : list AST) (value : AST)
| AugAssign (target op value : AST)
| AnnAssign (target : AST) (value : option AST)
(* expressions *)
| BinOp (left op right : AST)
| UnaryOp (op operand : AST)
| IfExp (test body orelse : AST)
| Compare (left : AST) (ops comparators : list AST)
| Call_ (func : AST) (args : list AST) (keywords : list (option string * AST))
| Constant (value : constant)
| Attribute (value : AST) (attr : string)
| Name (id : string)
(* operators *)
| Add | Sub | Mult | Div | Mod | Pow
| UAdd | USub | Not
| Eq | NotEq | Lt | LtE | Gt | GtE
| Unsupported (class_name : string).

Inductive ContextFrame : Type :=
| FunctionContext (calls : list AST) (name : option QualifiedName)
    (module : option string) (params : list string)
| BlockContext (may_break : bool) (break_flag : option string)
    (may_return : bool) (return_flag return_value : option string)
| BinOpContext (left right : option Node)
| UnaryOpContext (operand : option Node).

Inductive BlockLevel : Type := Returnable | Breakable | NoLevel.

(** What [Pointer.get] and [Pointer.set] need of a pointer. *)
Record Pointer : Type := mkPointer {
  ptr_block : Z;
  ptr_index : Z;
  ptr_offset : Node;
}.

(** The compiler's mutable state: the frames of the [Context] (innermost
    first) and the module-level counter of [anonymous]. *)
Record CState : Type := mkCState {
  _frames : list ContextFrame;
  anonymous_variable_counter : nat;
}.

Module Context.

Definition new_BlockContext : ContextFrame :=
  BlockContext false None false None None.

Definition same_class (a b : ContextFrame) : bool :=
  match a, b with
  | FunctionContext _ _ _ _, FunctionContext _ _ _ _
  | BlockContext _ _ _ _ _, BlockContext _ _ _ _ _
  | BinOpContext _ _, BinOpContext _ _
  | UnaryOpContext _, UnaryOpContext _ => true
  | _, _ => false
  end.

Definition enter (frame : ContextFrame) : stateM CState ContextFrame :=
  fun s =>
    Ok (frame, mkCState (frame :: _frames s) (anonymous_variable_counter s)).

(** [exit(frame)]: the argument stands for the class expected on top. *)
Definition exit (frame : ContextFrame) : stateM CState ContextFrame :=
  fun s =>
    match _frames s with
    | [] => Err (RuntimeError "No context frame to exit")
    | top :: rest =>
        if same_class top frame
        then Ok (top, mkCState rest (anonymous_variable_counter s))
        else Err (RuntimeError "Expected to exit another frame class")
    end.

(** The frame object bound by [as c] or returned by [enter], read when it
    is the innermost frame again. *)
Definition current : stateM CState ContextFrame :=
  fun s =>
    match _frames s with
    | [] => Err (RuntimeError "No context frame")
    | top :: _ => Ok (top, s)
    end.

(** Attribute assignments on the frame object [c] while it is innermost:
    [frame] is [c] with the assigned fields. *)
Definition assign_current (frame : ContextFrame) : stateM CState unit :=
  fun s =>
    match _frames s with
    | [] => Err (RuntimeError "No context frame")
    | _ :: rest =>
        Ok (tt, mkCState (frame :: rest) (anonymous_variable_counter s))
    end.

(** [__getattr__]: the innermost frame that has the option answers. *)
Fixpoint lookup {A} (read : ContextFrame -> option A)
    (frames : list ContextFrame) : option A :=
  match frames with
  | [] => None
  | frame :: rest =>
      match read frame with
      | Some a => Some a
      | None => lookup read rest
      end
  end.

Definition getattr {A} (option_name : string)
    (read : ContextFrame -> option A) : stateM CState A :=
  fun s =>
    match lookup read (_frames s) with
    | Some a => Ok (a, s)
    | None =>
        Err (AttributeError
               ("Option " +:+ option_name +:+ " not found in context"))
    end.

(** [__setattr__]: the innermost frame that has the option is written. *)
Fixpoint update (write : ContextFrame -> option ContextFrame)
    (frames : list ContextFrame) : option (list ContextFrame) :=
  match frames with
  | [] => None
  | frame :: rest =>
      match write frame with
      | Some frame' => Some (frame' :: rest)
      | None => rest' ← update write rest; Some (frame :: rest')
      end
  end.

Definition setattr (option_name : string)
    (write : ContextFrame -> option ContextFrame) : stateM CState unit :=
  fun s =>
    match update write (_frames s) with
    | Some frames => Ok (tt, mkCState frames (anonymous_variable_counter s))
    | None =>
        Err (AttributeError
               ("Option " +:+ option_name +:+ " not found in context"))
    end.

Definition may_return : stateM CState bool :=
  getattr "may_return"
    (fun f => match f with BlockContext _ _ r _ _ => Some r | _ => None end).
Definition set_may_return (v : bool) : stateM CState unit :=
  setattr "may_return"
    (fun f => match f with
              | BlockContext b bf _ rf rv => Some (BlockContext b bf v rf rv)
              | _ => None
              end).
Definition set_return_flag (v : option string) : stateM CState unit :=
  setattr "return_flag"
    (fun f => match f with
              | BlockContext b bf r _ rv => Some (BlockContext b bf r v rv)
              | _ => None
              end).
Definition set_return_value (v : option string) : stateM CState unit :=
  setattr "return_value"
    (fun f => match f with
              | BlockContext b bf r rf _ => Some (BlockContext b bf r rf v)
              | _ => None
              end).
Definition left : stateM CState (option Node) :=
  getattr "left"
    (fun f => match f with BinOpContext l _ => Some l | _ => None end).
Definition right : stateM CState (option Node) :=
  getattr "right"
    (fun f => match f with BinOpContext _ r => Some r | _ => None end).
Definition operand : stateM CState (option Node) :=
  getattr "operand"
    (fun f => match f with UnaryOpContext o => Some o | _ => None end).
Definition name : stateM CState (option QualifiedName) :=
  getattr "name"
    (fun f => match f with
              | FunctionContext _ n _ _ => Some n
              | _ => None
              end).
Definition module : stateM CState (option string) :=
  getattr "module"
    (fun f => match f with
              | FunctionContext _ _ m _ => Some m
              | _ => None
              end).
(** [context.calls.add(name)]. *)
Definition calls_add (callee : AST) : stateM CState unit :=
  setattr "calls"
    (fun f => match f with
              | FunctionContext cs n m ps =>
                  Some (FunctionContext (cs ++ [callee]) n m ps)
              | _ => None
              end).

End Context.

(** [anonymous()]: the next name [$n] of the module-level counter. *)
Definition anonymous : stateM CState string :=
  fun s =>
    let n := S (anonymous_variable_counter s) in
    Ok ("$" +:+ str_of_nat n, mkCState (_frames s) n).

(** [QualifiedName.var]. *)
Definition var (self : QualifiedName) (name : string) : string :=
  replace_dots (self +:+ "$" +:+ name).

(** The fields of the frame [c] that [_may_return] and the callers read. *)
Definition c_may_return (c : ContextFrame) : bool :=
  match c with BlockContext _ _ r _ _ => r | _ => false end.
Definition c_return_flag (c : ContextFrame) : option string :=
  match c with BlockContext _ _ _ rf _ => rf | _ => None end.
Definition c_return_value (c : ContextFrame) : option string :=
  match c with BlockContext _ _ _ _ rv => rv | _ => None end.

(** A name that is [None] or empty is falsy. *)
Definition truthy (name : option string) : option string :=
  CompiledFunction.truthy_name name.

Module Compiler.
Section Collaborators.

(** Name resolution and addressing are external collaborators:
    [RelativeName(module, func).as_qualified()] and [_resolve_pointer]. *)
Variable as_qualified : string -> AST -> result QualifiedName.
Variable _resolve_pointer : AST -> result (option Pointer).

Definition _may_return (c : ContextFrame) (node : Node)
  : stateM CState Node :=
  if c_may_return c then
    match truthy (c_return_flag c) with
    | None => mthrow (ValueError "No return flag")
    | Some flag =>
        let return_flag := F.Ref flag in
        let return_value :=
          match truthy (c_return_value c) with
          | Some v => F.Ref v
          | None => F.empty
          end in
        result ← anonymous;
        if negb (F.empty_node node) then
          a ← lift_result (F.Assign result node);
          mret (F.Execute [a; F.If return_flag return_value (F.Ref result)])
        else mret (F.And return_flag [return_value])
    end
  else mret node.

(** [_compile_block] around the loop over its statements, which is given
    as the computation [loop] of the list [nodes]. *)
Definition _compile_block_of (loop : stateM CState (list Node))
    (level : BlockLevel) : stateM CState Node :=
  _ ← Context.enter Context.new_BlockContext;
  nodes ← loop;
  c ← Context.exit Context.new_BlockContext;
  _ ← (if c_may_return c
           && negb (match level with Returnable => true | _ => false end)
       then
         _ ← Context.set_may_return true;
         _ ← Context.set_return_flag (c_return_flag c);
         Context.set_return_value (c_return_value c)
       else mret tt);
  mret (F.Execute nodes).

(** What a branch of an [If] statement leaves for the merged flag. *)
Definition branch_return (c : ContextFrame)
  : stateM CState (bool * Node * Node) :=
  if c_may_return c then
    match truthy (c_return_flag c) with
    | None => mthrow (ValueError "No return flag")
    | Some flag =>
        mret (true, F.Ref flag,
              match truthy (c_return_value c) with
              | Some v => F.Ref v
              | None => F.empty
              end)
    end
  else mret (false, F.false, F.empty).

Definition merged_branch (value_name flag_name : string)
    (body return_flag return_value : Node) : result Node :=
  if negb (F.empty_node body) then
    a1 ← F.Assign value_name body;
    a2 ← F.Assign flag_name return_flag;
    a3 ← F.Assign value_name return_value;
    Ok (F.Execute [a1; a2; F.And return_flag [a3]])
  else Ok F.empty.

Definition binary (name : string) : stateM CState Node :=
  l ← Context.left;
  r ← Context.right;
  match l, r with
  | Some l, Some r => lift_result (F.create_function_node name [l; r])
  | _, _ => mthrow (TypeError "operand is None")
  end.

Definition _assign (target : AST) (value : Node) : stateM CState Node :=
  name ← Context.name;
  match name with
  | None => mthrow (RuntimeError "Assignment outside of function")
  | Some name =>
      match target with
      | Name id => lift_result (F.Assign (var name id) value)
      | Attribute _ _ =>
          pointer ← lift_result (_resolve_pointer target);
          match pointer with
          | None => mthrow (TypeError "Attribute not supported")
          | Some p =>
              mret (SetNode (ptr_block p) (ptr_index p) (ptr_offset p) value)
          end
      | _ => mthrow (TypeError "Assignment to non-name not supported")
      end
  end.

(** The loop of [_compile_block] over the statements of [body], each
    given as the computation that compiles it, and the loop of
    [__compile_Compare__] over the zipped operators and comparators. *)
Fixpoint _compile_block_loop (body : list (stateM CState Node))
    (nodes : list Node) : stateM CState (list Node) :=
  match body with
  | [] => mret nodes
  | compile_stat :: rest =>
      n ← compile_stat;
      c ← Context.current;
      if c_may_return c then
        _ ← Context.enter Context.new_BlockContext;
        after ← _compile_block_of (_compile_block_loop rest []) NoLevel;
        _ ← Context.exit Context.new_BlockContext;
        c ← Context.current;
        m ← _may_return c after;
        mret (nodes ++ [n; m])
      else _compile_block_loop rest (nodes ++ [n])
  end.

Definition _compile_block (body : list (stateM CState Node))
    (level : BlockLevel) : stateM CState Node :=
  _compile_block_of (_compile_block_loop body []) level.

Fixpoint compare_chain (compile_left : stateM CState Node)
    (pairs : list (stateM CState Node * stateM CState Node))
    (result : Node) : stateM CState Node :=
  match pairs with
  | [] => mret result
  | (compile_op, compile_right) :: pairs' =>
      left_alias ← anonymous;
      l ← compile_left;
      left_assign ← lift_result (F.Assign left_alias l);
      right_alias ← anonymous;
      r ← compile_right;
      right_assign ← lift_result (F.Assign right_alias r);
      _ ← Context.enter (BinOpContext None None);
      _ ← Context.assign_current
            (BinOpContext (Some (F.Ref left_alias))
                          (Some (F.Ref right_alias)));
      cmp ← compile_op;
      let result :=
        F.And result [F.Execute [left_assign; right_assign; cmp]] in
      _ ← Context.exit (BinOpContext None None);
      compare_chain compile_right pairs' result
  end.

(** [Compiler.compile]: the dispatch on the class of the syntax node, with
    the [__compile_*__] methods in its branches. *)
Fixpoint compile (node : AST) : stateM CState Node :=
  match node with
  | FunctionDef _ body =>
      _ ← Context.enter Context.new_BlockContext;
      r ← _compile_block (map compile body) Returnable;
      _ ← Context.exit Context.new_BlockContext;
      mret r
  | Expr_ value => compile value
  | Pass => mret F.empty
  | Return value =>
      _ ← Context.set_may_return true;
      match value with
      | Some value =>
          flag_name ← anonymous;
          _ ← Context.set_return_flag (Some flag_name);
          var_name ← anonymous;
          _ ← Context.set_return_value (Some var_name);
          v ← compile value;
          a1 ← lift_result (F.Assign var_name v);
          a2 ← lift_result (F.Assign flag_name F.true);
          mret (F.Execute [a1; a2])
      | None =>
          flag_name ← anonymous;
          _ ← Context.set_return_flag (Some flag_name);
          lift_result (F.Assign flag_name F.true)
      end
  | If_ test body orelse =>
      test ← compile test;
      _ ← Context.enter Context.new_BlockContext;
      body ← _compile_block (map compile body) NoLevel;
      c ← Context.current;
      body ← _may_return c body;
      c ← Context.current;
      '(may_return_then, return_flag_then, return_value_then) ←
        branch_return c;
      _ ← Context.exit Context.new_BlockContext;
      _ ← Context.enter Context.new_BlockContext;
      orelse ← _compile_block (map compile orelse) NoLevel;
      c ← Context.current;
      orelse ← _may_return c orelse;
      c ← Context.current;
      '(may_return_else, return_flag_else, return_value_else) ←
        branch_return c;
      _ ← Context.exit Context.new_BlockContext;
      if may_return_then || may_return_else then
        _ ← Context.set_may_return true;
        flag_name ← anonymous;
        _ ← Context.set_return_flag (Some flag_name);
        value_name ← anonymous;
        _ ← Context.set_return_value (Some value_name);
        a1 ← lift_result (F.Assign flag_name F.false);
        a2 ← lift_result (F.Assign value_name F.false);
        t ← lift_result (merged_branch value_name flag_name body
                           return_flag_then return_value_then);
        e ← lift_result (merged_branch value_name flag_name orelse
                           return_flag_else return_value_else);
        mret (F.Execute [a1; a2; F.If test t e])
      else mret (F.If test body orelse)
  | BinOp lhs op rhs =>
      lhs ← compile lhs;
      rhs ← compile rhs;
      _ ← Context.enter (BinOpContext None None);
      _ ← Context.assign_current (BinOpContext (Some lhs) (Some rhs));
      r ← compile op;
      _ ← Context.exit (BinOpContext None None);
      mret r
  | Add => binary "Add"
  | Sub => binary "Subtract"
  | Mult => binary "Multiply"
  | Div => binary "Divide"
  | Mod => binary "Mod"
  | Pow => binary "Power"
  | UnaryOp op operand =>
      operand ← compile operand;
      _ ← Context.enter (UnaryOpContext None);
      _ ← Context.assign_current (UnaryOpContext (Some operand));
      r ← compile op;
      _ ← Context.exit (UnaryOpContext None);
      mret r
  | UAdd =>
      _ ← Context.operand;
      mthrow (TypeError "Unsupported constant type: <class 'Node'>")
  | USub =>
      o ← Context.operand;
      match o with
      | Some o =>
          lift_result (F.create_function_node "Subtract"
                         [F.Value 0%float; o])
      | None => mthrow (TypeError "operand is None")
      end
  | Not =>
      o ← Context.operand;
      match o with
      | Some o => lift_result (F.create_function_node "Not" [o])
      | None => mthrow (TypeError "operand is None")
      end
  | IfExp test body orelse =>
      test ← compile test;
      body ← compile body;
      orelse ← compile orelse;
      mret (F.If test body orelse)
  | Compare lhs ops comparators =>
      compare_chain (compile lhs)
        (zip (map compile ops) (map compile comparators)) F.true
  | Eq => binary "Equal"
  | NotEq => binary "NotEqual"
  | Lt => binary "Less"
  | LtE => binary "LessOr"
  | Gt => binary "Greater"
  | GtE => binary "GreaterOr"
  | Assign_ targets value =>
      match targets with
      | [target] =>
          value ← compile value;
          _assign target value
      | [] => mthrow (IndexError "list index out of range")
      | _ => mthrow (TypeError "Multiple assignment not supported")
      end
  | AugAssign target op value =>
      value ← compile value;
      _ ← Context.enter (BinOpContext None None);
      l ← compile target;
      _ ← Context.assign_current (BinOpContext (Some l) (Some value));
      r ← compile op;
      a ← _assign target r;
      _ ← Context.exit (BinOpContext None None);
      mret a
  | AnnAssign target value =>
      match value with
      | None => mthrow (TypeError "Value required for annotation assignment")
      | Some value =>
          value ← compile value;
          _assign target value
      end
  | Name id =>
      name ← Context.name;
      match name with
      | None => mthrow (RuntimeError "Name not in context")
      | Some name => mret (F.Ref (var name id))
      end
  | Attribute _ _ =>
      pointer ← lift_result (_resolve_pointer node);
      match pointer with
      | None => mthrow (TypeError "Attribute not supported")
      | Some p => mret (GetNode (ptr_block p) (ptr_index p) (ptr_offset p))
      end
  | Constant value =>
      match value with
      | Number v => mret (F.Value v)
      | NotNumber t =>
          mthrow (TypeError ("Unsupported constant type: " +:+ t))
      end
  | Call_ func args keywords =>
      match func with
      | Name _ | Attribute _ _ =>
          module ← Context.module;
          match module with
          | None => mthrow (RuntimeError "Module not in context")
          | Some module =>
              args ← mapM compile args;
              kwargs ← mapM_items compile keywords;
              if existsb (fun kv => match fst kv with
                                    | None => true
                                    | Some _ => false
                                    end) kwargs
              then mthrow (TypeError "**kwargs is not supported")
              else
                _ ← Context.calls_add func;
                name ← lift_result (as_qualified module func);
                mret (F.Call name args
                        (foldl (fun d kv =>
                                  match fst kv with
                                  | Some k => dict_set d k (snd kv)
                                  | None => d
                                  end) [] kwargs))
          end
      | _ => mthrow (TypeError "Call to non-name not supported")
      end
  | Unsupported class_name =>
      mthrow (NotImplementedError ("Unsupported node type: " +:+ class_name))
  end.

(** [compile.compile], without the parsing and the recursion into the
    callees: the body of one function, compiled inside its
    [FunctionContext]. *)
Definition compile_function (func_name : QualifiedName) (module : string)
    (param_names : list string) (func_def : AST) : stateM CState Node :=
  _ ← Context.enter
        (FunctionContext [] (Some func_name) (Some module) param_names);
  node ← compile func_def;
  _ ← Context.exit (FunctionContext [] None None []);
  mret node.

End Collaborators.
End Compiler.

(** ** The evaluation of the tree IR *)

(** What the runtime observes of an execution: the user functions and the
    built-ins invoked, in order. *)
Inductive event : Type :=
| CallEvent (name : QualifiedName)
| FunctionEvent (name : string).

Record Machine : Type := mkMachine {
  registers : gmap string float;
  memory : list (Z * Z * float * float);
  trace : list event;
}.

Module Semantics.
Section Runtime.

(** The runtime is an external collaborator: what a user function returns
    for given argument values (before linking), and what a built-in
    computes. *)
Variable call_oracle : QualifiedName -> list float -> float.
Variable builtin : string -> list float -> result float.

Definition is_true (v : float) : bool := negb (PrimFloat.eqb v 0%float).

Definition read_register (name : string) : stateM Machine float :=
  fun m =>
    match registers m !! name with
    | Some v => Ok (v, m)
    | None => Err (KeyError name)
    end.

Definition write_register (name : string) (v : float)
  : stateM Machine unit :=
  fun m => Ok (tt, mkMachine (<[name := v]> (registers m)) (memory m)
                     (trace m)).

Definition same_cell (block index : Z) (offset : float)
    (cell : Z * Z * float * float) : bool :=
  match cell with
  | (b, i, o, _) => Z.eqb b block && Z.eqb i index && PrimFloat.eqb o offset
  end.

Definition read_memory (block index : Z) (offset : float)
  : stateM Machine float :=
  fun m =>
    match find (same_cell block index offset) (memory m) with
    | Some (_, _, _, v) => Ok (v, m)
    | None => Ok (0%float, m)
    end.

Definition write_memory (block index : Z) (offset v : float)
  : stateM Machine unit :=
  fun m => Ok (tt, mkMachine (registers m)
                     ((block, index, offset, v) :: memory m) (trace m)).

Definition emit (e : event) : stateM Machine unit :=
  fun m => Ok (tt, mkMachine (registers m) (memory m) (trace m ++ [e])).

(** Modelled from the spec: the evaluation of tree-IR nodes, which the
    repository leaves to the runtime.  [Value] is a literal, [Ref] reads a
    register, [Assign] writes one and yields the value, [Get] and [Set]
    address memory, [Execute] runs its elements in order and yields the
    value of the last, [If] evaluates the condition and then only the
    chosen branch, [While] repeats the body while the condition holds, and
    calls evaluate their arguments from left to right.  [fuel] bounds the
    depth of the evaluation and the iterations of loops. *)
Fixpoint eval (fuel : nat) (node : Node) : stateM Machine float :=
  match fuel with
  | O => mthrow OutOfFuel
  | S fuel' =>
      match node with
      | ValueNode v => mret v
      | RefNode name => read_register name
      | AssignNode name value =>
          v ← eval fuel' value;
          _ ← write_register name v;
          mret v
      | GetNode block index offset =>
          o ← eval fuel' offset;
          read_memory block index o
      | SetNode block index offset value =>
          o ← eval fuel' offset;
          v ← eval fuel' value;
          _ ← write_memory block index o v;
          mret v
      | ExecuteNode nodes =>
          vs ← mapM (eval fuel') nodes;
          mret (default 0%float (last vs))
      | FunctionNode name args =>
          vs ← mapM (eval fuel') args;
          _ ← emit (FunctionEvent name);
          lift_result (builtin name vs)
      | CallNode name args kwargs =>
          vs ← mapM (eval fuel') args;
          kvs ← mapM_items (eval fuel') kwargs;
          _ ← emit (CallEvent name);
          mret (call_oracle name (vs ++ map snd kvs))
      | StarredNode _ => mthrow (TypeError "StarredNode not resolved")
      | IfNode condition then_ orelse =>
          c ← eval fuel' condition;
          if is_true c then eval fuel' then_ else eval fuel' orelse
      | WhileNode condition body =>
          c ← eval fuel' condition;
          if is_true c then
            _ ← eval fuel' body;
            eval fuel' node
          else mret 0%float
      end
  end.

(** How often a user function was invoked in a trace. *)
Definition is_call (name : QualifiedName) (e : event) : bool :=
  match e with
  | CallEvent n => String.eqb n name
  | FunctionEvent _ => false
  end.

Definition calls_of (name : QualifiedName) (t : list event) : nat :=
  length (List.filter (is_call name) t).

End Runtime.
End Semantics.

(** ** The flow graph ([node/flow.py]) *)

Inductive Expr : Type :=
| ValueExpr (value : float)
| FunctionExpr (name : string) (args : list Expr)
| RefExpr (name : string)
| GetExpr (block index : Z) (offset : Expr).

(** What stands where a value is expected.  The annotations of [flow.py]
    say [Expr] there, but they are not checked when the program runs, and
    flow lowering stores what a child lowers to as the value of an
    assignment and as the condition of a switch: an expression, or, for a
    [SetNode], the [SetStatement] that [transform_SetNode] returns.
    [SetVal] is that [SetStatement] object in such a place.  No code
    embedded here puts an [AssignStatement] there, and every other field
    annotated [Expr] is only ever given an expression. *)
Inductive Val : Type :=
| ExprVal (e : Expr)
| SetVal (block index : Z) (offset value : Expr).

Inductive Statement : Type :=
| AssignStatement (name : string) (value : Val) (mutable : bool)
| SetStatement (block index : Z) (offset value : Expr).

(** An element of an execute block: [Union[Expr, Statement]]. *)
Inductive Block : Type :=
| OfExpr (e : Expr)
| OfStatement (s : Statement).

(** The object that a value is, as an element of an execute block. *)
Definition as_block (v : Val) : Block :=
  match v with
  | ExprVal e => OfExpr e
  | SetVal block index offset value =>
      OfStatement (SetStatement block index offset value)
  end.

Inductive Flow : Type :=
| ExecuteFlow (nodes : list Block) (next : option Flow)
| SwitchFlow (result : string) (condition : Val)
    (cases : list (Expr * Flow)) (default : option Flow) (next : option Flow)
| LoopFlow (condition : Expr) (body : Flow) (next : option Flow).

Module Fl.

Definition Value (value : float) : Expr := ValueExpr value.
Definition true : Expr := ValueExpr 1%float.
Definition false : Expr := ValueExpr 0%float.
Definition Ref (name : string) : Expr := RefExpr name.
Definition Assign (name : string) (value : Val) : Statement :=
  AssignStatement name value Datatypes.true.
(** The built-in call [F.<name>] of the flow graph: no check here. *)
Definition create_function_node (name : string) (nodes : list Expr) : Expr :=
  FunctionExpr name nodes.
(** The literal of a Python [bool]. *)
Definition of_bool (b : bool) : Expr :=
  ValueExpr (if b then 1%float else 0%float).

(** [ValueExpr.true] and [ValueExpr.false]. *)
Definition is_true (node : Expr) : bool :=
  match node with
  | ValueExpr v => negb (PrimFloat.eqb v 0%float)
  | _ => Datatypes.false
  end.
Definition is_false (node : Expr) : bool :=
  match node with
  | ValueExpr v => PrimFloat.eqb v 0%float
  | _ => Datatypes.false
  end.

End Fl.

Module Flow.

Fixpoint attach (self flow : Flow) : Flow :=
  match self with
  | ExecuteFlow nodes next =>
      match next with
      | Some next => ExecuteFlow nodes (Some (attach next flow))
      | None =>
          match flow with
          | ExecuteFlow nodes' next' => ExecuteFlow (nodes ++ nodes') next'
          | _ => ExecuteFlow nodes (Some flow)
          end
      end
  | SwitchFlow result condition cases default next =>
      SwitchFlow result condition cases default
        (Some (match next with
               | Some next => attach next flow
               | None => flow
               end))
  | LoopFlow condition body next =>
      LoopFlow condition body
        (Some (match next with
               | Some next => attach next flow
               | None => flow
               end))
  end.

Fixpoint set_result (self : Flow) (name : string) : result Flow :=
  match self with
  | ExecuteFlow nodes next =>
      match next with
      | Some next =>
          next' ← set_result next name;
          Ok (ExecuteFlow nodes (Some next'))
      | None =>
          match last nodes with
          | None => Err (IndexError "list index out of range")
          | Some (OfStatement _) =>
              Ok (ExecuteFlow
                    (nodes ++ [OfStatement
                                 (Fl.Assign name
                                    (ExprVal (Fl.Value 0%float)))])
                    None)
          | Some (OfExpr last) =>
              Ok (ExecuteFlow
                    (removelast nodes
                       ++ [OfStatement (Fl.Assign name (ExprVal last))])
                    None)
          end
      end
  | SwitchFlow r condition cases default next =>
      match next with
      | Some next =>
          next' ← set_result next name;
          Ok (SwitchFlow r condition cases default (Some next'))
      | None =>
          Ok (attach self
                (ExecuteFlow
                   [OfStatement (Fl.Assign name (ExprVal (RefExpr r)))]
                   None))
      end
  | LoopFlow _ _ _ => Ok self
  end.

End Flow.

(** ** Flow lowering ([node/transform.py]) *)

(** The state of a [Transformer] and the module-level counter of
    [anonymous], which all transformers share. *)
Record TState : Type := mkTState {
  flow : Flow;
  counter : nat;
}.

Module Transformer.

Definition anonymous : stateM TState string :=
  fun s =>
    let n := S (counter s) in Ok ("$" +:+ str_of_nat n, mkTState (flow s) n).

(** [append] of a flow, and of a list of statements and expressions. *)
Definition append_flow (blocks : Flow) : stateM TState unit :=
  fun s => Ok (tt, mkTState (Flow.attach (flow s) blocks) (counter s)).

Definition append (blocks : list Block) : stateM TState unit :=
  append_flow (ExecuteFlow blocks None).

(** [lift]: the value is what a child lowered to, an expression or the
    statement of a [Set]. *)
Definition lift (value : Val) : stateM TState Expr :=
  name ← anonymous;
  _ ← append [OfStatement (AssignStatement name value true)];
  mret (RefExpr name).

(** [if not value: raise TypeError]: what a child lowers to is [None], an
    expression or a [SetStatement], and only [None] is falsy, since no
    class of the flow graph defines [__bool__] or [__len__].  The statement
    of a [Set] passes the test like an expression. *)
Definition value_of (source : string) (r : option Val)
  : stateM TState Val :=
  match r with
  | None => mthrow (TypeError (source +:+ " returns None."))
  | Some value => mret value
  end.

(** [Transformer(root).flow] for a new transformer that starts from the
    empty execute block and shares the counter; [walk] is the method
    [transform] of that transformer. *)
Definition run (walk : Node -> stateM TState (option Val)) (root : Node)
  : stateM TState Flow :=
  fun s =>
    match (block ← walk (ExecuteNode [root]);
           match block with
           | Some b => append [as_block b]
           | None => mret tt
           end) (mkTState (ExecuteFlow [] None) (counter s)) with
    | Ok (_, s') => Ok (flow s', mkTState (flow s) (counter s'))
    | Err e => Err e
    end.

Definition transform_ExecuteNode
    (walk : Node -> stateM TState (option Val))
  : list Node -> option Val -> stateM TState (option Val) :=
  fix loop nodes result :=
    match nodes with
    | [] => mret result
    | node :: rest =>
        _ ← match result with
            | Some r => append [as_block r]
            | None => mret tt
            end;
        result ← walk node;
        loop rest result
    end.

Definition transform_FunctionNode
    (walk : Node -> stateM TState (option Val))
  : list Node -> list Expr -> stateM TState (list Expr) :=
  fix loop nodes args :=
    match nodes with
    | [] => mret args
    | arg :: rest =>
        value ← walk arg;
        value ← value_of "argument" value;
        r ← lift value;
        loop rest (args ++ [r])
    end.

(** The method [transform]: the dispatch on the class name and the
    [transform_*] methods.  [CallNode] and [StarredNode] have none.  The
    result is [None], an expression, or the statement of a [Set]. *)
Fixpoint transform (fuel : nat) (node : Node)
  : stateM TState (option Val) :=
  match fuel with
  | O => mthrow OutOfFuel
  | S fuel' =>
      match node with
      | ValueNode value => mret (Some (ExprVal (ValueExpr value)))
      | RefNode name => mret (Some (ExprVal (RefExpr name)))
      | AssignNode name value =>
          value ← transform fuel' value;
          value ← value_of "value" value;
          _ ← append [OfStatement (AssignStatement name value true)];
          mret None
      | GetNode block index offset =>
          offset ← transform fuel' offset;
          offset ← value_of "offset" offset;
          offset ← lift offset;
          mret (Some (ExprVal (GetExpr block index offset)))
      | SetNode block index offset value =>
          value ← transform fuel' value;
          value ← value_of "value" value;
          offset ← transform fuel' offset;
          offset ← value_of "offset" offset;
          offset ← lift offset;
          value ← lift value;
          mret (Some (SetVal block index offset value))
      | ExecuteNode nodes =>
          transform_ExecuteNode (transform fuel') nodes None
      | FunctionNode name args =>
          args ← transform_FunctionNode (transform fuel') args [];
          mret (Some (ExprVal (FunctionExpr name args)))
      | IfNode condition then_ orelse =>
          cond ← transform fuel' condition;
          cond ← value_of "condition" cond;
          result ← anonymous;
          then_ ← run (transform fuel') then_;
          orelse ← run (transform fuel') orelse;
          _ ← append_flow
                (SwitchFlow result cond [(ValueExpr 0%float, orelse)]
                   (Some then_) None);
          mret (Some (ExprVal (RefExpr result)))
      | WhileNode condition body =>
          cond ← anonymous;
          assign ← lift_result (F.Assign cond condition);
          condition ← run (transform fuel') assign;
          body ← run (transform fuel') body;
          let body := Flow.attach body condition in
          _ ← append_flow condition;
          _ ← append_flow (LoopFlow (RefExpr cond) body None);
          mret None
      | CallNode _ _ _ =>
          mthrow (NotImplementedError "CallNode is not supported.")
      | StarredNode _ =>
          mthrow (NotImplementedError "StarredNode is not supported.")
      end
  end.

End Transformer.

(** The module-level [transform]: the flow of a new transformer for [node],
    given the current value of the counter. *)
Definition transform (fuel : nat) (node : Node) (count : nat)
  : result (Flow * nat) :=
  match Transformer.run (Transformer.transform fuel) node
          (mkTState (ExecuteFlow [] None) count) with
  | Ok (f, s) => Ok (f, counter s)
  | Err e => Err e
  end.

(** ** The optimizer passes ([optimizer/switch.py], [optimizer/constant.py]) *)

(** [apply] of the flow graph's classes.  [AssignStatement.apply] rebuilds
    the statement without passing [mutable] on, so that the flag is reset to
    its default.  The callback [func] of the source is the method [optimize]
    of an optimizer, which takes an object of any class; here it is given
    as it acts on expressions. *)
Definition Expr_apply (func : Expr -> result Expr) (e : Expr) : result Expr :=
  match e with
  | FunctionExpr name args =>
      args' ← mapM func args; Ok (FunctionExpr name args')
  | GetExpr block index offset =>
      offset' ← func offset; Ok (GetExpr block index offset')
  | ValueExpr _ | RefExpr _ => Ok e
  end.

(** The callback on what stands where a value is expected: no optimizer
    embedded here has a method for [SetStatement], which therefore goes
    through [SetStatement.apply]. *)
Definition on_val (func : Expr -> result Expr) (v : Val) : result Val :=
  match v with
  | ExprVal e => e' ← func e; Ok (ExprVal e')
  | SetVal block index offset value =>
      offset' ← func offset;
      value' ← func value;
      Ok (SetVal block index offset' value')
  end.

Definition Statement_apply (func : Expr -> result Expr) (s : Statement)
  : result Statement :=
  match s with
  | AssignStatement name value _ =>
      value' ← on_val func value; Ok (AssignStatement name value' true)
  | SetStatement block index offset value =>
      offset' ← func offset;
      value' ← func value;
      Ok (SetStatement block index offset' value')
  end.

Definition Block_apply (on_expr : Expr -> result Expr)
    (on_statement : Statement -> result Statement) (b : Block)
  : result Block :=
  match b with
  | OfExpr e => e' ← on_expr e; Ok (OfExpr e')
  | OfStatement s => s' ← on_statement s; Ok (OfStatement s')
  end.

(** [self.next and func(self.next)]. *)
Definition and_then {A} (func : A -> result A) (next : option A)
  : result (option A) :=
  match next with
  | Some n => n' ← func n; Ok (Some n')
  | None => Ok None
  end.

Module SwitchElimination.

(** Only [optimize_SwitchFlow] is defined: expressions and statements go
    through [apply]. *)
Fixpoint optimize_Expr (e : Expr) : result Expr :=
  Expr_apply optimize_Expr e.

Definition optimize_Statement (s : Statement) : result Statement :=
  Statement_apply optimize_Expr s.

Definition optimize_Block (b : Block) : result Block :=
  Block_apply optimize_Expr optimize_Statement b.

(** The [for ... else] of [optimize_SwitchFlow], for a literal condition
    of value [v]: [Some] is the flow assigned to [result]. *)
Fixpoint select (v : float) (name : string) (default : option Flow)
    (cases : list (Expr * Flow)) (static : bool) : result (option Flow) :=
  match cases with
  | [] =>
      match default with
      | Some d =>
          if static then r ← Flow.set_result d name; Ok (Some r)
          else Ok None
      | None => Ok None
      end
  | (case, body) :: rest =>
      match case with
      | ValueExpr c =>
          if PrimFloat.eqb c v
          then r ← Flow.set_result body name; Ok (Some r)
          else select v name default rest static
      | _ => select v name default rest false
      end
  end.

Fixpoint optimize (flow : Flow) : result Flow :=
  let apply_cases :=
    fix bodies (cases : list (Expr * Flow)) (cases' : list Expr)
      : result (list (Expr * Flow)) :=
      match cases, cases' with
      | (_, body) :: rest, case' :: rest' =>
          body' ← optimize body;
          r ← bodies rest rest';
          Ok ((case', body') :: r)
      | _, _ => Ok []
      end in
  let apply_flow :=
    match flow with
    | ExecuteFlow nodes next =>
        nodes' ← mapM optimize_Block nodes;
        next' ← and_then optimize next;
        Ok (ExecuteFlow nodes' next')
    | SwitchFlow result condition cases default next =>
        cases' ← mapM (fun c => optimize_Expr (fst c)) cases;
        condition' ← on_val optimize_Expr condition;
        bodies ← apply_cases cases cases';
        default' ← and_then optimize default;
        next' ← and_then optimize next;
        Ok (SwitchFlow result condition' bodies default' next')
    | LoopFlow condition body next =>
        condition' ← optimize_Expr condition;
        body' ← optimize body;
        next' ← and_then optimize next;
        Ok (LoopFlow condition' body' next')
    end in
  match flow with
  | SwitchFlow result condition cases default next =>
      match condition with
      | ExprVal (ValueExpr v) =>
          selected ← select v result default cases true;
          match selected with
          | Some r =>
              match next with
              | Some next =>
                  next' ← optimize next;
                  Ok (Flow.attach r next')
              | None => Ok r
              end
          | None => apply_flow
          end
      | _ => apply_flow
      end
  | _ => apply_flow
  end.

End SwitchElimination.

Module ConstantFold.
Section Math.

(** The functions of Python's [math] module and [round], which the
    primitive floats do not provide. *)
Variables math_floor math_ceil round math_trunc math_exp math_log
  : float -> result float.

Definition literal (e : Expr) : option float :=
  match e with ValueExpr v => Some v | _ => None end.

(** [if constant]: a float is falsy when it equals zero. *)
Definition truthy_float (v : float) : bool := negb (PrimFloat.eqb v 0%float).

Inductive quad : Type := QuadAdd | QuadMultiply.

Fixpoint _fold_quad_loop (fold : quad) (nodes : list Expr)
    (constant : float) (result : list Expr) : float * list Expr :=
  match nodes with
  | [] => (constant, result)
  | node :: rest =>
      match node with
      | ValueExpr v =>
          _fold_quad_loop fold rest
            (match fold with
             | QuadAdd => PrimFloat.add constant v
             | QuadMultiply => PrimFloat.mul constant v
             end) result
      | _ => _fold_quad_loop fold rest constant (result ++ [node])
      end
  end.

Definition _fold_quad (fold : quad) (nodes : list Expr) : list Expr :=
  let '(constant, result) :=
    _fold_quad_loop fold nodes
      (match fold with QuadAdd => 0%float | QuadMultiply => 1%float end)
      [] in
  let result :=
    if truthy_float constant then Fl.Value constant :: result else result in
  match result with
  | [] => [match fold with
           | QuadAdd => Fl.Value 0%float
           | QuadMultiply => Fl.Value 1%float
           end]
  | _ => result
  end.

Definition fold_Add (nodes : list Expr) : result Expr :=
  match _fold_quad QuadAdd nodes with
  | [r] => Ok r
  | result => Ok (FunctionExpr "Add" result)
  end.

Definition fold_Multiply (nodes : list Expr) : result Expr :=
  match _fold_quad QuadMultiply nodes with
  | [r] => Ok r
  | result => Ok (FunctionExpr "Multiply" result)
  end.

Definition fold_Subtract (nodes : list Expr) : result Expr :=
  match nodes with
  | [] => Err (IndexError "tuple index out of range")
  | [head] => Ok head
  | head :: rest =>
      let tail := _fold_quad QuadAdd rest in
      match head, tail with
      | ValueExpr h, ValueExpr t :: tail' =>
          let head := Fl.Value (PrimFloat.sub h t) in
          match tail' with
          | [] => Ok head
          | _ => Ok (FunctionExpr "Sub" (head :: tail'))
          end
      | _, _ => Ok (FunctionExpr "Sub" (head :: tail))
      end
  end.

Definition fold_Divide (nodes : list Expr) : result Expr :=
  match nodes with
  | [] => Err (IndexError "tuple index out of range")
  | [head] => Ok head
  | head :: rest =>
      let tail := _fold_quad QuadMultiply rest in
      match head, tail with
      | ValueExpr h, ValueExpr t :: tail' =>
          if PrimFloat.eqb t 0%float
          then Err (ZeroDivisionError "float division by zero")
          else
            let head := Fl.Value (PrimFloat.div h t) in
            match tail' with
            | [] => Ok head
            | _ => Ok (FunctionExpr "Divide" (head :: tail'))
            end
      | _, _ => Ok (FunctionExpr "Divide" (head :: tail))
      end
  end.

(** A fold method of two positional parameters, called with [nodes]. *)
Definition binary (name : string) (nodes : list Expr)
    (on_values : float -> float -> Expr) : result Expr :=
  match nodes with
  | [a; b] =>
      match a, b with
      | ValueExpr x, ValueExpr y => Ok (on_values x y)
      | _, _ => Ok (FunctionExpr name [a; b])
      end
  | _ => Err (TypeError "wrong number of positional arguments")
  end.

(** A fold method of one positional parameter. *)
Definition unary (nodes : list Expr) (on_value : float -> result Expr)
    (otherwise : Expr -> Expr) : result Expr :=
  match nodes with
  | [node] =>
      match node with
      | ValueExpr x => on_value x
      | _ => Ok (otherwise node)
      end
  | _ => Err (TypeError "wrong number of positional arguments")
  end.

(** [functions.math.sign]. *)
Definition sign (x : float) : float :=
  if PrimFloat.ltb 0%float x then 1%float
  else if PrimFloat.ltb x 0%float then (-1)%float
  else 0%float.

(** The built-ins [min] and [max] on two arguments. *)
Definition py_min (a b : float) : float := if PrimFloat.ltb b a then b else a.
Definition py_max (a b : float) : float := if PrimFloat.ltb a b then b else a.

Definition fold_If (nodes : list Expr) : result Expr :=
  match nodes with
  | [condition; then_; orelse] =>
      if Fl.is_true condition then Ok then_
      else if Fl.is_false condition then Ok orelse
      else Ok (FunctionExpr "If" [condition; then_; orelse])
  | _ => Err (TypeError "wrong number of positional arguments")
  end.

(** The [for ... else] of [fold_And]: [None] when the loop breaks. *)
Fixpoint fold_And_loop (args nodes : list Expr) : option (list Expr) :=
  match args with
  | [] => Some nodes
  | node :: rest =>
      if Fl.is_true node then fold_And_loop rest nodes
      else if Fl.is_false node then None
      else fold_And_loop rest (nodes ++ [node])
  end.

Definition fold_And (args : list Expr) : result Expr :=
  match fold_And_loop args [] with
  | Some [] => Ok Fl.true
  | Some nodes => Ok (FunctionExpr "And" nodes)
  | None =>
      match args with
      | [] => Ok Fl.false
      | _ => Ok (FunctionExpr "And" args)
      end
  end.

Fixpoint fold_Or_loop (args nodes : list Expr) : option (list Expr) :=
  match args with
  | [] => Some nodes
  | node :: rest =>
      if Fl.is_false node then fold_Or_loop rest nodes
      else if Fl.is_true node then None
      else fold_Or_loop rest (nodes ++ [node])
  end.

Definition fold_Or (args : list Expr) : result Expr :=
  match fold_Or_loop args [] with
  | Some [] => Ok Fl.false
  | Some nodes => Ok (FunctionExpr "Or" nodes)
  | None =>
      match args with
      | [] => Ok Fl.true
      | _ => Ok (FunctionExpr "Or" args)
      end
  end.

Definition value_of (r : result float) : result Expr :=
  v ← r; Ok (Fl.Value v).

(** [getattr(self, f"fold_{name}", None)]. *)
Definition fold (name : string) : option (list Expr -> result Expr) :=
  if String.eqb name "Add" then Some fold_Add
  else if String.eqb name "Subtract" then Some fold_Subtract
  else if String.eqb name "Multiply" then Some fold_Multiply
  else if String.eqb name "Divide" then Some fold_Divide
  else if String.eqb name "Min" then
    Some (fun ns => binary "Min" ns (fun a b => Fl.Value (py_min a b)))
  else if String.eqb name "Max" then
    Some (fun ns => binary "Max" ns (fun a b => Fl.Value (py_max a b)))
  else if String.eqb name "Less" then
    Some (fun ns => binary "Less" ns
                      (fun a b => Fl.of_bool (PrimFloat.ltb a b)))
  else if String.eqb name "LessOr" then
    Some (fun ns => binary "LessOr" ns
                      (fun a b => Fl.of_bool (PrimFloat.leb a b)))
  else if String.eqb name "Greater" then
    Some (fun ns => binary "Greater" ns
                      (fun a b => Fl.of_bool (PrimFloat.ltb b a)))
  else if String.eqb name "GreaterOr" then
    Some (fun ns => binary "GreaterOr" ns
                      (fun a b => Fl.of_bool (PrimFloat.leb b a)))
  else if String.eqb name "Equal" then
    Some (fun ns => binary "Equal" ns
                      (fun a b => Fl.of_bool (PrimFloat.eqb a b)))
  else if String.eqb name "NotEqual" then
    Some (fun ns => binary "NotEqual" ns
                      (fun a b => Fl.of_bool (negb (PrimFloat.eqb a b))))
  else if String.eqb name "Not" then
    Some (fun ns => unary ns
                      (fun v => Ok (Fl.of_bool (PrimFloat.eqb v 0%float)))
                      (fun n => FunctionExpr "Not" [n]))
  else if String.eqb name "Negate" then
    Some (fun ns => unary ns (fun v => Ok (Fl.Value (PrimFloat.opp v)))
                      (fun n => FunctionExpr "Subtract"
                                  [Fl.Value 0%float; n]))
  else if String.eqb name "Abs" then
    Some (fun ns => unary ns (fun v => Ok (Fl.Value (PrimFloat.abs v)))
                      (fun n => FunctionExpr "Abs" [n]))
  else if String.eqb name "Sign" then
    Some (fun ns => unary ns (fun v => Ok (Fl.Value (sign v)))
                      (fun n => FunctionExpr "Sign" [n]))
  else if String.eqb name "Floor" then
    Some (fun ns => unary ns (fun v => value_of (math_floor v))
                      (fun n => FunctionExpr "Floor" [n]))
  else if String.eqb name "Ceil" then
    Some (fun ns => unary ns (fun v => value_of (math_ceil v))
                      (fun n => FunctionExpr "Ceil" [n]))
  else if String.eqb name "Round" then
    Some (fun ns => unary ns (fun v => value_of (round v))
                      (fun n => FunctionExpr "Round" [n]))
  else if String.eqb name "Trunc" then
    Some (fun ns => unary ns (fun v => value_of (math_trunc v))
                      (fun n => FunctionExpr "Trunc" [n]))
  else if String.eqb name "Exp" then
    Some (fun ns => unary ns (fun v => value_of (math_exp v))
                      (fun n => FunctionExpr "Exp" [n]))
  else if String.eqb name "Log" then
    Some (fun ns => unary ns (fun v => value_of (math_log v))
                      (fun n => FunctionExpr "Log" [n]))
  else if String.eqb name "If" then Some fold_If
  else if String.eqb name "And" then Some fold_And
  else if String.eqb name "Or" then Some fold_Or
  else None.

(** [optimize] on expressions: [optimize_FunctionExpr] is the one method
    defined, the other classes go through [apply]. *)
Fixpoint optimize (e : Expr) : result Expr :=
  match e with
  | FunctionExpr name args =>
      args' ← mapM optimize args;
      match fold name with
      | Some f => f args'
      | None => Ok (FunctionExpr name args')
      end
  | _ => Expr_apply optimize e
  end.

End Math.
End ConstantFold.

(** ** Notions used to state the properties *)

(** The number of [CallNode]s in a tree. *)
Fixpoint count_calls (node : Node) : nat :=
  match node with
  | ValueNode _ | RefNode _ | StarredNode _ => 0
  | FunctionNode _ args => sum_list_with count_calls args
  | AssignNode _ value => count_calls value
  | GetNode _ _ offset => count_calls offset
  | SetNode _ _ offset value => count_calls offset + count_calls value
  | ExecuteNode nodes => sum_list_with count_calls nodes
  | CallNode _ args kwargs =>
      S (sum_list_with count_calls args
         + sum_list_with (fun kv => count_calls (snd kv)) kwargs)
  | IfNode c t e => count_calls c + count_calls t + count_calls e
  | WhileNode c b => count_calls c + count_calls b
  end.

(** The [CallNode]s that are not below a [GetNode] or a [SetNode]. *)
Fixpoint visible_calls (node : Node) : nat :=
  match node with
  | ValueNode _ | RefNode _ | StarredNode _ => 0
  | GetNode _ _ _ | SetNode _ _ _ _ => 0
  | FunctionNode _ args => sum_list_with visible_calls args
  | AssignNode _ value => visible_calls value
  | ExecuteNode nodes => sum_list_with visible_calls nodes
  | CallNode _ args kwargs =>
      S (sum_list_with visible_calls args
         + sum_list_with (fun kv => visible_calls (snd kv)) kwargs)
  | IfNode c t e => visible_calls c + visible_calls t + visible_calls e
  | WhileNode c b => visible_calls c + visible_calls b
  end.

(** Whether a [GetNode] or a [SetNode] occurs in a tree. *)
Fixpoint has_get_set (node : Node) : bool :=
  match node with
  | ValueNode _ | RefNode _ | StarredNode _ => false
  | GetNode _ _ _ | SetNode _ _ _ _ => true
  | FunctionNode _ args => existsb has_get_set args
  | AssignNode _ value => has_get_set value
  | ExecuteNode nodes => existsb has_get_set nodes
  | CallNode _ args kwargs =>
      existsb has_get_set args
      || existsb (fun kv => has_get_set (snd kv)) kwargs
  | IfNode c t e => has_get_set c || has_get_set t || has_get_set e
  | WhileNode c b => has_get_set c || has_get_set b
  end.

(** A computation that ends: it returns, or raises an exception of the
    code, within the recursion bound it was given. *)
Definition ends {A} (r : result A) : Prop := r <> Err OutOfFuel.

(** A step of the linker started with the set [R] of names being inlined:
    it ends, and when it returns, the set is [R'] and the value satisfies
    [Q]. *)
Definition link_step {A} (c : stateM (gset string) A) (R R' : gset string)
    (Q : A -> Prop) : Prop :=
  match c R with
  | Ok (a, R1) => R1 = R' /\ Q a
  | Err e => e <> OutOfFuel
  end.

(** The right fold of a binary application over a non-empty sequence
    [r; rs], as the specification words it: [op(r1, op(r2, r3))]. *)
Fixpoint right_fold (unit : Node -> Node -> Node) (r : Node)
    (rs : list Node) : Node :=
  match rs with
  | [] => r
  | r' :: rs' => unit r (right_fold unit r' rs')
  end.

(** The registrations of an overloaded function, in registration order. *)
Definition registrations (self : CompiledOverloadedFunction)
  : list CompiledFunction :=
  base self :: overloads self.

(** A registration whose contract rejects the arguments. *)
Definition rejects (f : CompiledFunction) (args : list Node)
    (kwargs : list (string * Node)) : Prop :=
  exists e, CompiledFunction.call f args kwargs = Err e
            /\ is_TypeError e = true.

(** A name with a dollar sign in it, which no identifier of the host
    language is. *)
Fixpoint has_dollar (s : string) : bool :=
  match s with
  | EmptyString => false
  | String c s' => Ascii.eqb c "$"%char || has_dollar s'
  end.

(** The lowering of an [If] as the specification describes it: after the
    statements [nodes], among them the assignment of the register [name], a
    switch on that register with two cases, both with literal labels. *)
Definition assigns (name : string) (b : Block) : bool :=
  match b with
  | OfStatement (AssignStatement n _ _) => String.eqb n name
  | _ => false
  end.

Definition lifted_two_case_switch (f : Flow) : Prop :=
  exists nodes result name cases default next,
    f = ExecuteFlow nodes
          (Some (SwitchFlow result (ExprVal (RefExpr name)) cases default
                   next))
    /\ existsb (assigns name) nodes = true
    /\ length cases = 2
    /\ Forall (fun c => exists v, fst c = ValueExpr v) cases.

(** ** Induction on nodes *)

Section NodeInduction.

Variable P : Node -> Prop.
Hypothesis HValue : forall v, P (ValueNode v).
Hypothesis HFunction : forall name args,
  Forall P args -> P (FunctionNode name args).
Hypothesis HRef : forall name, P (RefNode name).
Hypothesis HAssign : forall name value, P value -> P (AssignNode name value).
Hypothesis HGet : forall block index offset,
  P offset -> P (GetNode block index offset).
Hypothesis HSet : forall block index offset value,
  P offset -> P value -> P (SetNode block index offset value).
Hypothesis HExecute : forall nodes, Forall P nodes -> P (ExecuteNode nodes).
Hypothesis HCall : forall name args kwargs,
  Forall P args -> Forall (fun kv => P (snd kv)) kwargs ->
  P (CallNode name args kwargs).
Hypothesis HStarred : forall nested, P (StarredNode nested).
Hypothesis HIf : forall c t e, P c -> P t -> P e -> P (IfNode c t e).
Hypothesis HWhile : forall c b, P c -> P b -> P (WhileNode c b).

(** Induction on nodes, with the hypothesis for every child in a list. *)
Fixpoint Node_nested_ind (node : Node) : P node :=
  let all :=
    fix all (l : list Node) : Forall P l :=
      match l with
      | [] => List.Forall_nil P
      | x :: l' => List.Forall_cons P x l' (Node_nested_ind x) (all l')
      end in
  match node with
  | ValueNode v => HValue v
  | FunctionNode name args => HFunction name args (all args)
  | RefNode name => HRef name
  | AssignNode name value => HAssign name value (Node_nested_ind value)
  | GetNode b i o => HGet b i o (Node_nested_ind o)
  | SetNode b i o v => HSet b i o v (Node_nested_ind o) (Node_nested_ind v)
  | ExecuteNode nodes => HExecute nodes (all nodes)
  | CallNode name args kwargs =>
      HCall name args kwargs (all args)
        ((fix all_items (l : list (string * Node))
            : Forall (fun kv => P (snd kv)) l :=
            match l with
            | [] => List.Forall_nil _
            | kv :: l' =>
                List.Forall_cons (fun kv => P (snd kv)) kv l'
                  (Node_nested_ind (snd kv)) (all_items l')
            end) kwargs)
  | StarredNode nested => HStarred nested
  | IfNode c t e =>
      HIf c t e (Node_nested_ind c) (Node_nested_ind t) (Node_nested_ind e)
  | WhileNode c b => HWhile c b (Node_nested_ind c) (Node_nested_ind b)
  end.

End NodeInduction.

(** ** Concrete programs used below *)

Module Examples.

(** A function with only a variadic tail [args], whose body is [Add]
    applied to the nested placeholder. *)
Definition nested_sum : CompiledFunction :=
  mkCompiledFunction "m.f" (mkParameterList [] (Some "args"))
    (FunctionNode "Add" [StarredNode true]).

(** Two parameters and a variadic tail; the body has two arguments before
    the nested placeholder: [Add(a, b, ...)]. *)
Definition sum_from : CompiledFunction :=
  mkCompiledFunction "m.f"
    (mkParameterList [mkParam "a" None; mkParam "b" None] (Some "args"))
    (FunctionNode "Add" [RefNode "m$f$a"; RefNode "m$f$b"; StarredNode true]).

(** Only a variadic tail; the call with the nested placeholder is the
    argument of another call, [Abs(Max(...))], or the value that a [Set]
    stores. *)
Definition abs_of_max : CompiledFunction :=
  mkCompiledFunction "m.f" (mkParameterList [] (Some "args"))
    (FunctionNode "Abs" [FunctionNode "Max" [StarredNode true]]).

Definition store_max : CompiledFunction :=
  mkCompiledFunction "m.f" (mkParameterList [] (Some "args"))
    (SetNode 0 0 (ValueNode 0%float) (FunctionNode "Max" [StarredNode true])).

(** Two registrations of [m.g]: no parameter, then two required ones. *)
Definition overloaded : CompiledOverloadedFunction :=
  mkCompiledOverloadedFunction
    (mkCompiledFunction "m.g" (mkParameterList [] None) (ValueNode 0%float))
    [mkCompiledFunction "m.g"
       (mkParameterList [mkParam "x" None; mkParam "y" None] None)
       (FunctionNode "Add" [RefNode "m$g$x"; RefNode "m$g$y"])].

(** One parameter [x]. *)
Definition unary_function : CompiledFunction :=
  mkCompiledFunction "m.h" (mkParameterList [mkParam "x" None] None)
    (FunctionNode "Abs" [RefNode "m$h$x"]).

(** The collaborators of the compiler for a module [m]: a plain name [f]
    is the function [m.f], and [Mem.x] is the cell at index 0 of block 0. *)
Definition as_qualified (module : string) (func : AST) : result QualifiedName :=
  match func with
  | Name id => Ok (module +:+ "." +:+ id)
  | _ => Err (RuntimeError "Cannot resolve")
  end.

Definition _resolve_pointer (target : AST) : result (option Pointer) :=
  match target with
  | Attribute (Name "Mem") "x" => Ok (Some (mkPointer 0 0 (ValueNode 0%float)))
  | _ => Ok None
  end.

(** Compile the function [name] of module [m], from a fresh context and a
    fresh counter. *)
Definition compile_in_m (name : string) (func_def : AST) : result Node :=
  match Compiler.compile_function as_qualified _resolve_pointer
          ("m." +:+ name) "m" [] func_def (mkCState [] 0) with
  | Ok (node, _) => Ok node
  | Err e => Err e
  end.

(** [def main(): Mem.x = main()]. *)
Definition store_own_result : AST :=
  FunctionDef "main"
    [Assign_ [Attribute (Name "Mem") "x"] (Call_ (Name "main") [] [])].

Definition store_own_result_node : Node :=
  SetNode 0 0 (ValueNode 0%float) (CallNode "m.main" [] []).

(** [main] calls [h] at two call sites, one of them with a call of [h] as
    argument; and [main] and [g] that call each other. *)
Definition two_call_sites : CompileOutput :=
  mkCompileOutput "m.main"
    (<[ "m.main" :=
          Plain (mkCompiledFunction "m.main" (mkParameterList [] None)
                   (ExecuteNode
                      [CallNode "m.h" [ValueNode 1%float] [];
                       CallNode "m.h"
                         [CallNode "m.h" [ValueNode 2%float] []] []])) ]>
       {[ "m.h" :=
            Plain (mkCompiledFunction "m.h"
                     (mkParameterList [mkParam "x" None] None)
                     (FunctionNode "Abs" [RefNode "m$h$x"])) ]}).

Definition mutual_recursion : CompileOutput :=
  mkCompileOutput "m.main"
    (<[ "m.main" :=
          Plain (mkCompiledFunction "m.main" (mkParameterList [] None)
                   (CallNode "m.g" [] [])) ]>
       {[ "m.g" :=
            Plain (mkCompiledFunction "m.g" (mkParameterList [] None)
                     (CallNode "m.main" [] [])) ]}).

Definition self_recursion : CompileOutput :=
  mkCompileOutput "m.main"
    {[ "m.main" :=
         Plain (mkCompiledFunction "m.main" (mkParameterList [] None)
                  (CallNode "m.main" [] [])) ]}.

Definition store_own_result_output : CompileOutput :=
  mkCompileOutput "m.main"
    {[ "m.main" := Plain (mkCompiledFunction "m.main" (mkParameterList [] None)
                            store_own_result_node) ]}.

(** [a() < b() < c()], as the only statement of a function [f]. *)
Definition chained_comparison : AST :=
  FunctionDef "f"
    [Expr_ (Compare (Call_ (Name "a") [] []) [Lt; Lt]
              [Call_ (Name "b") [] []; Call_ (Name "c") [] []])].

(** [if cond: return 1] followed by the statement [g()]. *)
Definition return_then_call : AST :=
  FunctionDef "f"
    [If_ (Name "cond") [Return (Some (Constant (Number 1%float)))] [];
     Expr_ (Call_ (Name "g") [] [])].

(** A runtime: comparisons and sums as built-ins, and user functions that
    return a constant each. *)
Definition builtin (name : string) (args : list float) : result float :=
  match args with
  | [a; b] =>
      if String.eqb name "Less"
      then Ok (if PrimFloat.ltb a b then 1%float else 0%float)
      else if String.eqb name "Add" then Ok (PrimFloat.add a b)
      else Err (NotImplementedError name)
  | _ => Err (NotImplementedError name)
  end.

Definition increasing (name : QualifiedName) (args : list float) : float :=
  if String.eqb name "m.a" then 1%float
  else if String.eqb name "m.b" then 2%float
  else 3%float.

Definition decreasing (name : QualifiedName) (args : list float) : float :=
  if String.eqb name "m.a" then 3%float
  else if String.eqb name "m.b" then 2%float
  else 1%float.

(** Run a compiled node from the given registers. *)
Definition run (oracle : QualifiedName -> list float -> float)
    (registers : gmap string float) (node : Node)
  : result (float * list event) :=
  match Semantics.eval oracle builtin 64 node (mkMachine registers [] []) with
  | Ok (v, m) => Ok (v, trace m)
  | Err e => Err e
  end.

(** Two case bodies, and a switch on the literal 1 whose first label is a
    register and whose second label is the literal 1. *)
Definition body_ten : Flow := ExecuteFlow [OfExpr (ValueExpr 10%float)] None.
Definition body_twenty : Flow := ExecuteFlow [OfExpr (ValueExpr 20%float)] None.

Definition mixed_switch : Flow :=
  SwitchFlow "r" (ExprVal (ValueExpr 1%float))
    [(RefExpr "x", body_ten); (ValueExpr 1%float, body_twenty)] None None.

(** [If(Less(a, b), 1, 2)]. *)
Definition if_less : Node :=
  IfNode (FunctionNode "Less" [RefNode "a"; RefNode "b"])
    (ValueNode 1%float) (ValueNode 2%float).

(** Constant folding where no function of [math] is needed. *)
Definition no_math (x : float) : result float :=
  Err (NotImplementedError "math").

(** [Add(1, 2)]. *)
Definition one_plus_two : Expr :=
  FunctionExpr "Add" [ValueExpr 1%float; ValueExpr 2%float].

Definition constant_fold : Expr -> result Expr :=
  ConstantFold.optimize no_math no_math no_math no_math no_math no_math.

End Examples.

(** The exceptions the expansion of a variadic placeholder can raise. *)
Definition starred_error (e : error) : Prop :=
  e = TypeError "StarredNode not resolved"
  \/ e = TypeError "reduce() of empty iterable with no initial value"
  \/ e = IndexError "list index out of range".

(** A step of the linker that leaves the set of names being inlined as it
    found it, whenever it returns. *)
Definition restores {A} (c : stateM (gset string) A) : Prop :=
  forall R : gset string,
    match c R with
    | Ok (_, R') => R' = R
    | Err _ => True
    end.

(** Whether a predicate holds of the last element of a sequence; an empty
    sequence has none and counts as holding. *)
Definition holds_of_last {A} (g : A -> bool) : list A -> bool :=
  fix go l :=
    match l with
    | [] => true
    | x :: l' => match l' with [] => g x | _ => go l' end
    end.

(** A node whose value is that of an empty sequence: following the last
    element of each sequence leads to a sequence without elements. *)
Fixpoint ends_in_empty (node : Node) : bool :=
  match node with
  | ExecuteNode nodes => holds_of_last ends_in_empty nodes
  | _ => false
  end.

(** ** The flow graph read as a sequence *)

(** What a flow executes, in order: statements and expressions, and the
    control structures with what their branches execute.  The division of a
    straight-line sequence into execute blocks is not part of it. *)
Inductive Item : Type :=
| BlockItem (b : Block)
| SwitchItem (result : string) (condition : Val)
    (cases : list (Expr * list Item)) (default : option (list Item))
| LoopItem (condition : Expr) (body : list Item).

Fixpoint items (f : Flow) : list Item :=
  match f with
  | ExecuteFlow nodes next =>
      map BlockItem nodes
        ++ match next with Some n => items n | None => [] end
  | SwitchFlow result condition cases default next =>
      SwitchItem result condition
        (map (fun c => (fst c, items (snd c))) cases)
        (match default with Some d => Some (items d) | None => None end)
      :: match next with Some n => items n | None => [] end
  | LoopFlow condition body next =>
      LoopItem condition (items body)
      :: match next with Some n => items n | None => [] end
  end.

(** The statements and expressions of a flow at every depth, in the order
    of the text. *)
Fixpoint blocks (f : Flow) : list Block :=
  match f with
  | ExecuteFlow nodes next =>
      nodes ++ match next with Some n => blocks n | None => [] end
  | SwitchFlow _ _ cases default next =>
      concat (map (fun c => blocks (snd c)) cases)
        ++ match default with Some d => blocks d | None => [] end
        ++ match next with Some n => blocks n | None => [] end
  | LoopFlow _ body next =>
      blocks body ++ match next with Some n => blocks n | None => [] end
  end.

(** ** Induction on flows *)

Section FlowInduction.

Variable P : Flow -> Prop.
Hypothesis HExecute : forall nodes next,
  (forall n, next = Some n -> P n) -> P (ExecuteFlow nodes next).
Hypothesis HSwitch : forall result condition cases default next,
  Forall (fun c => P (snd c)) cases ->
  (forall d, default = Some d -> P d) ->
  (forall n, next = Some n -> P n) ->
  P (SwitchFlow result condition cases default next).
Hypothesis HLoop : forall condition body next,
  P body -> (forall n, next = Some n -> P n) ->
  P (LoopFlow condition body next).

(** Induction on flows, with the hypothesis for the body of every case. *)
Fixpoint Flow_nested_ind (f : Flow) : P f :=
  let opt :=
    fun (o : option Flow) =>
      match o return forall n, o = Some n -> P n with
      | Some m =>
          fun n (E : Some m = Some n) =>
            match E in _ = s
                  return match s with Some k => P k | None => True end
            with eq_refl => Flow_nested_ind m end
      | None => fun n (E : None = Some n) =>
          match E in _ = s
                return match s with Some k => P k | None => True end
          with eq_refl => I end
      end in
  match f with
  | ExecuteFlow nodes next => HExecute nodes next (opt next)
  | SwitchFlow result condition cases default next =>
      HSwitch result condition cases default next
        ((fix all (l : list (Expr * Flow)) : Forall (fun c => P (snd c)) l :=
            match l with
            | [] => List.Forall_nil _
            | c :: l' =>
                List.Forall_cons (fun c => P (snd c)) c l'
                  (Flow_nested_ind (snd c)) (all l')
            end) cases)
        (opt default) (opt next)
  | LoopFlow condition body next =>
      HLoop condition body next (Flow_nested_ind body) (opt next)
  end.

End FlowInduction.

(** Whether a loop stands on the chain of [next] fields of a flow. *)
Fixpoint loop_on_chain (f : Flow) : bool :=
  match f with
  | LoopFlow _ _ _ => true
  | ExecuteFlow _ (Some n) | SwitchFlow _ _ _ _ (Some n) => loop_on_chain n
  | ExecuteFlow _ None | SwitchFlow _ _ _ _ None => false
  end.

(** ** More optimizer passes ([optimizer/core.py], [optimizer/execute.py],
    [optimizer/elimination.py]) *)

Module Optimizer.

(** [Optimizer.optimize] on the classes for which an optimizer defines no
    [optimize_*] method: expressions and statements are rebuilt by
    [apply]. *)
Fixpoint optimize_Expr (e : Expr) : result Expr :=
  Expr_apply optimize_Expr e.

Definition optimize_Statement (s : Statement) : result Statement :=
  Statement_apply optimize_Expr s.

Definition optimize_Block (b : Block) : result Block :=
  Block_apply optimize_Expr optimize_Statement b.

End Optimizer.

(** [apply] of the three classes of flows, with the callback as it acts on
    expressions (and through them on the condition of a switch), on the
    elements of a block and on flows. *)
Definition Flow_apply (on_expr : Expr -> result Expr)
    (on_block : Block -> result Block) (on_flow : Flow -> result Flow)
    (flow : Flow) : result Flow :=
  match flow with
  | ExecuteFlow nodes next =>
      nodes' ← mapM on_block nodes;
      next' ← and_then on_flow next;
      Ok (ExecuteFlow nodes' next')
  | SwitchFlow r condition cases default next =>
      cases' ← mapM (fun c => on_expr (fst c)) cases;
      condition' ← on_val on_expr condition;
      bodies ←
        (fix bodies (cases : list (Expr * Flow)) (cases' : list Expr)
           : result (list (Expr * Flow)) :=
           match cases, cases' with
           | (_, body) :: rest, case' :: rest' =>
               body' ← on_flow body;
               tail ← bodies rest rest';
               Ok ((case', body') :: tail)
           | _, _ => Ok []
           end) cases cases';
      default' ← and_then on_flow default;
      next' ← and_then on_flow next;
      Ok (SwitchFlow r condition' bodies default' next')
  | LoopFlow condition body next =>
      condition' ← on_expr condition;
      body' ← on_flow body;
      next' ← and_then on_flow next;
      Ok (LoopFlow condition' body' next')
  end.

Module MergeExecute.

(** [optimize_ExecuteFlow] is the one method defined. *)
Fixpoint optimize (flow : Flow) : result Flow :=
  match flow with
  | ExecuteFlow nodes next =>
      match next with
      | Some (ExecuteFlow nodes' next') =>
          next'' ← and_then optimize next';
          Ok (ExecuteFlow (nodes ++ nodes') next'')
      | _ =>
          next' ← and_then optimize next;
          Ok (ExecuteFlow nodes next')
      end
  | _ =>
      Flow_apply Optimizer.optimize_Expr Optimizer.optimize_Block optimize
        flow
  end.

End MergeExecute.

Module RemoveEmptyExecute.

(** The three [optimize_*Flow] methods; no flow goes through [apply].  A
    switch or a loop has its branches optimized only when an empty block
    follows it. *)
Fixpoint optimize (flow : Flow) : result Flow :=
  match flow with
  | ExecuteFlow nodes next =>
      match nodes, next with
      | [], Some next => optimize next
      | _, Some (ExecuteFlow [] next') =>
          next'' ← and_then optimize next';
          Ok (ExecuteFlow nodes next'')
      | _, _ =>
          next' ← and_then optimize next;
          Ok (ExecuteFlow nodes next')
      end
  | SwitchFlow r condition cases default next =>
      match next with
      | Some (ExecuteFlow [] next') =>
          cases' ← mapM (fun c => body ← optimize (snd c);
                                  Ok (fst c, body)) cases;
          default' ← and_then optimize default;
          next'' ← and_then optimize next';
          Ok (SwitchFlow r condition cases' default' next'')
      | _ =>
          next' ← and_then optimize next;
          Ok (SwitchFlow r condition cases default next')
      end
  | LoopFlow condition body next =>
      match next with
      | Some (ExecuteFlow [] next') =>
          body' ← optimize body;
          next'' ← and_then optimize next';
          Ok (LoopFlow condition body' next'')
      | _ =>
          next' ← and_then optimize next;
          Ok (LoopFlow condition body next')
      end
  end.

End RemoveEmptyExecute.

Module UnusedVariableElimination.

(** [detect_refs]: the names of the references met are added to the set
    [refs] of the optimizer, which is threaded through the traversal. *)
Fixpoint detect_refs_Expr (e : Expr) (refs : gset string) : gset string :=
  match e with
  | RefExpr name => {[name]} ∪ refs
  | FunctionExpr _ args => foldl (fun r a => detect_refs_Expr a r) refs args
  | GetExpr _ _ offset => detect_refs_Expr offset refs
  | ValueExpr _ => refs
  end.

Definition detect_refs_Val (v : Val) (refs : gset string)
  : gset string :=
  match v with
  | ExprVal e => detect_refs_Expr e refs
  | SetVal _ _ offset value =>
      detect_refs_Expr value (detect_refs_Expr offset refs)
  end.

Definition detect_refs_Block (b : Block) (refs : gset string)
  : gset string :=
  match b with
  | OfExpr e => detect_refs_Expr e refs
  | OfStatement (AssignStatement _ value _) => detect_refs_Val value refs
  | OfStatement (SetStatement _ _ offset value) =>
      detect_refs_Expr value (detect_refs_Expr offset refs)
  end.

Fixpoint detect_refs (flow : Flow) (refs : gset string) : gset string :=
  let next_of (next : option Flow) (refs : gset string) :=
    match next with
    | Some n => detect_refs n refs
    | None => refs
    end in
  match flow with
  | ExecuteFlow nodes next =>
      next_of next (foldl (fun r b => detect_refs_Block b r) refs nodes)
  | SwitchFlow _ condition cases default next =>
      let refs := foldl (fun r c => detect_refs_Expr (fst c) r) refs cases in
      let refs := detect_refs_Val condition refs in
      let refs := foldl (fun r c => detect_refs (snd c) r) refs cases in
      next_of next (next_of default refs)
  | LoopFlow condition body next =>
      next_of next (detect_refs body (detect_refs_Expr condition refs))
  end.

(** [__init__]: the names referenced somewhere in the flow. *)
Definition init (flow : Flow) : gset string := detect_refs flow ∅.

(** An assignment to a name that is not referenced. *)
Definition unused (refs : gset string) (b : Block) : bool :=
  match b with
  | OfStatement (AssignStatement name _ _) => bool_decide (name ∉ refs)
  | _ => false
  end.

(** [optimize_ExecuteFlow] is the one method defined. *)
Fixpoint optimize (refs : gset string) (flow : Flow) : result Flow :=
  match flow with
  | ExecuteFlow nodes next =>
      let blocks := List.filter (fun b => negb (unused refs b)) nodes in
      next' ← and_then (optimize refs) next;
      Ok (ExecuteFlow blocks next')
  | _ =>
      Flow_apply Optimizer.optimize_Expr Optimizer.optimize_Block
        (optimize refs) flow
  end.

End UnusedVariableElimination.

Module UselessValueElimination.

(** A literal or a reference standing alone. *)
Definition useless (b : Block) : bool :=
  match b with
  | OfExpr (ValueExpr _) | OfExpr (RefExpr _) => true
  | _ => false
  end.

(** The loop of [optimize_ExecuteFlow]; [final] says that the block has no
    continuation, in which case its last element is kept. *)
Fixpoint keep (final : bool) (nodes : list Block) : list Block :=
  match nodes with
  | [] => []
  | block :: rest =>
      if final && match rest with [] => true | _ => false end
      then block :: keep final rest
      else if useless block then keep final rest
      else block :: keep final rest
  end.

Fixpoint optimize (flow : Flow) : result Flow :=
  match flow with
  | ExecuteFlow ((_ :: _) as nodes) next =>
      let blocks :=
        keep (match next with None => true | Some _ => false end) nodes in
      next' ← and_then optimize next;
      Ok (ExecuteFlow blocks next')
  | _ =>
      Flow_apply Optimizer.optimize_Expr Optimizer.optimize_Block optimize
        flow
  end.

End UselessValueElimination.

(** The continuation of a flow. *)
Definition next_of (f : Flow) : option Flow :=
  match f with
  | ExecuteFlow _ next | SwitchFlow _ _ _ _ next | LoopFlow _ _ next => next
  end.

(** ** Induction on expressions *)

Section ExprInduction.

Variable P : Expr -> Prop.
Hypothesis HValue : forall v, P (ValueExpr v).
Hypothesis HFunction : forall name args,
  Forall P args -> P (FunctionExpr name args).
Hypothesis HRef : forall name, P (RefExpr name).
Hypothesis HGet : forall block index offset,
  P offset -> P (GetExpr block index offset).

Fixpoint Expr_nested_ind (e : Expr) : P e :=
  match e with
  | ValueExpr v => HValue v
  | FunctionExpr name args =>
      HFunction name args
        ((fix all (l : list Expr) : Forall P l :=
            match l with
            | [] => List.Forall_nil P
            | x :: l' => List.Forall_cons P x l' (Expr_nested_ind x) (all l')
            end) args)
  | RefExpr name => HRef name
  | GetExpr b i o => HGet b i o (Expr_nested_ind o)
  end.

End ExprInduction.

(** A flow in which a literal or a reference stands alone only as the last
    element of a block without continuation, where it is the value of the
    flow. *)
Fixpoint tidy (f : Flow) : bool :=
  let opt (o : option Flow) :=
    match o with Some n => tidy n | None => true end in
  match f with
  | ExecuteFlow nodes next =>
      forallb (fun b => negb (UselessValueElimination.useless b))
        (match next with None => removelast nodes | Some _ => nodes end)
      && opt next
  | SwitchFlow _ _ cases default next =>
      forallb (fun c => tidy (snd c)) cases && opt default && opt next
  | LoopFlow _ body next => tidy body && opt next
  end.

(** ** Notions used for flow lowering *)

(** A flow in which the operands are lifted: every argument of a built-in
    call and every offset or stored value of a memory access is a
    register, and so is the condition of every loop.  This holds of the
    statement of a [Set] also where it stands as the value of an assignment
    or as the condition of a switch. *)
Definition is_ref (e : Expr) : bool :=
  match e with RefExpr _ => true | _ => false end.

Definition lifted_Expr (e : Expr) : bool :=
  match e with
  | FunctionExpr _ args => forallb is_ref args
  | GetExpr _ _ offset => is_ref offset
  | ValueExpr _ | RefExpr _ => true
  end.

Definition lifted_Val (v : Val) : bool :=
  match v with
  | ExprVal e => lifted_Expr e
  | SetVal _ _ offset value => is_ref offset && is_ref value
  end.

Definition lifted_Block (b : Block) : bool :=
  match b with
  | OfExpr e => lifted_Expr e
  | OfStatement (AssignStatement _ value _) => lifted_Val value
  | OfStatement (SetStatement _ _ offset value) =>
      is_ref offset && is_ref value
  end.

Fixpoint lifted_Flow (f : Flow) : bool :=
  let opt (o : option Flow) :=
    match o with Some n => lifted_Flow n | None => true end in
  match f with
  | ExecuteFlow nodes next => forallb lifted_Block nodes && opt next
  | SwitchFlow _ condition cases default next =>
      lifted_Val condition
      && forallb (fun c => lifted_Expr (fst c) && lifted_Flow (snd c)) cases
      && opt default && opt next
  | LoopFlow condition body next =>
      is_ref condition && lifted_Flow body && opt next
  end.

(** How deep the lowering of a node recurses: the branches of an [If] and
    the body of a [While] are lowered by a transformer of their own, which
    wraps them in a sequence, and the condition of a [While] is first
    wrapped in an assignment. *)
Fixpoint depth (node : Node) : nat :=
  match node with
  | ValueNode _ | RefNode _ | StarredNode _ | CallNode _ _ _ => 1
  | FunctionNode _ args => S (max_list_with depth args)
  | AssignNode _ value => S (depth value)
  | GetNode _ _ offset => S (depth offset)
  | SetNode _ _ offset value => S (depth offset `max` depth value)
  | ExecuteNode nodes => S (max_list_with depth nodes)
  | IfNode c t e => S (S (depth c `max` (depth t `max` depth e)))
  | WhileNode c b => S (S (S (depth c `max` depth b)))
  end.

(** A step of a transformer that keeps the operands lifted: started from a
    flow with lifted operands it ends, and when it returns, the flow built
    so far has lifted operands, the counter of anonymous names has not
    decreased, and the value satisfies [Post]. *)
Definition lowers {A} (c : stateM TState A) (Post : A -> Prop) : Prop :=
  forall s : TState,
    lifted_Flow (flow s) = true ->
    match c s with
    | Ok (a, s') =>
        lifted_Flow (flow s') = true /\ counter s <= counter s' /\ Post a
    | Err e => e <> OutOfFuel
    end.

Definition lifted_result (r : option Val) : Prop :=
  match r with Some v => lifted_Val v = true | None => True end.

(** ** Notions used for the frames of the context *)

Inductive FrameClass : Type :=
| FunctionClass | BlockClass | BinOpClass | UnaryOpClass.

Definition class_of (frame : ContextFrame) : FrameClass :=
  match frame with
  | FunctionContext _ _ _ _ => FunctionClass
  | BlockContext _ _ _ _ _ => BlockClass
  | BinOpContext _ _ => BinOpClass
  | UnaryOpContext _ => UnaryOpClass
  end.

(** The classes of the open frames, innermost first. *)
Definition shape (s : CState) : list FrameClass := map class_of (_frames s).

(** A step of the compiler that, whenever it returns, has replaced the
    innermost frames of the classes [pop] by frames of the classes [push],
    has left the classes of the frames around them as they were, and has
    not decreased the counter of anonymous names. *)
Definition steps {A} (c : stateM CState A) (pop push : list FrameClass)
  : Prop :=
  forall (s : CState) (base : list FrameClass),
    shape s = pop ++ base ->
    match c s with
    | Ok (_, s') =>
        shape s' = push ++ base
        /\ anonymous_variable_counter s <= anonymous_variable_counter s'
    | Err _ => True
    end.

(** ** Induction on syntax trees *)

Section ASTInduction.

Variable P : AST -> Prop.
Hypothesis HFunctionDef : forall name body,
  Forall P body -> P (FunctionDef name body).
Hypothesis HExpr : forall value, P value -> P (Expr_ value).
Hypothesis HPass : P Pass.
Hypothesis HReturn : forall value,
  (forall v, value = Some v -> P v) -> P (Return value).
Hypothesis HIf : forall test body orelse,
  P test -> Forall P body -> Forall P orelse -> P (If_ test body orelse).
Hypothesis HAssign : forall targets value,
  Forall P targets -> P value -> P (Assign_ targets value).
Hypothesis HAugAssign : forall target op value,
  P target -> P op -> P value -> P (AugAssign target op value).
Hypothesis HAnnAssign : forall target value,
  P target -> (forall v, value = Some v -> P v) ->
  P (AnnAssign target value).
Hypothesis HBinOp : forall l op r, P l -> P op -> P r -> P (BinOp l op r).
Hypothesis HUnaryOp : forall op operand,
  P op -> P operand -> P (UnaryOp op operand).
Hypothesis HIfExp : forall test body orelse,
  P test -> P body -> P orelse -> P (IfExp test body orelse).
Hypothesis HCompare : forall l ops comparators,
  P l -> Forall P ops -> Forall P comparators ->
  P (Compare l ops comparators).
Hypothesis HCall : forall func args keywords,
  P func -> Forall P args -> Forall (fun kv => P (snd kv)) keywords ->
  P (Call_ func args keywords).
Hypothesis HConstant : forall value, P (Constant value).
Hypothesis HAttribute : forall value attr,
  P value -> P (Attribute value attr).
Hypothesis HName : forall id, P (Name id).
Hypothesis HAdd : P Add.
Hypothesis HSub : P Sub.
Hypothesis HMult : P Mult.
Hypothesis HDiv : P Div.
Hypothesis HMod : P Mod.
Hypothesis HPow : P Pow.
Hypothesis HUAdd : P UAdd.
Hypothesis HUSub : P USub.
Hypothesis HNot : P Not.
Hypothesis HEq : P Eq.
Hypothesis HNotEq : P NotEq.
Hypothesis HLt : P Lt.
Hypothesis HLtE : P LtE.
Hypothesis HGt : P Gt.
Hypothesis HGtE : P GtE.
Hypothesis HUnsupported : forall class_name, P (Unsupported class_name).

Fixpoint AST_nested_ind (node : AST) : P node :=
  let all :=
    fix all (l : list AST) : Forall P l :=
      match l with
      | [] => List.Forall_nil P
      | x :: l' => List.Forall_cons P x l' (AST_nested_ind x) (all l')
      end in
  let opt :=
    fun (o : option AST) =>
      match o return forall v, o = Some v -> P v with
      | Some m =>
          fun v (E : Some m = Some v) =>
            match E in _ = s
                  return match s with Some k => P k | None => True end
            with eq_refl => AST_nested_ind m end
      | None =>
          fun v (E : None = Some v) =>
            match E in _ = s
                  return match s with Some k => P k | None => True end
            with eq_refl => I end
      end in
  match node with
  | FunctionDef name body => HFunctionDef name body (all body)
  | Expr_ value => HExpr value (AST_nested_ind value)
  | Pass => HPass
  | Return value => HReturn value (opt value)
  | If_ test body orelse =>
      HIf test body orelse (AST_nested_ind test) (all body) (all orelse)
  | Assign_ targets value =>
      HAssign targets value (all targets) (AST_nested_ind value)
  | AugAssign target op value =>
      HAugAssign target op value (AST_nested_ind target)
        (AST_nested_ind op) (AST_nested_ind value)
  | AnnAssign target value =>
      HAnnAssign target value (AST_nested_ind target) (opt value)
  | BinOp l op r =>
      HBinOp l op r (AST_nested_ind l) (AST_nested_ind op) (AST_nested_ind r)
  | UnaryOp op operand =>
      HUnaryOp op operand (AST_nested_ind op) (AST_nested_ind operand)
  | IfExp test body orelse =>
      HIfExp test body orelse (AST_nested_ind test) (AST_nested_ind body)
        (AST_nested_ind orelse)
  | Compare l ops comparators =>
      HCompare l ops comparators (AST_nested_ind l) (all ops)
        (all comparators)
  | Call_ func args keywords =>
      HCall func args keywords (AST_nested_ind func) (all args)
        ((fix all_items (l : list (option string * AST))
            : Forall (fun kv => P (snd kv)) l :=
            match l with
            | [] => List.Forall_nil _
            | kv :: l' =>
                List.Forall_cons (fun kv => P (snd kv)) kv l'
                  (AST_nested_ind (snd kv)) (all_items l')
            end) keywords)
  | Constant value => HConstant value
  | Attribute value attr => HAttribute value attr (AST_nested_ind value)
  | Name id => HName id
  | Add => HAdd
  | Sub => HSub
  | Mult => HMult
  | Div => HDiv
  | Mod => HMod
  | Pow => HPow
  | UAdd => HUAdd
  | USub => HUSub
  | Not => HNot
  | Eq => HEq
  | NotEq => HNotEq
  | Lt => HLt
  | LtE => HLtE
  | Gt => HGt
  | GtE => HGtE
  | Unsupported c => HUnsupported c
  end.

End ASTInduction.

(** ** Helpers on iterables ([utils.py]) *)

Module utils.

(** [intersection] and [union]: [functools.reduce] of [&] and [|] without
    an initial value. *)
Definition intersection `{Countable K} (sets : list (gset K))
  : result (gset K) :=
  CompiledFunction.reduce (fun a b => a ∩ b) sets.

Definition union `{Countable K} (sets : list (gset K)) : result (gset K) :=
  CompiledFunction.reduce (fun a b => a ∪ b) sets.

End utils.

(** ** The parameters of a function definition ([compiler/core.py]) *)

(** [ast.arguments], with the names of the [ast.arg] nodes. *)
Record arguments : Type := mkArguments {
  a_posonlyargs : list string;
  a_args : list string;
  a_vararg : option string;
  a_kwonlyargs : list string;
  a_kw_defaults : list (option AST);
  a_kwarg : option string;
  a_defaults : list AST;
}.

Module Parameters.
Section Collaborators.

Variable as_qualified : string -> AST -> result QualifiedName.
Variable _resolve_pointer : AST -> result (option Pointer).

(** The loop over the parameters with a default, which is compiled. *)
Definition with_defaults (names : list string) (defaults : list AST)
  : stateM CState (list Param) :=
  mapM (fun nd =>
          d ← Compiler.compile as_qualified _resolve_pointer (snd nd);
          mret (mkParam (fst nd) (Some d)))
       (zip names defaults).

(** The loop over the keyword-only parameters, whose default is optional. *)
Definition keyword_only (names : list string) (defaults : list (option AST))
  : stateM CState (list Param) :=
  mapM (fun nd =>
          match snd nd with
          | Some default =>
              d ← Compiler.compile as_qualified _resolve_pointer default;
              mret (mkParam (fst nd) (Some d))
          | None => mret (mkParam (fst nd) None)
          end)
       (zip names defaults).

(** [Compiler.analyze_parameters]. *)
Definition analyze_parameters (a : arguments) : stateM CState ParameterList :=
  match a_kwarg a with
  | Some _ => mthrow (NotImplementedError "*kwargs not supported")
  | None =>
      let params := map (fun name => mkParam name None) (a_posonlyargs a) in
      let n := length (a_defaults a) in
      params2 ←
        (if Nat.eqb n 0 then
           mret (map (fun name => mkParam name None) (a_args a))
         else
           let required := take (length (a_args a) - n) (a_args a) in
           let optional := drop (length (a_args a) - n) (a_args a) in
           ps ← with_defaults optional (a_defaults a);
           mret (map (fun name => mkParam name None) required ++ ps));
      if negb (Nat.eqb (length (a_kwonlyargs a)) (length (a_kw_defaults a)))
      then mthrow (RuntimeError "")
      else
        params3 ← keyword_only (a_kwonlyargs a) (a_kw_defaults a);
        mret (mkParameterList (params ++ params2 ++ params3)
                (a_vararg a))
  end.

End Collaborators.
End Parameters.

(** An assignment as [AssignStatement.apply] rebuilds it. *)
Definition made_mutable (b : Block) : Block :=
  match b with
  | OfStatement (AssignStatement name value _) =>
      OfStatement (AssignStatement name value true)
  | _ => b
  end.

(** ** Further concrete programs *)

Module Programs.

(** Two required parameters [x] and [y]. *)
Definition two_required : CompiledFunction :=
  mkCompiledFunction "m.g"
    (mkParameterList [mkParam "x" None; mkParam "y" None] None)
    (FunctionNode "Add" [RefNode "m$g$x"; RefNode "m$g$y"]).

(** The parameters of [def f(a, *, b)] and the compiled function. *)
Definition keyword_only_arguments : arguments :=
  mkArguments [] ["a"] None ["b"] [None] None [].

Definition keyword_only_function : CompiledFunction :=
  mkCompiledFunction "m.f"
    (mkParameterList [mkParam "a" None; mkParam "b" None] None)
    (FunctionNode "Add" [RefNode "m$f$a"; RefNode "m$f$b"]).

(** [x := 1; Draw(x)]. *)
Definition assigned_then_read : Flow :=
  ExecuteFlow
    [OfStatement (AssignStatement "x" (ExprVal (ValueExpr 1%float)) true);
     OfExpr (FunctionExpr "Draw" [RefExpr "x"])] None.

End Programs.

(** * Properties of the tree IR constructors *)

Section IRConstructors.

Lemma If_then_never_empty (c t e : Node) :
  exists t' e', F.If c t e = IfNode c t' e' /\ F.empty_node t' = false.
Proof.
  unfold F.If.
  destruct (F.empty_node t) eqn:Ht.
  - by exists F.true, e.
  - destruct (F.empty_node e); eauto.
Qed.

Lemma If_operands_not_empty (c t e : Node) :
  F.empty_node t && F.empty_node e = false ->
  exists t' e', F.If c t e = IfNode c t' e'
                /\ F.empty_node t' = false /\ F.empty_node e' = false.
Proof.
  unfold F.If. intros H.
  destruct (F.empty_node t) eqn:Ht; simpl in H.
  - exists F.true, e. by rewrite H.
  - destruct (F.empty_node e) eqn:He.
    + by exists t, F.false.
    + by exists t, e.
Qed.

Lemma create_function_node_rejects_empty (name : string)
    (pre post : list Node) :
  exists msg,
    F.create_function_node name (pre ++ F.empty :: post)
    = Err (ValueError msg).
Proof.
  unfold F.create_function_node.
  rewrite existsb_app. simpl. rewrite orb_true_r. eauto.
Qed.

Lemma create_function_node_no_empty (name : string) (nodes : list Node)
    (node : Node) :
  F.create_function_node name nodes = Ok node ->
  node = FunctionNode name nodes
  /\ Forall (fun n => F.empty_node n = false) nodes.
Proof.
  unfold F.create_function_node.
  destruct (existsb F.empty_node nodes) eqn:E; [done|].
  intros [= <-]. split; [done|].
  apply Forall_forall. intros n Hn.
  destruct (F.empty_node n) eqn:En; [|done].
  assert (existsb F.empty_node nodes = true) as Hc
    by (apply existsb_exists; exists n; split; [by apply list_elem_of_In|done]).
  congruence.
Qed.

(** C5: the specification requires that [F.If] never returns a node with an
    empty [Execute] as its then or else operand, also when both branches
    are empty.  The code coerces an empty else branch only in the [elif] of
    the test for an empty then branch: with both branches empty, the node
    returned keeps the empty [Execute] as its else operand. *)
Theorem C5_If_both_empty_keeps_empty_orelse (c : Node) :
  exists t' e',
    F.If c (ExecuteNode []) (ExecuteNode []) = IfNode c t' e'
    /\ F.empty_node t' = false
    /\ F.empty_node e' = true.
Proof. by exists F.true, (ExecuteNode []). Qed.

End IRConstructors.

(** * Properties of the calling convention *)

Section Variadic.

Lemma reduce_snoc {A} (g : A -> A -> A) (xs : list A) (y : A) :
  xs <> [] ->
  CompiledFunction.reduce g (xs ++ [y])
  = (v ← CompiledFunction.reduce g xs; Ok (g v y)).
Proof.
  destruct xs as [|x xs]; [done|]. intros _. simpl.
  by rewrite foldl_app.
Qed.

Lemma reduce_rev_right_fold (unit : Node -> Node -> Node) (rs : list Node) :
  forall r,
    CompiledFunction.reduce (fun a b => unit b a) (rev (r :: rs))
    = Ok (right_fold unit r rs).
Proof.
  induction rs as [|r' rs IH]; intros r; [done|].
  change (rev (r :: r' :: rs)) with (rev (r' :: rs) ++ [r]).
  rewrite reduce_snoc.
  - by rewrite IH.
  - simpl. by destruct (rev rs).
Qed.

Lemma _resolve_nested_right_fold (self : CompiledFunction) (n : nat)
    (unit : Node -> Node -> Node) :
  CompiledFunction._resolve_nested self (S n) unit
  = Ok (right_fold unit (CompiledFunction.va_ref self 0)
          (map (CompiledFunction.va_ref self) (seq 1 n))).
Proof.
  unfold CompiledFunction._resolve_nested.
  rewrite map_rev.
  change (seq 0 (S n)) with (0 :: seq 1 n).
  apply (reduce_rev_right_fold unit).
Qed.

(** Resolving a built-in call whose last argument is the nested
    placeholder, for at least one surplus argument: the right fold over the
    registers, alone or after the first argument of the call. *)
Lemma _resolve_starred_nested_FunctionNode (self : CompiledFunction)
    (op : string) (pre : list Node) (n : nat) :
  CompiledFunction._resolve_starred self
    (FunctionNode op (pre ++ [StarredNode true])) (S n)
  = Ok (let nested :=
          right_fold (fun a b => FunctionNode op [a; b])
            (CompiledFunction.va_ref self 0)
            (map (CompiledFunction.va_ref self) (seq 1 n)) in
        match pre with
        | [] => nested
        | arg0 :: _ => FunctionNode op [arg0; nested]
        end).
Proof.
  simpl. rewrite last_snoc.
  rewrite _resolve_nested_right_fold. simpl.
  destruct pre as [|a0 [|a1 pre]]; done.
Qed.

(** The same for a call of a user function. *)
Lemma _resolve_starred_nested_CallNode (self : CompiledFunction)
    (name : string) (pre : list Node) (kwargs : list (string * Node))
    (n : nat) :
  CompiledFunction._resolve_starred self
    (CallNode name (pre ++ [StarredNode true]) kwargs) (S n)
  = Ok (let nested :=
          right_fold (fun a b => CallNode name [a; b] kwargs)
            (CompiledFunction.va_ref self 0)
            (map (CompiledFunction.va_ref self) (seq 1 n)) in
        match pre with
        | [] => nested
        | arg0 :: _ => CallNode name [arg0; nested] kwargs
        end).
Proof.
  simpl. rewrite last_snoc.
  rewrite _resolve_nested_right_fold. simpl.
  destruct pre as [|a0 [|a1 pre]]; done.
Qed.

(** The example of the specification through [call]: three arguments for
    a function with only a variadic tail, whose body is [Add] applied to
    the nested placeholder. *)
Lemma call_nested_sum :
  CompiledFunction.call Examples.nested_sum
    [RefNode "a"; RefNode "b"; RefNode "c"] []
  = Ok (ExecuteNode
          [AssignNode "m$f$args$1" (RefNode "a");
           AssignNode "m$f$args$2" (RefNode "b");
           AssignNode "m$f$args$3" (RefNode "c");
           FunctionNode "Add"
             [RefNode "m$f$args$1";
              FunctionNode "Add"
                [RefNode "m$f$args$2"; RefNode "m$f$args$3"]]]).
Proof. reflexivity. Qed.

End Variadic.

Section Overloads.

Lemma try_overloads_dispatch (args : list Node) (kwargs : list (string * Node))
    (pre : list CompiledFunction) :
  forall (r : CompiledFunction) (post : list CompiledFunction) (err : error),
    Forall (fun f => rejects f args kwargs) pre ->
    post = [] \/ ~ rejects r args kwargs ->
    CompiledOverloadedFunction.try_overloads (pre ++ r :: post) args kwargs err
    = CompiledFunction.call r args kwargs.
Proof.
  induction pre as [|p pre IH]; intros r post err Hpre Hr; simpl.
  - destruct (CompiledFunction.call r args kwargs) as [node|e] eqn:Hc; [done|].
    destruct (is_TypeError e) eqn:He; [|done].
    destruct Hr as [->|Hr]; [done|].
    exfalso. apply Hr. by exists e.
  - inversion Hpre as [|? ? [e [Hc He]] Hpre']; subst.
    rewrite Hc, He. by apply IH.
Qed.

(** C8 (amended): the registrations are tried in registration order, the
    base one first.  The call returns what the first registration that does
    not reject the arguments returns; when every registration rejects them,
    the error raised is the one of the registration tried last, since each
    failing overload replaces the error kept so far. *)
Theorem C8_overloads_first_accepting_or_last_error
    (self : CompiledOverloadedFunction) (args : list Node)
    (kwargs : list (string * Node)) (pre : list CompiledFunction)
    (r : CompiledFunction) (post : list CompiledFunction) :
  registrations self = pre ++ r :: post ->
  Forall (fun f => rejects f args kwargs) pre ->
  post = [] \/ ~ rejects r args kwargs ->
  CompiledOverloadedFunction.call self args kwargs
  = CompiledFunction.call r args kwargs.
Proof.
  unfold registrations, CompiledOverloadedFunction.call.
  intros Hreg Hpre Hr.
  destruct pre as [|p pre]; simpl in Hreg; injection Hreg as Hb Ho.
  - subst r. rewrite Ho.
    destruct (CompiledFunction.call (base self) args kwargs) as [node|e]
      eqn:Hc; [done|].
    destruct (is_TypeError e) eqn:He; [|done].
    destruct Hr as [->|Hr]; [done|].
    exfalso. apply Hr. by exists e.
  - subst p. inversion Hpre as [|? ? [e [Hc He]] Hpre']; subst.
    rewrite Hc, He, Ho. by apply try_overloads_dispatch.
Qed.

Lemma C8_overloads_first_accepting_or_last_error_witness :
  CompiledOverloadedFunction.call Examples.overloaded [ValueNode 1%float] []
  = Err (TypeError "Function m.g missing parameter y").
Proof.
  rewrite (C8_overloads_first_accepting_or_last_error Examples.overloaded
             [ValueNode 1%float] [] [base Examples.overloaded]
             (mkCompiledFunction "m.g"
                (mkParameterList [mkParam "x" None; mkParam "y" None] None)
                (FunctionNode "Add" [RefNode "m$g$x"; RefNode "m$g$y"]))
             []).
  - reflexivity.
  - reflexivity.
  - constructor; [|constructor].
    exists (TypeError "Too many arguments for m.g"). split; reflexivity.
  - left. reflexivity.
Defined.

(** C8 as specified fails: every registration of [m.g] rejects one
    argument, and the error raised is not the one of the base
    registration. *)
Lemma C8_counterexample :
  Forall (fun f => rejects f [ValueNode 1%float] [])
    (registrations Examples.overloaded)
  /\ exists e0 e,
       CompiledFunction.call (base Examples.overloaded) [ValueNode 1%float] []
       = Err e0
       /\ CompiledOverloadedFunction.call Examples.overloaded
            [ValueNode 1%float] [] = Err e
       /\ e <> e0.
Proof.
  split.
  - repeat constructor.
    + exists (TypeError "Too many arguments for m.g"). split; reflexivity.
    + exists (TypeError "Function m.g missing parameter y").
      split; reflexivity.
  - exists (TypeError "Too many arguments for m.g"),
           (TypeError "Function m.g missing parameter y").
    split; [reflexivity|]. split; [reflexivity|]. discriminate.
Qed.

End Overloads.

Section Keywords.

Context {V : Type}.
Implicit Types (d : list (string * V)) (k : string) (v : V).

Lemma dict_set_set d k v v' :
  dict_set (dict_set d k v) k v' = dict_set d k v'.
Proof.
  induction d as [|[k0 v0] d IH]; simpl.
  - by rewrite String.eqb_refl.
  - destruct (String.eqb k0 k) eqn:E; simpl; rewrite E; [done|].
    by rewrite IH.
Qed.

Lemma dict_set_comm d k k' v v' :
  dict_mem d k = true -> k <> k' ->
  dict_set (dict_set d k v) k' v' = dict_set (dict_set d k' v') k v.
Proof.
  unfold dict_mem.
  induction d as [|[k0 v0] d IH]; simpl; [done|].
  intros Hm Hne.
  destruct (String.eqb_spec k0 k) as [->|Hk]; simpl.
  - destruct (String.eqb_spec k k') as [?|_]; [done|]. simpl.
    by rewrite String.eqb_refl.
  - destruct (String.eqb_spec k0 k') as [->|Hk']; simpl.
    + by destruct (String.eqb_spec k' k).
    + destruct (String.eqb_spec k0 k); [done|].
      by rewrite IH.
Qed.

Lemma dict_get_set_eq d k v : dict_get (dict_set d k v) k = Some v.
Proof.
  induction d as [|[k0 v0] d IH]; simpl.
  - by rewrite String.eqb_refl.
  - destruct (String.eqb k0 k) eqn:E; simpl; by rewrite E.
Qed.

Lemma dict_get_set_ne d k k' v :
  k <> k' -> dict_get (dict_set d k v) k' = dict_get d k'.
Proof.
  intros Hne.
  induction d as [|[k0 v0] d IH]; simpl.
  - by destruct (String.eqb_spec k k').
  - destruct (String.eqb_spec k0 k) as [->|Hk]; simpl.
    + by destruct (String.eqb_spec k k').
    + by rewrite IH.
Qed.

Lemma dict_mem_set_same d k v : dict_mem (dict_set d k v) k = true.
Proof. unfold dict_mem. by rewrite dict_get_set_eq. Qed.

Lemma dict_mem_set_other d k k' v :
  dict_mem d k' = true -> dict_mem (dict_set d k v) k' = true.
Proof.
  unfold dict_mem. destruct (String.eqb_spec k k') as [->|Hne].
  - by rewrite dict_get_set_eq.
  - by rewrite dict_get_set_ne.
Qed.

End Keywords.

Section PositionalAndKeyword.

Import CompiledFunction.

Lemma has_dollar_va_name (va s : string) :
  has_dollar (va +:+ "$" +:+ s) = true.
Proof.
  induction va as [|c va IH]; simpl; [done|]. by rewrite IH, orb_true_r.
Qed.

Lemma bind_positional_cons (p : Param) (ps : list Param) (a : Node)
    (args : list Node) (d : list (string * Node)) :
  bind_positional (p :: ps) (a :: args) d
  = bind_positional ps args (dict_set d (p_name p) a).
Proof. done. Qed.

Lemma bind_positional_discards (ps : list Param) :
  forall (args : list Node) (d : list (string * Node)) (i : nat) (p : Param)
         (a v' : Node),
    ps !! i = Some p -> args !! i = Some a ->
    dict_mem d (p_name p) = true ->
    bind_positional ps args (dict_set d (p_name p) v')
    = bind_positional ps args d.
Proof.
  induction ps as [|p0 ps IH]; intros args d i p a v' Hp Ha Hm; [done|].
  destruct args as [|a0 args]; [by destruct i|].
  rewrite !bind_positional_cons.
  destruct i as [|i]; simpl in Hp, Ha.
  - injection Hp as ->. by rewrite dict_set_set.
  - destruct (decide (p_name p = p_name p0)) as [Heq|Hne].
    + by rewrite Heq, dict_set_set.
    + rewrite dict_set_comm by done.
      eapply IH; eauto. by apply dict_mem_set_other.
Qed.

Lemma bind_positional_get_other (ps : list Param) :
  forall (args : list Node) (d : list (string * Node)) (k : string),
    k ∉ map p_name ps ->
    dict_get (bind_positional ps args d) k = dict_get d k.
Proof.
  induction ps as [|p0 ps IH]; intros args d k Hk; [done|].
  destruct args as [|a0 args]; [done|].
  rewrite bind_positional_cons. simpl in Hk.
  rewrite IH by set_solver.
  apply dict_get_set_ne. set_solver.
Qed.

Lemma bind_positional_get (ps : list Param) :
  forall (args : list Node) (d : list (string * Node)) (i : nat) (p : Param)
         (a : Node),
    NoDup (map p_name ps) ->
    ps !! i = Some p -> args !! i = Some a ->
    dict_get (bind_positional ps args d) (p_name p) = Some a.
Proof.
  induction ps as [|p0 ps IH]; intros args d i p a Hnd Hp Ha; [done|].
  destruct args as [|a0 args]; [by destruct i|].
  rewrite bind_positional_cons.
  simpl in Hnd. apply NoDup_cons in Hnd as [Hnotin Hnd].
  destruct i as [|i]; simpl in Hp, Ha.
  - injection Hp as ->. injection Ha as ->.
    rewrite bind_positional_get_other by done.
    apply dict_get_set_eq.
  - eapply IH; eauto.
Qed.

Lemma bind_variadic_get_other (va : string) (extra : list Node) :
  forall (i : nat) (d : list (string * Node)) (k : string),
    has_dollar k = false ->
    dict_get (bind_variadic va i extra d) k = dict_get d k.
Proof.
  induction extra as [|a extra IH]; intros i d k Hk; [done|]. simpl.
  rewrite IH by done.
  apply dict_get_set_ne. intros <-.
  by rewrite has_dollar_va_name in Hk.
Qed.

Lemma bind_defaults_get (fname : string) (ps : list Param) :
  forall (d d' : list (string * Node)) (k : string) (a : Node),
    bind_defaults fname ps d = Ok d' ->
    dict_get d k = Some a -> dict_get d' k = Some a.
Proof.
  induction ps as [|p ps IH]; intros d d' k a; simpl.
  - by intros [= <-].
  - destruct (dict_mem d (p_name p)) eqn:Hm; [by apply IH|].
    destruct (p_default p) as [dflt|]; [|done].
    intros Hb Hk. eapply IH; [exact Hb|].
    rewrite dict_get_set_ne; [done|].
    intros Heq. unfold dict_mem in Hm. by rewrite Heq, Hk in Hm.
Qed.

(** When a declared parameter receives both a positional and a keyword
    argument, the outcome of the call is the one it has for any other value
    of the keyword argument, and the name of the parameter is bound to the
    positional value. *)
Lemma keyword_for_bound_parameter_is_discarded (self : CompiledFunction)
    (args : list Node) (kwargs : list (string * Node)) (i : nat) (p : Param)
    (a : Node) :
  NoDup (map p_name (params (fn_params self))) ->
  has_dollar (p_name p) = false ->
  params (fn_params self) !! i = Some p ->
  args !! i = Some a ->
  dict_mem kwargs (p_name p) = true ->
  (forall v', call self args (dict_set kwargs (p_name p) v')
              = call self args kwargs)
  /\ (forall d, bind_arguments self args kwargs = Ok d ->
                dict_get d (p_name p) = Some a).
Proof.
  intros Hnd Hdollar Hp Ha Hm. split.
  - intros v'. unfold call, bind_arguments.
    by rewrite (bind_positional_discards _ _ _ i p a v').
  - intros d. unfold bind_arguments.
    pose proof (bind_positional_get _ args kwargs i p a Hnd Hp Ha) as Hget.
    destruct (Nat.ltb _ _).
    + destruct (truthy_name _) as [va|]; [|done]. simpl.
      intros Hd. eapply bind_defaults_get; [exact Hd|].
      by rewrite bind_variadic_get_other.
    + simpl. intros Hd. by eapply bind_defaults_get.
Qed.

(** Such a call, evaluated: no error, and the one assignment emitted for
    [x] stores the positional value. *)
Lemma call_positional_and_keyword :
  call Examples.unary_function [RefNode "pos"] [("x", RefNode "kw")]
  = Ok (ExecuteNode [AssignNode "m$h$x" (RefNode "pos");
                     FunctionNode "Abs" [RefNode "m$h$x"]]).
Proof. reflexivity. Qed.

End PositionalAndKeyword.

(** * Properties of the linker *)


Section Ends.

Lemma ends_bind {A B} (c : result A) (k : A -> result B) :
  ends c -> (forall a, c = Ok a -> ends (k a)) -> ends (c ≫= k).
Proof.
  unfold ends. intros Hc Hk. destruct c as [a|e]; simpl; [by apply Hk|].
  intros [= ->]. by apply Hc.
Qed.

Lemma ends_Ok {A} (a : A) : ends (Ok a).
Proof. done. Qed.

Lemma ends_mapM {A B} (f : A -> result B) (l : list A) :
  Forall (fun x => ends (f x)) l -> ends (mapM f l).
Proof.
  induction 1 as [|x l Hx Hl IH]; simpl; [done|].
  apply ends_bind; [done|]. intros y _.
  apply ends_bind; [done|]. done.
Qed.

Lemma ends_mapM_items {K A B} (f : A -> result B) (l : list (K * A)) :
  Forall (fun kv => ends (f (snd kv))) l -> ends (mapM_items f l).
Proof.
  induction 1 as [|[k x] l Hx Hl IH]; simpl; [done|].
  apply ends_bind; [done|]. intros y _.
  apply ends_bind; [done|]. done.
Qed.

Lemma on_last_ends {A} (f : A -> result A) (l : list A) :
  Forall (fun x => ends (f x)) l -> ends (F.on_last f l).
Proof.
  induction 1 as [|x l Hx Hl IH]; [done|].
  destruct l as [|y l].
  - by apply ends_bind.
  - change (F.on_last f (x :: y :: l))
      with (F.on_last f (y :: l) ≫= fun r => Ok (x :: r)).
    by apply ends_bind.
Qed.

Lemma F_Assign_ends (name : string) (value : Node) :
  ends (F.Assign name value).
Proof.
  induction value using Node_nested_ind; try done.
  simpl. apply ends_bind; [|done]. by apply on_last_ends.
Qed.

Lemma _resolve_nested_ends (self : CompiledFunction) (n : nat)
    (unit : Node -> Node -> Node) :
  ends (CompiledFunction._resolve_nested self n unit).
Proof.
  unfold CompiledFunction._resolve_nested, CompiledFunction.reduce.
  by destruct (map _ _).
Qed.

Lemma _resolve_starred_ends (self : CompiledFunction) (n : nat)
    (node : Node) :
  ends (CompiledFunction._resolve_starred self node n).
Proof.
  induction node using Node_nested_ind; simpl; try done.
  - destruct (last args) as [[]|]; try done;
      try (apply ends_bind; [by apply ends_mapM|done]).
    destruct nested; [|done].
    apply ends_bind; [apply _resolve_nested_ends|].
    intros ? _. by destruct args as [|? [|? ?]].
  - apply ends_bind; [done|]. intros ? _. apply F_Assign_ends.
  - apply ends_bind; [by apply ends_mapM|done].
  - destruct (last args) as [[]|]; try done;
      try (apply ends_bind; [by apply ends_mapM|done]).
    destruct nested; [|done].
    apply ends_bind; [apply _resolve_nested_ends|].
    intros ? _. by destruct args as [|? [|? ?]].
  - repeat (apply ends_bind; [done|]; intros ? _). done.
  - repeat (apply ends_bind; [done|]; intros ? _). done.
Qed.

Lemma bind_defaults_ends (fname : string) (ps : list Param) :
  forall d, ends (CompiledFunction.bind_defaults fname ps d).
Proof.
  induction ps as [|p ps IH]; intros d; simpl; [done|].
  destruct (dict_mem d (p_name p)); [done|].
  by destruct (p_default p).
Qed.

Lemma call_ends (self : CompiledFunction) (args : list Node)
    (kwargs : list (string * Node)) :
  ends (CompiledFunction.call self args kwargs).
Proof.
  unfold CompiledFunction.call.
  apply ends_bind.
  { unfold CompiledFunction.bind_arguments.
    apply ends_bind; [|intros; apply bind_defaults_ends].
    destruct (Nat.ltb _ _); [|done].
    by destruct (CompiledFunction.truthy_name _). }
  intros d _. apply ends_bind.
  { destruct (Nat.ltb _ _); [apply _resolve_starred_ends|done]. }
  intros node _. apply ends_bind; [|done].
  apply ends_mapM, Forall_forall. intros ? _. apply F_Assign_ends.
Qed.

Lemma try_overloads_ends (args : list Node) (kwargs : list (string * Node))
    (overloads : list CompiledFunction) :
  forall err, err <> OutOfFuel ->
    ends (CompiledOverloadedFunction.try_overloads overloads args kwargs err).
Proof.
  induction overloads as [|o overloads IH]; intros err Herr; simpl.
  - unfold ends. congruence.
  - pose proof (call_ends o args kwargs) as Ho.
    destruct (CompiledFunction.call o args kwargs) as [node|e]; [done|].
    destruct (is_TypeError e) eqn:He; [|done].
    apply IH. by destruct e.
Qed.

Lemma Function_call_ends (f : Function) (args : list Node)
    (kwargs : list (string * Node)) :
  ends (Function_call f args kwargs).
Proof.
  destruct f as [f|f]; simpl; [apply call_ends|].
  unfold CompiledOverloadedFunction.call.
  pose proof (call_ends (base f) args kwargs) as Hb.
  destruct (CompiledFunction.call (base f) args kwargs) as [node|e]; [done|].
  destruct (is_TypeError e) eqn:He; [|done].
  apply try_overloads_ends. by destruct e.
Qed.

End Ends.

Section VisibleCalls.

Lemma visible_calls_Execute_loop (nodes : list Node) :
  forall acc,
    sum_list_with visible_calls (F.Execute_loop nodes acc)
    = sum_list_with visible_calls acc + sum_list_with visible_calls nodes.
Proof.
  induction nodes as [|n nodes IH]; intros acc; simpl; [lia|].
  destruct (F.empty_node n) eqn:He.
  - destruct n as [| | | | | |[|]| | | |]; try discriminate He.
    rewrite IH. simpl. lia.
  - destruct n; rewrite IH, sum_list_with_app; simpl; lia.
Qed.

Lemma visible_calls_Execute (nodes : list Node) :
  visible_calls (F.Execute nodes) = sum_list_with visible_calls nodes.
Proof.
  unfold F.Execute.
  destruct nodes as [|n [|n' nodes]]; [done|simpl; lia|].
  change (sum_list_with visible_calls (F.Execute_loop (n :: n' :: nodes) [])
          = sum_list_with visible_calls (n :: n' :: nodes)).
  by rewrite visible_calls_Execute_loop.
Qed.

Lemma on_last_sum {A} (f : A -> result A) (g : A -> nat) (l : list A) :
  Forall (fun x => forall a, f x = Ok a -> g a = g x) l ->
  forall ns, F.on_last f l = Ok ns -> sum_list_with g ns = sum_list_with g l.
Proof.
  induction 1 as [|x l Hx Hl IH]; intros ns; [done|].
  destruct l as [|y l].
  - simpl. destruct (f x) as [a|] eqn:Hf; [|done]. simpl.
    intros [= <-]. simpl. by rewrite (Hx a).
  - change (F.on_last f (x :: y :: l))
      with (F.on_last f (y :: l) ≫= fun r => Ok (x :: r)).
    destruct (F.on_last f (y :: l)) as [r|]; [|done].
    intros [= <-].
    change (g x + sum_list_with g r = g x + sum_list_with g (y :: l)).
    f_equal. by apply IH.
Qed.

Lemma visible_calls_Assign (name : string) (value : Node) :
  forall a, F.Assign name value = Ok a -> visible_calls a = visible_calls value.
Proof.
  induction value using Node_nested_ind; intros a; simpl;
    try (intros [= <-]; reflexivity).
  destruct (F.on_last _ nodes) as [ns|e] eqn:Hns; simpl; [|done].
  intros [= <-]. rewrite visible_calls_Execute.
  by eapply on_last_sum.
Qed.

Lemma visible_calls_If (c t e : Node) :
  visible_calls (F.If c t e)
  = visible_calls c + visible_calls t + visible_calls e.
Proof.
  unfold F.If.
  destruct (F.empty_node t) eqn:Ht.
  - by destruct t as [| | | | | |[|]| | | |].
  - destruct (F.empty_node e) eqn:He; [|done].
    by destruct e as [| | | | | |[|]| | | |].
Qed.

End VisibleCalls.

Section LinkSteps.

Lemma stateM_bind_run {S A B} (c : stateM S A) (k : A -> stateM S B) (s : S) :
  (c ≫= k) s = match c s with Ok (a, s') => k a s' | Err e => Err e end.
Proof. reflexivity. Qed.

Lemma link_step_bind {A B} (c : stateM (gset string) A)
    (k : A -> stateM (gset string) B) (R R1 R2 : gset string)
    (Q1 : A -> Prop) (Q2 : B -> Prop) :
  link_step c R R1 Q1 ->
  (forall a, Q1 a -> link_step (k a) R1 R2 Q2) ->
  link_step (c ≫= k) R R2 Q2.
Proof.
  unfold link_step. rewrite stateM_bind_run.
  destruct (c R) as [[a R']|e]; [|done].
  intros [-> Ha] Hk. by apply Hk.
Qed.

Lemma link_step_ret {A} (a : A) (R : gset string) (Q : A -> Prop) :
  Q a -> link_step (mret a) R R Q.
Proof. done. Qed.

Lemma link_step_lift {A} (r : result A) (R : gset string) (Q : A -> Prop) :
  ends r -> (forall a, r = Ok a -> Q a) -> link_step (lift_result r) R R Q.
Proof.
  unfold link_step, lift_result, ends. destruct r as [a|e]; [by auto|].
  intros He _ ->. done.
Qed.

Lemma link_step_mapM {A B} (f : A -> stateM (gset string) B) (l : list A)
    (R : gset string) (Q : B -> Prop) :
  Forall (fun x => link_step (f x) R R Q) l ->
  link_step (mapM f l) R R (Forall Q).
Proof.
  induction 1 as [|x l Hx Hl IH]; simpl; [by apply link_step_ret|].
  eapply link_step_bind; [exact Hx|]. intros y Hy.
  eapply link_step_bind; [exact IH|]. intros ys Hys.
  apply link_step_ret. by constructor.
Qed.

Lemma link_step_mapM_items {K A B} (f : A -> stateM (gset string) B)
    (l : list (K * A)) (R : gset string) (Q : B -> Prop) :
  Forall (fun kv => link_step (f (snd kv)) R R Q) l ->
  link_step (mapM_items f l) R R (Forall (fun kv => Q (snd kv))).
Proof.
  induction 1 as [|[k x] l Hx Hl IH]; simpl; [by apply link_step_ret|].
  eapply link_step_bind; [exact Hx|]. intros y Hy.
  eapply link_step_bind; [exact IH|]. intros ys Hys.
  apply link_step_ret. by constructor.
Qed.

Lemma sum_list_with_zero {A} (g : A -> nat) (l : list A) :
  Forall (fun x => g x = 0) l -> sum_list_with g l = 0.
Proof. induction 1 as [|x l Hx _ IH]; simpl; [done|lia]. Qed.

Lemma _link_unfold (depth : nat) (self : CompileOutput) (node : Node) :
  CompileOutput._link (S depth) self node
  = match node with
    | CallNode name args kwargs =>
        args' ← mapM (CompileOutput._link (S depth) self) args;
        kwargs' ← mapM_items (CompileOutput._link (S depth) self) kwargs;
        recursive ← get_state;
        if decide (name ∈ recursive) then
          mthrow (RuntimeError ("Recursive call detected: " +:+ name))
        else
          _ ← put_state ({[name]} ∪ recursive);
          f ← lift_result (CompileOutput.lookup_function self name);
          body ← lift_result (Function_call f args' kwargs');
          result ← CompileOutput._link depth self body;
          recursive ← get_state;
          _ ← put_state (recursive ∖ {[name]});
          mret result
    | _ => apply (@lift_result _)
             (CompileOutput._link (S depth) self) node
    end.
Proof. destruct node; reflexivity. Qed.

Lemma lookup_function_Some (self : CompileOutput) (name : string)
    (f : Function) :
  CompileOutput.lookup_function self name = Ok f ->
  name ∈ dom (functions self).
Proof.
  unfold CompileOutput.lookup_function.
  destruct (functions self !! name) eqn:E; [|done].
  intros _. apply elem_of_dom. by eexists.
Qed.

(** The linker ends, restores the set of names being inlined, and leaves
    no call where it can see one, whenever the bound on nested inlinings
    exceeds the number of registered functions not being inlined yet. *)
Lemma _link_inlines_every_visible_call (depth : nat) (self : CompileOutput) :
  forall (node : Node) (R : gset string),
    size (dom (functions self) ∖ R) < depth ->
    link_step (CompileOutput._link depth self node) R R
      (fun r => visible_calls r = 0).
Proof.
  induction depth as [|depth IHd]; [intros; lia|].
  intros node.
  induction node using Node_nested_ind; intros R Hsize;
    rewrite _link_unfold; simpl.
  - by apply link_step_ret.
  - eapply link_step_bind.
    + apply link_step_mapM. eapply Forall_impl; [exact H|]. simpl. eauto.
    + intros args' Hargs. apply link_step_ret. simpl.
      by apply sum_list_with_zero.
  - by apply link_step_ret.
  - eapply link_step_bind; [apply IHnode, Hsize|]. intros v Hv.
    apply link_step_lift; [apply F_Assign_ends|].
    intros a Ha. by rewrite (visible_calls_Assign _ _ _ Ha).
  - by apply link_step_ret.
  - by apply link_step_ret.
  - eapply link_step_bind.
    + apply link_step_mapM. eapply Forall_impl; [exact H|]. simpl. eauto.
    + intros ns Hns. apply link_step_ret.
      rewrite visible_calls_Execute. by apply sum_list_with_zero.
  - eapply link_step_bind.
    { apply link_step_mapM. eapply Forall_impl; [exact H|]. simpl. eauto. }
    intros args' Hargs.
    eapply link_step_bind.
    { apply link_step_mapM_items. eapply Forall_impl; [exact H0|].
      simpl. eauto. }
    intros kwargs' Hkwargs.
    unfold link_step. rewrite stateM_bind_run. simpl.
    destruct (decide (name ∈ R)) as [Hin|Hnotin]; [done|].
    rewrite stateM_bind_run. simpl.
    rewrite stateM_bind_run. unfold lift_result at 1.
    destruct (CompileOutput.lookup_function self name) as [f|e] eqn:Hf.
    2:{ unfold CompileOutput.lookup_function in Hf.
        destruct (functions self !! name); by inversion Hf. }
    rewrite stateM_bind_run. unfold lift_result at 1.
    pose proof (Function_call_ends f args' kwargs') as Hcall.
    destruct (Function_call f args' kwargs') as [body|e];
      [|intros ->; by apply Hcall].
    rewrite stateM_bind_run.
    apply lookup_function_Some in Hf.
    assert (size (dom (functions self) ∖ ({[name]} ∪ R)) < depth) as Hlt.
    { assert (dom (functions self) ∖ ({[name]} ∪ R)
              ⊂ dom (functions self) ∖ R) as Hsub by set_solver.
      apply subset_size in Hsub. lia. }
    pose proof (IHd body _ Hlt) as Hbody. unfold link_step in Hbody.
    destruct (CompileOutput._link depth self body ({[name]} ∪ R))
      as [[r R']|e]; [|exact Hbody].
    destruct Hbody as [-> Hr]. simpl.
    split; [set_solver|done].
  - by apply link_step_ret.
  - eapply link_step_bind; [apply IHnode1, Hsize|]. intros c' Hc.
    eapply link_step_bind; [apply IHnode2, Hsize|]. intros t' Ht.
    eapply link_step_bind; [apply IHnode3, Hsize|]. intros e' He.
    apply link_step_ret. rewrite visible_calls_If.
    simpl in Hc, Ht, He. lia.
  - eapply link_step_bind; [apply IHnode1, Hsize|]. intros c' Hc.
    eapply link_step_bind; [apply IHnode2, Hsize|]. intros b' Hb.
    apply link_step_ret. simpl in *. lia.
Qed.

End LinkSteps.

Section Linker.

Lemma sum_list_with_guarded {A} (f g : A -> nat) (h : A -> bool)
    (l : list A) :
  Forall (fun x => h x = false -> f x = g x) l ->
  existsb h l = false ->
  sum_list_with f l = sum_list_with g l.
Proof.
  induction 1 as [|x l Hx _ IH]; simpl; [done|].
  intros [Hh Hl]%orb_false_iff. rewrite Hx, IH; done.
Qed.

(** Where no [GetNode] or [SetNode] occurs, every call is visible. *)
Lemma count_calls_visible (node : Node) :
  has_get_set node = false -> count_calls node = visible_calls node.
Proof.
  induction node using Node_nested_ind; simpl; try done.
  - by apply sum_list_with_guarded.
  - by apply sum_list_with_guarded.
  - intros [Ha Hk]%orb_false_iff. f_equal. f_equal.
    + by apply (sum_list_with_guarded _ _ has_get_set).
    + by apply (sum_list_with_guarded _ _ (fun kv => has_get_set (snd kv))).
  - intros [[Hc Ht]%orb_false_iff He]%orb_false_iff.
    by rewrite IHnode1, IHnode2, IHnode3.
  - intros [Hc Hb]%orb_false_iff.
    by rewrite IHnode1, IHnode2.
Qed.

(** Linking ends for every registry, once the bound on nested inlinings
    exceeds the number of registered functions: it raises an exception of
    the code or returns a tree, and every [CallNode] left in the tree lies
    below a [GetNode] or a [SetNode]. *)
Lemma link_ends_and_inlines_visible_calls (depth : nat)
    (self : CompileOutput) :
  size (dom (functions self)) < depth ->
  match CompileOutput.link depth self with
  | Ok node =>
      visible_calls node = 0
      /\ (has_get_set node = false -> count_calls node = 0)
  | Err e => e <> OutOfFuel
  end.
Proof.
  intros Hsize. unfold CompileOutput.link.
  destruct (CompileOutput.lookup_function self (entry self)) as [f|e] eqn:Hf.
  2:{ unfold CompileOutput.lookup_function in Hf.
      destruct (functions self !! entry self); by inversion Hf. }
  simpl.
  assert (forall node,
             match (r ← CompileOutput._link depth self node ∅; Ok (fst r))
             with
             | Ok node =>
                 visible_calls node = 0
                 /\ (has_get_set node = false -> count_calls node = 0)
             | Err e => e <> OutOfFuel
             end) as Hlink.
  { intros node.
    assert (size (dom (functions self) ∖ ∅) < depth) as Hlt.
    { replace (dom (functions self) ∖ ∅) with (dom (functions self))
        by set_solver. done. }
    pose proof (_link_inlines_every_visible_call depth self node ∅ Hlt) as H.
    unfold link_step in H.
    destruct (CompileOutput._link depth self node ∅) as [[r R]|e]; [|done].
    simpl. destruct H as [_ Hr]. split; [done|].
    intros Hg. by rewrite count_calls_visible. }
  destruct f as [f|[f ?]]; apply Hlink.
Qed.

(** A function called at two call sites, one of them nested in an argument
    of the other, is inlined three times and raises nothing. *)
Lemma two_call_sites_link :
  exists node,
    CompileOutput.link 3 Examples.two_call_sites = Ok node
    /\ count_calls node = 0.
Proof. eexists. split; vm_compute; reflexivity. Qed.

(** Direct and mutual recursion are rejected. *)
Lemma self_recursion_rejected :
  CompileOutput.link 2 Examples.self_recursion
  = Err (RuntimeError "Recursive call detected: m.main").
Proof. vm_compute. reflexivity. Qed.

Lemma mutual_recursion_rejected :
  CompileOutput.link 3 Examples.mutual_recursion
  = Err (RuntimeError "Recursive call detected: m.g").
Proof. vm_compute. reflexivity. Qed.

(** The failing program is what the front end compiles
    [def main(): Mem.x = main()] to. *)
Lemma store_own_result_compiles :
  Examples.compile_in_m "main" Examples.store_own_result
  = Ok Examples.store_own_result_node.
Proof. vm_compute. reflexivity. Qed.

(** C3: the specification requires that linking raises "Recursive call
    detected" when the entry function is on a call cycle, and otherwise
    returns a tree without any [CallNode].  [GetNode] and [SetNode] inherit
    the [apply] that returns the node unchanged, so the linker never looks
    below them: for the function that stores its own result, linking raises
    nothing and returns the body as it is, with the recursive call in it. *)
Theorem C3_call_below_Set_is_not_linked (depth : nat) :
  CompileOutput.link (S depth) Examples.store_own_result_output
  = Ok Examples.store_own_result_node
  /\ count_calls Examples.store_own_result_node = 1.
Proof. split; vm_compute; reflexivity. Qed.

End Linker.

(** * Properties of the front-end compiler *)

Section FrontEnd.

(** What [a() < b() < c()] compiles to: the middle operand is compiled once
    for each of the two comparisons it takes part in. *)
Lemma chained_comparison_compiles :
  Examples.compile_in_m "f" Examples.chained_comparison
  = Ok (IfNode
          (IfNode (ValueNode 1%float)
             (ExecuteNode
                [AssignNode "$1" (CallNode "m.a" [] []);
                 AssignNode "$2" (CallNode "m.b" [] []);
                 FunctionNode "Less" [RefNode "$1"; RefNode "$2"]])
             (ValueNode 0%float))
          (ExecuteNode
             [AssignNode "$3" (CallNode "m.b" [] []);
              AssignNode "$4" (CallNode "m.c" [] []);
              FunctionNode "Less" [RefNode "$3"; RefNode "$4"]])
          (ValueNode 0%float)).
Proof. vm_compute. reflexivity. Qed.

(** The chain does stop at the first comparison that is false: the third
    operand is not evaluated then. *)
Lemma chained_comparison_short_circuits :
  exists node,
    Examples.compile_in_m "f" Examples.chained_comparison = Ok node
    /\ Examples.run Examples.decreasing ∅ node
       = Ok (0%float,
             [CallEvent "m.a"; CallEvent "m.b"; FunctionEvent "Less"]).
Proof.
  eexists. split; [apply chained_comparison_compiles|].
  vm_compute. reflexivity.
Qed.

(** C1: the specification requires that every operand of a chained
    comparison is evaluated at most once, as the docstring of
    [__compile_Compare__] does.
    The loop compiles the right operand of one comparison again as the left
    operand of the next: in [a() < b() < c()] with [a() < b()] true, the call
    [b()] is executed twice. *)
Theorem C1_middle_operand_is_evaluated_twice :
  exists node v t,
    Examples.compile_in_m "f" Examples.chained_comparison = Ok node
    /\ Examples.run Examples.increasing ∅ node = Ok (v, t)
    /\ t = [CallEvent "m.a"; CallEvent "m.b"; FunctionEvent "Less";
            CallEvent "m.b"; CallEvent "m.c"; FunctionEvent "Less"]
    /\ Semantics.calls_of "m.b" t = 2.
Proof.
  do 3 eexists. split; [apply chained_comparison_compiles|].
  split; [vm_compute; reflexivity|].
  split; vm_compute; reflexivity.
Qed.

(** What [_may_return] builds for any trailing statements [node] that are
    not empty, once the block may return: the statements, assigned to a
    fresh register, come first in the sequence, and the [If] on the return
    flag second; the [If] holds a reference to the register only. *)
Lemma _may_return_puts_statements_before_If (c : ContextFrame) (node a : Node)
    (flag : string) (s : CState) :
  c_may_return c = true ->
  truthy (c_return_flag c) = Some flag ->
  F.empty_node node = false ->
  let result := "$" +:+ str_of_nat (S (anonymous_variable_counter s)) in
  F.Assign result node = Ok a ->
  Compiler._may_return c node s
  = Ok (F.Execute
          [a;
           F.If (F.Ref flag)
             (match truthy (c_return_value c) with
              | Some v => F.Ref v
              | None => F.empty
              end)
             (F.Ref result)],
        mkCState (_frames s) (S (anonymous_variable_counter s))).
Proof.
  intros Hret Hflag Hnode result Ha.
  unfold Compiler._may_return. rewrite Hret, Hflag.
  unfold mbind, stateM_bind, anonymous. rewrite Hnode. simpl.
  unfold lift_result. fold result. by rewrite Ha.
Qed.

(** What [if cond: return 1] followed by [g()] compiles to: the trailing
    statement is assigned to the register [$7] before the [If] that chooses
    between the returned value and that register. *)
Lemma return_then_call_compiles :
  Examples.compile_in_m "f" Examples.return_then_call
  = Ok (ExecuteNode
          [AssignNode "$5" (ValueNode 0%float);
           AssignNode "$6" (ValueNode 0%float);
           IfNode (RefNode "m$f$cond")
             (ExecuteNode
                [AssignNode "$2" (ValueNode 1%float);
                 AssignNode "$1" (ValueNode 1%float);
                 AssignNode "$4"
                   (IfNode (RefNode "$1") (RefNode "$2") (ValueNode 0%float));
                 AssignNode "$6"
                   (IfNode (RefNode "$1") (RefNode "$2") (RefNode "$4"));
                 AssignNode "$5" (RefNode "$1");
                 IfNode (RefNode "$1") (AssignNode "$6" (RefNode "$2"))
                   (ValueNode 0%float)])
             (ValueNode 0%float);
           AssignNode "$7" (CallNode "m.g" [] []);
           IfNode (RefNode "$5") (RefNode "$6") (RefNode "$7")]).
Proof. vm_compute. reflexivity. Qed.

(** C2: the specification requires that the statements after a conditional
    return are never executed when the condition is true, as the docstring
    of [__compile_Return__] does.  [_may_return] puts the trailing statements
    before the [If] on the return flag, not inside it: with [cond] true the
    function yields the returned value 1, and the call [g()] has been
    executed all the same. *)
Theorem C2_trailing_statement_runs_after_return :
  exists node t,
    Examples.compile_in_m "f" Examples.return_then_call = Ok node
    /\ Examples.run Examples.increasing {[ "m$f$cond" := 1%float ]} node
       = Ok (1%float, t)
    /\ Semantics.calls_of "m.g" t = 1.
Proof.
  do 2 eexists. split; [apply return_then_call_compiles|].
  split; vm_compute; reflexivity.
Qed.

End FrontEnd.

(** * Properties of flow lowering *)

Section Lowering.

Lemma run_transform (fuel : nat) (root : Node) (s : TState) :
  Transformer.run (Transformer.transform fuel) root s
  = match transform fuel root (counter s) with
    | Ok (f, n) => Ok (f, mkTState (flow s) n)
    | Err e => Err e
    end.
Proof.
  unfold transform, Transformer.run. simpl.
  destruct (_ ≫= _) as [[u s']|e]; done.
Qed.

(** C7 (amended): for an [If] whose condition lowers to [cond], which is
    whatever the condition lowers to except [None]: an expression, or the
    statement of a [Set], and whose branches lower, each on its own in a
    new transformer, to the flows [fl_t] and [fl_e], lowering appends one
    switch to the flow built so far.  Its condition is [cond] itself, not a
    register it was lifted into; it has one literal case, 0, with the else
    branch as body, and the then branch as default; its result register is
    the fresh name minted after the condition was lowered, and the value of
    the [If] is a reference to that register. *)
Theorem C7_IfNode_becomes_switch_on_condition (fuel : nat)
    (c t e : Node) (s s1 : TState) (cond : Val) (fl_t fl_e : Flow)
    (n_t n_e : nat) :
  Transformer.transform fuel c s = Ok (Some cond, s1) ->
  transform fuel t (S (counter s1)) = Ok (fl_t, n_t) ->
  transform fuel e n_t = Ok (fl_e, n_e) ->
  let result := "$" +:+ str_of_nat (S (counter s1)) in
  Transformer.transform (S fuel) (IfNode c t e) s
  = Ok (Some (ExprVal (RefExpr result)),
        mkTState
          (Flow.attach (flow s1)
             (SwitchFlow result cond [(ValueExpr 0%float, fl_e)]
                (Some fl_t) None))
          n_e).
Proof.
  intros Hc Ht He result.
  cbn [Transformer.transform].
  unfold mbind at 1, stateM_bind at 1. rewrite Hc.
  unfold mbind at 1, stateM_bind at 1.
  cbn [Transformer.value_of mret stateM_ret].
  unfold mbind at 1, stateM_bind at 1. cbn [Transformer.anonymous].
  unfold mbind at 1, stateM_bind at 1.
  rewrite run_transform. cbn [counter]. rewrite Ht.
  unfold mbind at 1, stateM_bind at 1.
  rewrite run_transform. cbn [counter]. rewrite He.
  reflexivity.
Qed.

Lemma C7_IfNode_becomes_switch_on_condition_witness :
  Transformer.transform 3 Examples.if_less (mkTState (ExecuteFlow [] None) 0)
  = Ok (Some (ExprVal (RefExpr "$3")),
        mkTState
          (Flow.attach
             (ExecuteFlow
                [OfStatement (AssignStatement "$1" (ExprVal (RefExpr "a")) true);
                 OfStatement (AssignStatement "$2" (ExprVal (RefExpr "b")) true)] None)
             (SwitchFlow "$3"
                (ExprVal (FunctionExpr "Less" [RefExpr "$1"; RefExpr "$2"]))
                [(ValueExpr 0%float,
                  ExecuteFlow [OfExpr (ValueExpr 2%float)] None)]
                (Some (ExecuteFlow [OfExpr (ValueExpr 1%float)] None)) None))
          3).
Proof.
  apply (C7_IfNode_becomes_switch_on_condition 2
           (FunctionNode "Less" [RefNode "a"; RefNode "b"])
           (ValueNode 1%float) (ValueNode 2%float)
           (mkTState (ExecuteFlow [] None) 0)
           (mkTState
              (ExecuteFlow
                 [OfStatement (AssignStatement "$1" (ExprVal (RefExpr "a")) true);
                  OfStatement (AssignStatement "$2" (ExprVal (RefExpr "b")) true)] None)
              2)
           (ExprVal (FunctionExpr "Less" [RefExpr "$1"; RefExpr "$2"]))
           (ExecuteFlow [OfExpr (ValueExpr 1%float)] None)
           (ExecuteFlow [OfExpr (ValueExpr 2%float)] None) 3 3).
  - reflexivity.
  - reflexivity.
  - reflexivity.
Defined.

(** C7 as specified fails: the lowered [If(Less(a, b), 1, 2)] is a switch on
    the comparison itself, with one case. *)
Lemma C7_counterexample :
  exists f n,
    transform 4 Examples.if_less 0 = Ok (f, n)
    /\ ~ lifted_two_case_switch f.
Proof.
  eexists _, _. split; [vm_compute; reflexivity|].
  intros (nodes & r & name & cases & d & nx & Heq & _).
  discriminate Heq.
Qed.

(** The statement that a [Set] lowers to passes the test [if not value]
    like an expression: it is stored as the value of an assignment, here
    for [r := Set(0, 0, 0, 2)], ... *)
Lemma Set_as_value_lowers :
  transform 4
    (AssignNode "r" (SetNode 0 0 (ValueNode 0%float) (ValueNode 2%float))) 0
  = Ok (ExecuteFlow
          [OfStatement (AssignStatement "$1" (ExprVal (ValueExpr 0%float)) true);
           OfStatement (AssignStatement "$2" (ExprVal (ValueExpr 2%float)) true);
           OfStatement
             (AssignStatement "r" (SetVal 0 0 (RefExpr "$1") (RefExpr "$2"))
                true)]
          None, 2).
Proof. vm_compute. reflexivity. Qed.

(** ... and as the condition of a switch, for [If(Set(0, 0, 0, 2), 1, 2)]. *)
Lemma Set_as_condition_lowers :
  transform 5
    (IfNode (SetNode 0 0 (ValueNode 0%float) (ValueNode 2%float))
       (ValueNode 1%float) (ValueNode 2%float)) 0
  = Ok (ExecuteFlow
          [OfStatement (AssignStatement "$1" (ExprVal (ValueExpr 0%float)) true);
           OfStatement (AssignStatement "$2" (ExprVal (ValueExpr 2%float)) true)]
          (Some
             (SwitchFlow "$3" (SetVal 0 0 (RefExpr "$1") (RefExpr "$2"))
                [(ValueExpr 0%float,
                  ExecuteFlow [OfExpr (ValueExpr 2%float)] None)]
                (Some (ExecuteFlow [OfExpr (ValueExpr 1%float)] None))
                (Some (ExecuteFlow [OfExpr (RefExpr "$3")] None)))),
        3).
Proof. vm_compute. reflexivity. Qed.

End Lowering.

(** * Properties of the optimizer passes *)

Section Switches.

Import SwitchElimination.

(** What the pass does by design, for a literal condition of value [v]: of
    labels that are all literals, the first one equal to [v] selects its
    body. *)
Lemma select_first_matching_literal (v : float) (name : string)
    (default : option Flow) (pre post : list (Expr * Flow)) (c : float)
    (body : Flow) (static : bool) :
  Forall (fun cb => exists l, fst cb = ValueExpr l
                                /\ PrimFloat.eqb l v = false) pre ->
  PrimFloat.eqb c v = true ->
  select v name default (pre ++ (ValueExpr c, body) :: post) static
  = (r ← Flow.set_result body name; Ok (Some r)).
Proof.
  intros Hpre Hc.
  induction pre as [|[l b] pre IH]; simpl.
  - by rewrite Hc.
  - inversion Hpre as [|? ? [l' [Hl Hne]] Hpre']; subst. simpl in Hl. subst l.
    rewrite Hne. by apply IH.
Qed.

(** With literal labels only, none of them equal to [v], the default body
    is selected if there is one. *)
Lemma select_default_when_no_literal_matches (v : float) (name : string)
    (default : Flow) (cases : list (Expr * Flow)) :
  Forall (fun cb => exists l, fst cb = ValueExpr l
                                /\ PrimFloat.eqb l v = false) cases ->
  select v name (Some default) cases true
  = (r ← Flow.set_result default name; Ok (Some r)).
Proof.
  induction cases as [|[l b] cases IH]; intros Hall; simpl; [done|].
  inversion Hall as [|? ? [l' [Hl Hne]] Hall']; subst. simpl in Hl. subst l.
  rewrite Hne. by apply IH.
Qed.

(** Once a label that is not a literal has been passed, a switch none of
    whose literal labels equals [v] is left in place. *)
Lemma select_nothing_when_not_static (v : float) (name : string)
    (default : option Flow) (cases : list (Expr * Flow)) :
  Forall (fun cb => forall l, fst cb = ValueExpr l
                              -> PrimFloat.eqb l v = false) cases ->
  select v name default cases false = Ok None.
Proof.
  induction cases as [|[l b] cases IH]; intros Hall; simpl.
  - by destruct default.
  - inversion Hall as [|? ? Hl Hall']; subst. simpl in Hl.
    destruct l; try by apply IH.
    rewrite (Hl _ eq_refl). by apply IH.
Qed.

(** A switch on a literal for which a body is selected is replaced by that
    body, with the result register assigned in it, followed by the
    optimized continuation. *)
Lemma optimize_replaces_switch_by_selected (r : string) (v : float)
    (cases : list (Expr * Flow)) (default next : option Flow) (f : Flow) :
  select v r default cases true = Ok (Some f) ->
  optimize (SwitchFlow r (ExprVal (ValueExpr v)) cases default next)
  = match next with
    | Some n => n' ← optimize n; Ok (Flow.attach f n')
    | None => Ok f
    end.
Proof.
  intros Hsel. destruct next as [n|]; simpl; rewrite Hsel; reflexivity.
Qed.

(** C6: the specification requires that a switch with a label that is not
    a literal is left in place, which is what the flag [static] of the code
    is for.  The
    flag is read only when the loop ends without a match: a literal label
    equal to the condition selects its body at once, whatever labels come
    before or after it.  Here the first label is the register [x], the
    second label matches, and the switch is replaced by the second body,
    although [x] may hold 1 at run time. *)
Theorem C6_switch_with_register_label_is_eliminated :
  optimize Examples.mixed_switch
  = Ok (ExecuteFlow
          [OfStatement
             (AssignStatement "r" (ExprVal (ValueExpr 20%float)) true)]
          None).
Proof. vm_compute. reflexivity. Qed.

End Switches.

Section Folding.

Variables math_floor math_ceil round math_trunc math_exp math_log
  : float -> result float.

#[local] Abbreviation optimize :=
  (ConstantFold.optimize math_floor math_ceil round math_trunc math_exp
     math_log).

Lemma _fold_quad_zero_and_expression (fold : ConstantFold.quad) (e : Expr) :
  ConstantFold.literal e = None ->
  ConstantFold._fold_quad fold [ValueExpr 0%float; e] = [e].
Proof.
  intros He. destruct fold, e; try discriminate He; reflexivity.
Qed.

(** C10 (amended): the arguments of a call are folded before the call is.
    For every expression [e] whose folded form [e'] is not a literal,
    constant folding turns the product of the literal 0 and [e] into [e']:
    the accumulated literal factor, being zero, is dropped from the product
    instead of making the whole product the literal 0. *)
Theorem C10_zero_factor_is_dropped (e e' : Expr) :
  optimize e = Ok e' ->
  ConstantFold.literal e' = None ->
  optimize (FunctionExpr "Multiply" [ValueExpr 0%float; e]) = Ok e'.
Proof.
  intros He Hlit. simpl. simpl in He. rewrite He. simpl.
  unfold ConstantFold.fold_Multiply.
  by rewrite _fold_quad_zero_and_expression.
Qed.

(** The same loop drops an accumulated sum of zero from a sum. *)
Lemma zero_summand_is_dropped (e e' : Expr) :
  optimize e = Ok e' ->
  ConstantFold.literal e' = None ->
  optimize (FunctionExpr "Add" [ValueExpr 0%float; e]) = Ok e'.
Proof.
  intros He Hlit. simpl. simpl in He. rewrite He. simpl.
  unfold ConstantFold.fold_Add.
  by rewrite _fold_quad_zero_and_expression.
Qed.

End Folding.

Section FoldingExamples.

Lemma C10_zero_factor_is_dropped_witness :
  Examples.constant_fold
    (FunctionExpr "Multiply"
       [ValueExpr 0%float; FunctionExpr "Add" [RefExpr "x"; ValueExpr 0%float]])
  = Ok (RefExpr "x").
Proof.
  apply (C10_zero_factor_is_dropped Examples.no_math Examples.no_math
           Examples.no_math Examples.no_math Examples.no_math Examples.no_math
           (FunctionExpr "Add" [RefExpr "x"; ValueExpr 0%float])
           (RefExpr "x")).
  - reflexivity.
  - reflexivity.
Defined.

(** C10 as specified fails: the sum [Add(1, 2)] is not a literal, and the
    product of 0 and that sum folds neither to the sum nor to 0, but to the
    literal 1. *)
Lemma C10_counterexample :
  ConstantFold.literal Examples.one_plus_two = None
  /\ Examples.constant_fold
       (FunctionExpr "Multiply" [ValueExpr 0%float; Examples.one_plus_two])
     = Ok (ValueExpr 1%float)
  /\ Examples.constant_fold
       (FunctionExpr "Multiply" [ValueExpr 0%float; Examples.one_plus_two])
     <> Ok Examples.one_plus_two.
Proof.
  assert (Examples.constant_fold
            (FunctionExpr "Multiply"
               [ValueExpr 0%float; Examples.one_plus_two])
          = Ok (ValueExpr 1%float)) as Hfold by (vm_compute; reflexivity).
  split; [reflexivity|]. split; [exact Hfold|].
  rewrite Hfold. discriminate.
Qed.

(** The product of the literals 0 and 3 folds to 1. *)
Lemma zero_times_literal_folds_to_one :
  Examples.constant_fold
    (FunctionExpr "Multiply" [ValueExpr 0%float; ValueExpr 3%float])
  = Ok (ValueExpr 1%float).
Proof. vm_compute. reflexivity. Qed.

(** The example of the specification: [2 + 3 * 4] folds to 14. *)
Lemma two_plus_three_times_four :
  Examples.constant_fold
    (FunctionExpr "Add"
       [ValueExpr 2%float;
        FunctionExpr "Multiply" [ValueExpr 3%float; ValueExpr 4%float]])
  = Ok (ValueExpr 14%float).
Proof. vm_compute. reflexivity. Qed.

End FoldingExamples.

(** * Further properties of the calling convention *)

Section CallErrors.

Import CompiledFunction.

Lemma mapM_Err {A B} (f : A -> result B) (l : list A) (e : error) :
  mapM f l = Err e -> exists x, x ∈ l /\ f x = Err e.
Proof.
  induction l as [|x l IH]; simpl; [done|].
  destruct (f x) as [y|e'] eqn:Hx; simpl.
  - destruct (mapM f l) as [ys|e'']; simpl; [done|].
    intros [= ->]. destruct IH as (x' & Hin & Hx'); [done|].
    exists x'. split; [by right|done].
  - intros [= ->]. exists x. split; [by left|done].
Qed.

Lemma on_last_Err {A} (f : A -> result A) (l : list A) (e : error) :
  F.on_last f l = Err e ->
  e = IndexError "list index out of range"
  \/ exists x, x ∈ l /\ f x = Err e.
Proof.
  induction l as [|x l IH]; [simpl; intros [= <-]; by left|].
  destruct l as [|y l].
  - simpl. destruct (f x) eqn:Hx; simpl; [done|].
    intros [= ->]. right. exists x. split; [by left|done].
  - change (F.on_last f (x :: y :: l))
      with (F.on_last f (y :: l) ≫= fun r => Ok (x :: r)).
    destruct (F.on_last f (y :: l)) as [r|e'] eqn:Hl; simpl; [done|].
    intros [= ->]. destruct IH as [->|(x' & Hin & Hx')]; [done|by left|].
    right. exists x'. split; [by right|done].
Qed.

(** [F.Assign] raises nothing but the [IndexError] of an empty sequence. *)
Lemma F_Assign_Err (name : string) (value : Node) (e : error) :
  F.Assign name value = Err e -> e = IndexError "list index out of range".
Proof.
  induction value using Node_nested_ind; simpl; try done.
  destruct (F.on_last (F.Assign name) nodes) as [ns|e'] eqn:Hl; simpl; [done|].
  intros [= ->]. apply on_last_Err in Hl as [->|(x & Hin & Hx)]; [done|].
  rewrite Forall_forall in H. by apply (H x).
Qed.

Lemma on_last_Err_iff {A} (f : A -> result A) (g : A -> bool) (E : error)
    (l : list A) :
  Forall (fun x => forall e, f x = Err e -> e = E) l ->
  Forall (fun x => f x = Err E <-> g x = true) l ->
  E = IndexError "list index out of range" ->
  F.on_last f l = Err E <-> holds_of_last g l = true.
Proof.
  intros Hall Hiff ->.
  induction l as [|x l IH]; [done|].
  apply Forall_cons in Hall as [Hx Hall].
  apply Forall_cons in Hiff as [Hgx Hiff].
  destruct l as [|y l].
  - simpl. rewrite <- Hgx.
    destruct (f x) as [a|e] eqn:Hfx; simpl; [done|].
    by rewrite (Hx e).
  - change (F.on_last f (x :: y :: l))
      with (F.on_last f (y :: l) ≫= fun r => Ok (x :: r)).
    change (holds_of_last g (x :: y :: l)) with (holds_of_last g (y :: l)).
    rewrite <- (IH Hiff Hall).
    destruct (F.on_last f (y :: l)); simpl;
      split; intros Hy; try discriminate Hy; exact Hy.
Qed.

(** The values for which [F.Assign] raises: those of an empty sequence. *)
Lemma F_Assign_raises_iff (name : string) (value : Node) :
  F.Assign name value = Err (IndexError "list index out of range")
  <-> ends_in_empty value = true.
Proof.
  induction value using Node_nested_ind; simpl; try done.
  rewrite <- (on_last_Err_iff (F.Assign name) ends_in_empty
                (IndexError "list index out of range") nodes).
  - destruct (F.on_last (F.Assign name) nodes); simpl;
      split; intros Hx; try discriminate Hx; congruence.
  - apply Forall_forall. intros x _ e. apply F_Assign_Err.
  - done.
  - done.
Qed.

Lemma F_Assign_Ok (name : string) (value : Node) :
  ends_in_empty value = false -> exists a, F.Assign name value = Ok a.
Proof.
  intros Hv. destruct (F.Assign name value) as [a|e] eqn:Ha; [by exists a|].
  pose proof (F_Assign_Err _ _ _ Ha) as ->.
  apply F_Assign_raises_iff in Ha. congruence.
Qed.

Lemma _resolve_nested_Err self n unit e :
  _resolve_nested self n unit = Err e -> starred_error e.
Proof.
  unfold _resolve_nested, reduce.
  destruct (map _ _); [|done]. intros [= <-]. right. by left.
Qed.

Lemma _resolve_starred_Err (self : CompiledFunction) (n : nat) (node : Node)
    (e : error) :
  _resolve_starred self node n = Err e -> starred_error e.
Proof.
  revert e.
  induction node using Node_nested_ind; intros e; simpl; try done.
  - destruct (last args) as [[]|] eqn:Hlast; try done;
      try (destruct (mapM _ args) as [args'|e'] eqn:Hm; simpl; [done|];
           intros [= ->]; apply mapM_Err in Hm as (x & Hin & Hx);
           rewrite Forall_forall in H; by apply (H x Hin)).
    destruct nested; [|done].
    destruct (_resolve_nested _ _ _) eqn:Hn; simpl.
    + by destruct args as [|? [|]].
    + intros [= ->]. by eapply _resolve_nested_Err.
  - destruct (_resolve_starred self node n) as [v|e'] eqn:Hv; simpl.
    + intros He%F_Assign_Err. right. by right.
    + intros [= ->]. by apply IHnode.
  - destruct (mapM _ nodes) as [ns|e'] eqn:Hm; simpl; [done|].
    intros [= ->]. apply mapM_Err in Hm as (x & Hin & Hx).
    rewrite Forall_forall in H. by apply (H x Hin).
  - destruct (last args) as [[]|] eqn:Hlast; try done;
      try (destruct (mapM _ args) as [args'|e'] eqn:Hm; simpl; [done|];
           intros [= ->]; apply mapM_Err in Hm as (x & Hin & Hx);
           rewrite Forall_forall in H; by apply (H x Hin)).
    destruct nested; [|done].
    destruct (_resolve_nested _ _ _) eqn:Hn; simpl.
    + by destruct args as [|? [|]].
    + intros [= ->]. by eapply _resolve_nested_Err.
  - intros [= <-]. by left.
  - destruct (_resolve_starred self node1 n) as [c|e'] eqn:Hc; simpl;
      [|intros [= ->]; by apply IHnode1].
    destruct (_resolve_starred self node2 n) as [t|e'] eqn:Ht; simpl;
      [|intros [= ->]; by apply IHnode2].
    destruct (_resolve_starred self node3 n) as [el|e'] eqn:He; simpl;
      [done|intros [= ->]; by apply IHnode3].
  - destruct (_resolve_starred self node1 n) as [c|e'] eqn:Hc; simpl;
      [|intros [= ->]; by apply IHnode1].
    destruct (_resolve_starred self node2 n) as [t|e'] eqn:Ht; simpl;
      [done|intros [= ->]; by apply IHnode2].
Qed.

Lemma bind_defaults_Err (fname : string) (ps : list Param) :
  forall (d : list (string * Node)) (e : error),
    bind_defaults fname ps d = Err e ->
    exists p, p ∈ ps /\ p_default p = None
              /\ e = TypeError ("Function " +:+ fname
                                  +:+ " missing parameter " +:+ p_name p).
Proof.
  induction ps as [|p ps IH]; intros d e; simpl; [done|].
  destruct (dict_mem d (p_name p)).
  - intros (q & Hin & Hq)%IH. exists q. split; [by right|done].
  - destruct (p_default p) eqn:Hd.
    + intros (q & Hin & Hq)%IH. exists q. split; [by right|done].
    + intros [= <-]. exists p. split; [by left|done].
Qed.

(** More positional arguments than parameters, for a function without a
    variadic parameter, is the one case in which [call] raises
    "Too many arguments": it always does then, and never otherwise. *)
Theorem call_too_many_arguments_iff (self : CompiledFunction)
    (args : list Node) (kwargs : list (string * Node)) :
  call self args kwargs
  = Err (TypeError ("Too many arguments for " +:+ fn_name self))
  <-> length (params (fn_params self)) < length args
      /\ truthy_name (va_args (fn_params self)) = None.
Proof.
  unfold call, bind_arguments. split.
  - destruct (Nat.ltb_spec (length (params (fn_params self))) (length args))
      as [Hlt|Hge].
    + destruct (truthy_name _) as [va|]; [|done]. simpl.
      destruct (bind_defaults _ _ _) as [d|e] eqn:Hd; simpl.
      * destruct (_resolve_starred _ _ _) as [node|e] eqn:Hn; simpl.
        -- destruct (mapM _ d) as [assigns|e] eqn:Hm; simpl; [done|].
           apply mapM_Err in Hm as (x & _ & Hx).
           apply F_Assign_Err in Hx as ->. done.
        -- apply _resolve_starred_Err in Hn as [-> | [-> | ->]]; done.
      * apply bind_defaults_Err in Hd as (p & _ & _ & ->). done.
    + simpl.
      destruct (bind_defaults _ _ _) as [d|e] eqn:Hd; simpl.
      * destruct (mapM _ d) as [assigns|e] eqn:Hm; simpl; [done|].
        apply mapM_Err in Hm as (x & _ & Hx).
        apply F_Assign_Err in Hx as ->. done.
      * apply bind_defaults_Err in Hd as (p & _ & _ & ->). done.
  - intros [Hlt ->]. apply Nat.ltb_lt in Hlt. by rewrite Hlt.
Qed.

End CallErrors.

Section Decimal.

(** The decimal rendering of a number is never empty, and it determines the
    number. *)
Lemma to_uint_nonnil (n : nat) : Nat.to_uint n <> Decimal.Nil.
Proof.
  rewrite <- (DecimalNat.Unsigned.of_to n) at 1.
  rewrite DecimalNat.Unsigned.to_of. apply DecimalFacts.unorm_nonnil.
Qed.
Lemma str_of_nat_inj (n m : nat) : str_of_nat n = str_of_nat m -> n = m.
Proof.
  unfold str_of_nat. intros H.
  apply DecimalNat.Unsigned.to_uint_inj.
  assert (Some (Nat.to_uint n) = Some (Nat.to_uint m)) as [=]; [|done].
  rewrite <- !NilZero.usu by apply to_uint_nonnil.
  by rewrite H.
Qed.
Lemma append_inj_r (p s t : string) : p +:+ s = p +:+ t -> s = t.
Proof. induction p as [|c p IH]; simpl; [done|]. intros [= H]. by apply IH. Qed.
End Decimal.

Section Binding.

Import CompiledFunction.

Lemma dict_keys_set (d : list (string * Node)) (k : string) (v : Node) :
  map fst (dict_set d k v)
  = if dict_mem d k then map fst d else map fst d ++ [k].
Proof.
  unfold dict_mem.
  induction d as [|[k' v'] d IH]; simpl; [done|].
  destruct (String.eqb k' k) eqn:E; simpl; [done|].
  rewrite IH. by destruct (dict_get d k).
Qed.






End Binding.

Section Binding2.

Import CompiledFunction.

Lemma dict_mem_set_ne (d : list (string * Node)) (k k' : string) (v : Node) :
  k <> k' -> dict_mem (dict_set d k v) k' = dict_mem d k'.
Proof. intros Hne. unfold dict_mem. by rewrite dict_get_set_ne. Qed.

Lemma bind_positional_mem_mono (ps : list Param) :
  forall (args : list Node) (d : list (string * Node)) (k : string),
    dict_mem d k = true -> dict_mem (bind_positional ps args d) k = true.
Proof.
  induction ps as [|p ps IH]; intros args d k Hk; [done|].
  destruct args as [|a args]; [done|].
  rewrite bind_positional_cons. apply IH. by apply dict_mem_set_other.
Qed.

Lemma bind_positional_mem (ps : list Param) :
  forall (args : list Node) (d : list (string * Node)) (i : nat) (p : Param),
    ps !! i = Some p -> i < length args ->
    dict_mem (bind_positional ps args d) (p_name p) = true.
Proof.
  induction ps as [|p0 ps IH]; intros args d i p Hp Hi; [done|].
  destruct args as [|a args]; [simpl in Hi; lia|].
  rewrite bind_positional_cons.
  destruct i as [|i]; simpl in Hp.
  - injection Hp as ->. apply bind_positional_mem_mono, dict_mem_set_same.
  - eapply IH; [exact Hp|]. simpl in Hi. lia.
Qed.

Lemma bind_positional_get_beyond (ps : list Param) :
  forall (args : list Node) (d : list (string * Node)) (k : string),
    k ∉ map p_name (take (length args) ps) ->
    dict_get (bind_positional ps args d) k = dict_get d k.
Proof.
  induction ps as [|p0 ps IH]; intros args d k Hk; [done|].
  destruct args as [|a0 args]; [done|].
  rewrite bind_positional_cons. simpl in Hk.
  rewrite IH by set_solver.
  apply dict_get_set_ne. set_solver.
Qed.

Lemma bind_defaults_first_missing (fname : string) (pre : list Param)
    (p : Param) (post : list Param) :
  forall d : list (string * Node),
    p_name p ∉ map p_name pre ->
    dict_mem d (p_name p) = false ->
    p_default p = None ->
    Forall (fun q => dict_mem d (p_name q) = true \/ p_default q <> None) pre ->
    bind_defaults fname (pre ++ p :: post) d
    = Err (TypeError ("Function " +:+ fname
                        +:+ " missing parameter " +:+ p_name p)).
Proof.
  induction pre as [|q pre IH]; intros d Hnotin Hm Hd Hpre; simpl.
  - by rewrite Hm, Hd.
  - simpl in Hnotin. apply Forall_cons in Hpre as [Hq Hpre].
    destruct (dict_mem d (p_name q)) eqn:Hmq.
    + apply IH; [set_solver|done..].
    + destruct Hq as [|Hq]; [done|].
      destruct (p_default q) as [dflt|]; [|done].
      apply IH; [set_solver| |done|].
      * rewrite dict_mem_set_ne; [done|set_solver].
      * eapply Forall_impl; [exact Hpre|]. simpl.
        intros r [Hr|Hr]; [left|by right].
        by apply dict_mem_set_other.
Qed.

(** [call] names the first parameter, in declaration order, that receives
    no argument and has no default: the parameters before it are bound by
    position, by keyword or by their default. *)
Theorem call_reports_first_missing_parameter (self : CompiledFunction)
    (args : list Node) (kwargs : list (string * Node))
    (pre : list Param) (p : Param) (post : list Param) :
  params (fn_params self) = pre ++ p :: post ->
  length args <= length pre ->
  p_name p ∉ map p_name pre ->
  dict_mem kwargs (p_name p) = false ->
  p_default p = None ->
  Forall (fun q => dict_mem kwargs (p_name q) = true \/ p_default q <> None)
    (drop (length args) pre) ->
  call self args kwargs
  = Err (TypeError ("Function " +:+ fn_name self
                      +:+ " missing parameter " +:+ p_name p)).
Proof.
  intros Hps Hlen Hnotin Hm Hd Hpre.
  unfold call, bind_arguments. rewrite Hps.
  assert (Nat.ltb (length (pre ++ p :: post)) (length args) = false) as ->.
  { apply Nat.ltb_ge. rewrite length_app. lia. }
  simpl.
  rewrite (bind_defaults_first_missing _ pre p post); [done|done| |done|].
  - unfold dict_mem. rewrite bind_positional_get_beyond; [exact Hm|].
    rewrite take_app_le by done.
    intros Hin. apply Hnotin.
    apply list_elem_of_fmap in Hin as (q & -> & Hq).
    apply list_elem_of_fmap. exists q. split; [done|].
    apply elem_of_take in Hq as (i & Hi & _).
    by eapply list_elem_of_lookup_2.
  - apply Forall_lookup. intros i q Hq.
    destruct (decide (i < length args)) as [Hlt|Hge].
    + left. eapply bind_positional_mem; [|exact Hlt].
      by apply lookup_app_l_Some.
    + rewrite Forall_lookup in Hpre.
      destruct (Hpre (i - length args) q) as [Hk|Hk].
      * rewrite lookup_drop. rewrite <- Hq. f_equal. lia.
      * left. by apply bind_positional_mem_mono.
      * by right.
Qed.

Lemma call_reports_first_missing_parameter_witness :
  call Programs.two_required [ValueNode 1%float] []
  = Err (TypeError "Function m.g missing parameter y").
Proof.
  apply (call_reports_first_missing_parameter Programs.two_required
           [ValueNode 1%float] [] [mkParam "x" None] (mkParam "y" None) []).
  - reflexivity.
  - simpl. lia.
  - simpl. set_solver.
  - reflexivity.
  - reflexivity.
  - simpl. apply Forall_nil_2.
Defined.

End Binding2.

Section VariadicBinding.

Import CompiledFunction.

Lemma va_key_inj (va : string) (n m : nat) :
  va +:+ "$" +:+ str_of_nat n = va +:+ "$" +:+ str_of_nat m -> n = m.
Proof.
  intros H%append_inj_r. simpl in H. injection H as H.
  by apply str_of_nat_inj.
Qed.

Lemma bind_variadic_get_before (va : string) (extra : list Node) :
  forall (i : nat) (d : list (string * Node)) (n : nat),
    n <= i ->
    dict_get (bind_variadic va i extra d) (va +:+ "$" +:+ str_of_nat n)
    = dict_get d (va +:+ "$" +:+ str_of_nat n).
Proof.
  induction extra as [|a extra IH]; intros i d n Hn; [done|]. simpl.
  rewrite IH by lia.
  apply dict_get_set_ne. intros H%va_key_inj. lia.
Qed.

Lemma bind_variadic_get (va : string) (extra : list Node) :
  forall (i : nat) (d : list (string * Node)) (j : nat) (a : Node),
    extra !! j = Some a ->
    dict_get (bind_variadic va i extra d)
      (va +:+ "$" +:+ str_of_nat (i + j + 1))
    = Some a.
Proof.
  induction extra as [|a0 extra IH]; intros i d j a Hj; [done|]. simpl.
  destruct j as [|j]; simpl in Hj.
  - injection Hj as ->.
    rewrite bind_variadic_get_before by lia.
    replace (i + 0 + 1) with (i + 1) by lia.
    apply dict_get_set_eq.
  - replace (i + S j + 1) with (S i + j + 1) by lia.
    by apply IH.
Qed.

(** [if self.params.va_args] holds: the name that the registers of the
    surplus arguments are formed from is the variadic name itself. *)
Lemma truthy_name_Some (o : option string) (va : string) :
  truthy_name o = Some va -> o = Some va.
Proof. destruct o as [[|]|]; simpl; congruence. Qed.

Lemma va_ref_named (self : CompiledFunction) (va : string) (i : nat) :
  truthy_name (va_args (fn_params self)) = Some va ->
  va_ref self i = RefNode (param self (va +:+ "$" +:+ str_of_nat (i + 1))).
Proof.
  intros Hva%truthy_name_Some. unfold va_ref, va_name. by rewrite Hva.
Qed.

Lemma bind_arguments_surplus (self : CompiledFunction) (args : list Node)
    (kwargs d : list (string * Node)) (va : string) (i : nat) (a : Node) :
  truthy_name (va_args (fn_params self)) = Some va ->
  bind_arguments self args kwargs = Ok d ->
  args !! (length (params (fn_params self)) + i) = Some a ->
  dict_get d (va +:+ "$" +:+ str_of_nat (i + 1)) = Some a.
Proof.
  intros Hva Hd Ha.
  pose proof (lookup_lt_Some _ _ _ Ha) as Hlt.
  unfold bind_arguments in Hd. rewrite Hva in Hd.
  assert (Nat.ltb (length (params (fn_params self))) (length args) = true)
    as Hltb by (apply Nat.ltb_lt; lia).
  rewrite Hltb in Hd. simpl in Hd.
  eapply bind_defaults_get; [exact Hd|].
  replace (i + 1) with (0 + i + 1) by lia.
  apply bind_variadic_get. by rewrite lookup_drop.
Qed.

(** The surplus positional arguments of a call are bound, in the order
    they are passed, to the registers that the variadic placeholder of the
    body expands to.  The [i]-th of them (from 0) is bound to the name
    [va$(i+1)]; and resolving a built-in call whose last argument is the
    placeholder that is not nested replaces the placeholder by as many
    registers as there are surplus arguments, the [i]-th of which is the
    reference to the register of that name. *)
Theorem surplus_arguments_are_bound_in_order (self : CompiledFunction)
    (args : list Node) (kwargs d : list (string * Node)) (va : string)
    (i : nat) (a : Node) (op : string) (pre : list Node) :
  truthy_name (va_args (fn_params self)) = Some va ->
  bind_arguments self args kwargs = Ok d ->
  args !! (length (params (fn_params self)) + i) = Some a ->
  dict_get d (va +:+ "$" +:+ str_of_nat (i + 1)) = Some a
  /\ exists regs : list Node,
       _resolve_starred self (FunctionNode op (pre ++ [StarredNode false]))
         (length args - length (params (fn_params self)))
       = Ok (FunctionNode op (pre ++ regs))
       /\ length regs = length args - length (params (fn_params self))
       /\ regs !! i
          = Some (RefNode (param self (va +:+ "$" +:+ str_of_nat (i + 1)))).
Proof.
  intros Hva Hd Ha.
  pose proof (lookup_lt_Some _ _ _ Ha) as Hlt.
  split; [by eapply bind_arguments_surplus|].
  set (n := length args - length (params (fn_params self))).
  exists (map (va_ref self) (seq 0 n)).
  split; [|split].
  - simpl. rewrite last_snoc. by rewrite removelast_last.
  - by rewrite length_map, length_seq.
  - rewrite list_lookup_fmap, lookup_seq_lt by (unfold n; lia). simpl.
    f_equal. by apply va_ref_named.
Qed.

Lemma surplus_arguments_are_bound_in_order_witness :
  dict_get [("args$1", RefNode "a"); ("args$2", RefNode "b");
            ("args$3", RefNode "c")] "args$2"
  = Some (RefNode "b")
  /\ exists regs : list Node,
       _resolve_starred Examples.nested_sum
         (FunctionNode "Spawn" ([RefNode "id"] ++ [StarredNode false]))
         (3 - 0)
       = Ok (FunctionNode "Spawn" ([RefNode "id"] ++ regs))
       /\ length regs = 3 - 0
       /\ regs !! 1 = Some (RefNode "m$f$args$2").
Proof.
  apply (surplus_arguments_are_bound_in_order Examples.nested_sum
           [RefNode "a"; RefNode "b"; RefNode "c"] []
           [("args$1", RefNode "a"); ("args$2", RefNode "b");
            ("args$3", RefNode "c")] "args" 1 (RefNode "b") "Spawn"
           [RefNode "id"]).
  - reflexivity.
  - reflexivity.
  - reflexivity.
Defined.

End VariadicBinding.

Section CallShape.

Import CompiledFunction.

Lemma mapM_Ok_Forall2 {A B} (f : A -> result B) (l : list A) :
  forall l', mapM f l = Ok l' -> Forall2 (fun x y => f x = Ok y) l l'.
Proof.
  induction l as [|x l IH]; simpl; intros l'.
  - intros [= <-]. constructor.
  - destruct (f x) as [y|] eqn:Hx; simpl; [|done].
    destruct (mapM f l) as [ys|]; simpl; [|done].
    intros [= <-]. constructor; [done|by apply IH].
Qed.




End CallShape.

Section PositionalOverKeyword.

Import CompiledFunction.

Implicit Types (d : list (string * Node)) (P : Node -> Prop).

Lemma dict_set_values P d (k : string) (x : Node) :
  Forall (fun kv => P (snd kv)) d -> P x ->
  Forall (fun kv => P (snd kv)) (dict_set d k x).
Proof.
  intros Hd Hx. induction Hd as [|[k0 v0] d Hv0 Hd IH]; simpl.
  - by constructor.
  - destruct (String.eqb k0 k); constructor; done.
Qed.

Lemma bind_positional_values P (ps : list Param) :
  forall (args : list Node) d,
    Forall P args -> Forall (fun kv => P (snd kv)) d ->
    Forall (fun kv => P (snd kv)) (bind_positional ps args d).
Proof.
  induction ps as [|p ps IH]; intros args d Hargs Hd; [done|].
  destruct args as [|a args]; [done|].
  apply Forall_cons in Hargs as [Ha Hargs].
  rewrite bind_positional_cons. apply IH; [done|].
  by apply dict_set_values.
Qed.

Lemma bind_variadic_values P (va : string) (extra : list Node) :
  forall (i : nat) d,
    Forall P extra -> Forall (fun kv => P (snd kv)) d ->
    Forall (fun kv => P (snd kv)) (bind_variadic va i extra d).
Proof.
  induction extra as [|a extra IH]; intros i d Hextra Hd; [done|]. simpl.
  apply Forall_cons in Hextra as [Ha Hextra].
  apply IH; [done|]. by apply dict_set_values.
Qed.

Lemma bind_defaults_values P (fname : string) (ps : list Param) :
  Forall (fun q => forall dflt, p_default q = Some dflt -> P dflt) ps ->
  forall d d',
    Forall (fun kv => P (snd kv)) d ->
    bind_defaults fname ps d = Ok d' ->
    Forall (fun kv => P (snd kv)) d'.
Proof.
  induction 1 as [|q ps Hq _ IH]; intros d d' Hd; simpl.
  - by intros [= <-].
  - destruct (dict_mem d (p_name q)); [by apply IH|].
    destruct (p_default q) as [dflt|]; [|done].
    apply IH. apply dict_set_values; [done|]. by apply Hq.
Qed.

Lemma bind_arguments_values P (self : CompiledFunction) (args : list Node)
    (kwargs d : list (string * Node)) :
  Forall P args ->
  Forall (fun kv => P (snd kv)) kwargs ->
  Forall (fun q => forall dflt, p_default q = Some dflt -> P dflt)
    (params (fn_params self)) ->
  bind_arguments self args kwargs = Ok d ->
  Forall (fun kv => P (snd kv)) d.
Proof.
  intros Hargs Hkw Hdef. unfold bind_arguments.
  pose proof (bind_positional_values P (params (fn_params self)) args kwargs
                Hargs Hkw) as Hpos.
  destruct (Nat.ltb _ _).
  - destruct (truthy_name _) as [va|]; [|done]. simpl.
    apply (bind_defaults_values P); [done|].
    apply bind_variadic_values; [by apply Forall_drop|done].
  - simpl. by apply (bind_defaults_values P).
Qed.

Lemma bind_variadic_mem_mono (va : string) (extra : list Node) :
  forall (i : nat) d (k : string),
    dict_mem d k = true -> dict_mem (bind_variadic va i extra d) k = true.
Proof.
  induction extra as [|a extra IH]; intros i d k Hk; [done|]. simpl.
  apply IH. by apply dict_mem_set_other.
Qed.

Lemma bind_defaults_Ok (fname : string) (ps : list Param) :
  forall d,
    Forall (fun q => dict_mem d (p_name q) = true \/ p_default q <> None) ps ->
    exists d', bind_defaults fname ps d = Ok d'.
Proof.
  induction ps as [|q ps IH]; intros d Hall; simpl; [by eexists|].
  apply Forall_cons in Hall as [Hq Hall].
  destruct (dict_mem d (p_name q)) eqn:Hm; [by apply IH|].
  destruct Hq as [|Hq]; [done|].
  destruct (p_default q) as [dflt|]; [|done].
  apply IH. eapply Forall_impl; [exact Hall|]. simpl.
  intros r [Hr|Hr]; [left|by right]. by apply dict_mem_set_other.
Qed.

(** The arguments are bound without error when a variadic parameter takes
    the surplus, if there is one, and every parameter that no positional
    argument reaches has a keyword argument or a default. *)
Lemma bind_arguments_Ok (self : CompiledFunction) (args : list Node)
    (kwargs : list (string * Node)) :
  (length (params (fn_params self)) < length args ->
   truthy_name (va_args (fn_params self)) <> None) ->
  Forall (fun q => dict_mem kwargs (p_name q) = true \/ p_default q <> None)
    (drop (length args) (params (fn_params self))) ->
  exists d, bind_arguments self args kwargs = Ok d.
Proof.
  intros Hva Hmiss. unfold bind_arguments.
  set (ps := params (fn_params self)) in *.
  assert (Forall (fun q => dict_mem (bind_positional ps args kwargs)
                             (p_name q) = true
                           \/ p_default q <> None) ps) as Hpos.
  { apply Forall_lookup. intros j q Hq.
    destruct (decide (j < length args)) as [Hlt|Hge].
    - left. by eapply bind_positional_mem.
    - rewrite Forall_lookup in Hmiss.
      destruct (Hmiss (j - length args) q) as [Hk|Hk].
      + rewrite lookup_drop. rewrite <- Hq. f_equal. lia.
      + left. by apply bind_positional_mem_mono.
      + by right. }
  destruct (Nat.ltb_spec (length ps) (length args)) as [Hlt|Hge].
  - destruct (truthy_name _) as [va|]; [|by destruct (Hva Hlt)]. simpl.
    apply bind_defaults_Ok. eapply Forall_impl; [exact Hpos|]. simpl.
    intros q [Hq|Hq]; [left|by right]. by apply bind_variadic_mem_mono.
  - simpl. by apply bind_defaults_Ok.
Qed.

Lemma mapM_Assign_Ok (self : CompiledFunction) d :
  Forall (fun kv => ends_in_empty (snd kv) = false) d ->
  exists assigns,
    mapM (fun kv => F.Assign (param self (fst kv)) (snd kv)) d = Ok assigns.
Proof.
  induction 1 as [|[k v] d Hv _ [assigns IH]]; simpl; [by eexists|].
  destruct (F_Assign_Ok (param self k) v Hv) as [a ->]. simpl.
  rewrite IH. simpl. by eexists.
Qed.

(** The keys of a dictionary stay pairwise different. *)
Lemma dict_mem_false d (k : string) :
  dict_mem d k = false -> k ∉ map fst d.
Proof.
  unfold dict_mem. induction d as [|[k0 v0] d IH]; simpl; [set_solver|].
  destruct (String.eqb_spec k0 k) as [->|Hne]; [done|].
  intros Hk. specialize (IH Hk). set_solver.
Qed.

Lemma dict_set_NoDup d (k : string) (x : Node) :
  NoDup (map fst d) -> NoDup (map fst (dict_set d k x)).
Proof.
  intros Hd. rewrite dict_keys_set.
  destruct (dict_mem d k) eqn:Hm; [done|].
  apply NoDup_app. split; [done|]. split; [|apply NoDup_singleton].
  intros y Hy ->%list_elem_of_singleton. by apply (dict_mem_false d k).
Qed.

Lemma bind_arguments_NoDup (self : CompiledFunction) (args : list Node)
    (kwargs d : list (string * Node)) :
  NoDup (map fst kwargs) ->
  bind_arguments self args kwargs = Ok d ->
  NoDup (map fst d).
Proof.
  assert (forall ps args d, NoDup (map fst d)
                            -> NoDup (map fst (bind_positional ps args d)))
    as Hpos.
  { induction ps as [|p ps IH]; intros [|a args'] d0 Hd0; try done.
    rewrite bind_positional_cons. by apply IH, dict_set_NoDup. }
  assert (forall va extra i d, NoDup (map fst d)
                               -> NoDup (map fst (bind_variadic va i extra d)))
    as Hvar.
  { intros va. induction extra as [|a extra IH]; intros i d0 Hd0; [done|].
    simpl. by apply IH, dict_set_NoDup. }
  assert (forall fname ps d d', NoDup (map fst d)
                                -> bind_defaults fname ps d = Ok d'
                                -> NoDup (map fst d')) as Hdef.
  { intros fname. induction ps as [|q ps IH]; intros d0 d' Hd0; simpl.
    - by intros [= <-].
    - destruct (dict_mem d0 (p_name q)); [by apply IH|].
      destruct (p_default q); [|done]. by apply IH, dict_set_NoDup. }
  intros Hkw. unfold bind_arguments.
  destruct (Nat.ltb _ _).
  - destruct (truthy_name _) as [va|]; [|done]. simpl.
    apply Hdef. by apply Hvar, Hpos.
  - simpl. apply Hdef. by apply Hpos.
Qed.

(** The one entry of a key in a dictionary. *)
Lemma dict_get_split d (k : string) (a : Node) :
  NoDup (map fst d) -> dict_get d k = Some a ->
  exists d1 d2,
    d = d1 ++ (k, a) :: d2 /\ k ∉ map fst d1 /\ k ∉ map fst d2.
Proof.
  induction d as [|[k0 v0] d IH]; simpl; [done|].
  intros [Hk0 Hd]%NoDup_cons.
  destruct (String.eqb_spec k0 k) as [->|Hne].
  - intros [= ->]. exists [], d. split; [done|]. split; [set_solver|done].
  - intros Hget. destruct (IH Hd Hget) as (d1 & d2 & -> & H1 & H2).
    exists ((k0, v0) :: d1), d2. split; [done|]. split; [|done].
    simpl. set_solver.
Qed.

(** Overwriting the value of a key leaves no trace of the old value. *)
Lemma dict_set_overwrites_values P d (k : string) (x : Node) :
  NoDup (map fst d) ->
  Forall (fun kv => fst kv <> k -> P (snd kv)) d -> P x ->
  Forall (fun kv => P (snd kv)) (dict_set d k x).
Proof.
  intros Hnd Hd Hx. induction d as [|[k0 v0] d IH]; simpl.
  - by constructor.
  - simpl in Hnd. apply NoDup_cons in Hnd as [Hk0 Hnd].
    apply Forall_cons in Hd as [Hv0 Hd]. simpl in Hv0.
    destruct (String.eqb_spec k0 k) as [->|Hne].
    + constructor; [done|].
      apply Forall_forall. intros [k1 v1] Hin.
      rewrite Forall_forall in Hd. apply (Hd (k1, v1) Hin). simpl.
      intros ->. apply Hk0. apply list_elem_of_fmap. by exists (k, v1).
    + constructor; [by apply Hv0|by apply IH].
Qed.

(** A call raises nothing when none of its four checks fails: the surplus
    arguments have a variadic parameter to go to, no parameter is left
    without a value, the placeholders of the body are resolved, and every
    bound value can be assigned.  It returns the assignments of the bound
    names, in the order of the dictionary, followed by the body. *)
Lemma call_Ok (self : CompiledFunction) (args : list Node)
    (kwargs : list (string * Node)) (body : Node) :
  (length (params (fn_params self)) < length args ->
   truthy_name (va_args (fn_params self)) <> None) ->
  Forall (fun q => dict_mem kwargs (p_name q) = true \/ p_default q <> None)
    (drop (length args) (params (fn_params self))) ->
  (if Nat.ltb (length (params (fn_params self))) (length args)
   then _resolve_starred self (fn_node self)
          (length args - length (params (fn_params self)))
   else Ok (fn_node self)) = Ok body ->
  Forall (fun x => ends_in_empty x = false) args ->
  Forall (fun kv => ends_in_empty (snd kv) = false) kwargs ->
  Forall (fun q => forall dflt, p_default q = Some dflt
                                -> ends_in_empty dflt = false)
    (params (fn_params self)) ->
  exists d assigns,
    bind_arguments self args kwargs = Ok d
    /\ Forall2 (fun kv x => F.Assign (param self (fst kv)) (snd kv) = Ok x)
         d assigns
    /\ call self args kwargs = Ok (F.Execute (assigns ++ [body])).
Proof.
  intros Hva Hmiss Hbody Hargs Hkw Hdef.
  destruct (bind_arguments_Ok self args kwargs Hva Hmiss) as [d Hd].
  pose proof (bind_arguments_values (fun x => ends_in_empty x = false)
                self args kwargs d Hargs Hkw Hdef Hd) as Hvalues.
  destruct (mapM_Assign_Ok self d Hvalues) as [assigns Hassigns].
  exists d, assigns. split; [done|].
  split; [by apply mapM_Ok_Forall2|].
  unfold call. rewrite Hd. simpl. rewrite Hbody. simpl.
  by rewrite Hassigns.
Qed.

(** C9: a call that passes a value for a declared parameter both by
    position and by keyword raises no error, where none of the other
    checks of [call] fails either: a variadic parameter takes the surplus
    arguments, if there are any; every parameter that no positional
    argument reaches has a keyword argument or a default; the placeholders
    of the body are resolved; and the values to bind, the discarded keyword
    value apart, can be assigned.  The call returns the assignments of the
    bound names followed by the body; exactly one of them is for the
    register of the parameter, and it assigns the positional value.  The
    keyword value has no part in the result, which is the same for any
    other value. *)
Theorem C9_positional_overwrites_keyword (self : CompiledFunction)
    (args : list Node) (kwargs : list (string * Node)) (i : nat) (p : Param)
    (a body : Node) :
  NoDup (map p_name (params (fn_params self))) ->
  has_dollar (p_name p) = false ->
  params (fn_params self) !! i = Some p ->
  args !! i = Some a ->
  dict_mem kwargs (p_name p) = true ->
  NoDup (map fst kwargs) ->
  (length (params (fn_params self)) < length args ->
   truthy_name (va_args (fn_params self)) <> None) ->
  Forall (fun q => dict_mem kwargs (p_name q) = true \/ p_default q <> None)
    (drop (length args) (params (fn_params self))) ->
  (if Nat.ltb (length (params (fn_params self))) (length args)
   then _resolve_starred self (fn_node self)
          (length args - length (params (fn_params self)))
   else Ok (fn_node self)) = Ok body ->
  Forall (fun x => ends_in_empty x = false) args ->
  Forall (fun kv => fst kv <> p_name p -> ends_in_empty (snd kv) = false)
    kwargs ->
  Forall (fun q => forall dflt, p_default q = Some dflt
                                -> ends_in_empty dflt = false)
    (params (fn_params self)) ->
  (exists (d1 d2 : list (string * Node)) (assigns1 : list Node) (s : Node)
          (assigns2 : list Node),
      call self args kwargs
      = Ok (F.Execute (assigns1 ++ s :: assigns2 ++ [body]))
      /\ F.Assign (param self (p_name p)) a = Ok s
      /\ Forall2 (fun kv x => F.Assign (param self (fst kv)) (snd kv) = Ok x)
           d1 assigns1
      /\ Forall2 (fun kv x => F.Assign (param self (fst kv)) (snd kv) = Ok x)
           d2 assigns2
      /\ p_name p ∉ map fst d1
      /\ p_name p ∉ map fst d2)
  /\ (forall v', call self args (dict_set kwargs (p_name p) v')
                 = call self args kwargs).
Proof.
  intros Hnd Hdollar Hp Ha Hm Hkw Hva Hmiss Hbody Hargs Hvalues Hdef.
  destruct (keyword_for_bound_parameter_is_discarded self args kwargs i p a
              Hnd Hdollar Hp Ha Hm) as [Hany _].
  split; [|exact Hany].
  set (kwargs' := dict_set kwargs (p_name p) a).
  assert (ends_in_empty a = false) as Hassignable.
  { rewrite Forall_forall in Hargs. apply Hargs.
    by eapply list_elem_of_lookup_2. }
  assert (Forall (fun q => dict_mem kwargs' (p_name q) = true
                           \/ p_default q <> None)
            (drop (length args) (params (fn_params self)))) as Hmiss'.
  { eapply Forall_impl; [exact Hmiss|]. simpl.
    intros q [Hq|Hq]; [left|by right]. by apply dict_mem_set_other. }
  assert (Forall (fun kv => ends_in_empty (snd kv) = false) kwargs')
    as Hvalues'.
  { by apply (dict_set_overwrites_values (fun x => ends_in_empty x = false)). }
  destruct (call_Ok self args kwargs' body Hva Hmiss' Hbody Hargs Hvalues'
              Hdef) as (d & assigns & Hd & HF & Hcall).
  assert (dict_mem kwargs' (p_name p) = true) as Hm'
    by apply dict_mem_set_same.
  destruct (keyword_for_bound_parameter_is_discarded self args kwargs' i p a
              Hnd Hdollar Hp Ha Hm') as [_ Hget].
  specialize (Hget d Hd).
  pose proof (bind_arguments_NoDup self args kwargs' d
                (dict_set_NoDup kwargs (p_name p) a Hkw) Hd) as Hkeys.
  destruct (dict_get_split d (p_name p) a Hkeys Hget)
    as (d1 & d2 & -> & H1 & H2).
  apply Forall2_app_inv_l in HF as (assigns1 & rest & HF1 & HF2 & ->).
  apply Forall2_cons_inv_l in HF2 as (s & assigns2 & Hs & HF2 & ->).
  exists d1, d2, assigns1, s, assigns2.
  split; [|done].
  rewrite <- (Hany a). fold kwargs'. rewrite Hcall.
  by rewrite <- app_assoc.
Qed.

Lemma C9_positional_overwrites_keyword_witness :
  (exists (d1 d2 : list (string * Node)) (assigns1 : list Node) (s : Node)
          (assigns2 : list Node),
      call Examples.unary_function [RefNode "pos"] [("x", F.empty)]
      = Ok (F.Execute
              (assigns1 ++ s :: assigns2
                 ++ [FunctionNode "Abs" [RefNode "m$h$x"]]))
      /\ F.Assign (param Examples.unary_function "x") (RefNode "pos") = Ok s
      /\ Forall2 (fun kv x =>
                    F.Assign (param Examples.unary_function (fst kv)) (snd kv)
                    = Ok x) d1 assigns1
      /\ Forall2 (fun kv x =>
                    F.Assign (param Examples.unary_function (fst kv)) (snd kv)
                    = Ok x) d2 assigns2
      /\ "x" ∉ map fst d1
      /\ "x" ∉ map fst d2)
  /\ (forall v', call Examples.unary_function [RefNode "pos"]
                   (dict_set [("x", F.empty)] "x" v')
                 = call Examples.unary_function [RefNode "pos"]
                     [("x", F.empty)]).
Proof.
  apply (C9_positional_overwrites_keyword Examples.unary_function
           [RefNode "pos"] [("x", F.empty)] 0 (mkParam "x" None)
           (RefNode "pos") (FunctionNode "Abs" [RefNode "m$h$x"])).
  - simpl. apply NoDup_cons. split; [set_solver|apply NoDup_nil_2].
  - reflexivity.
  - reflexivity.
  - reflexivity.
  - reflexivity.
  - simpl. apply NoDup_cons. split; [set_solver|apply NoDup_nil_2].
  - simpl. lia.
  - simpl. apply Forall_nil_2.
  - reflexivity.
  - repeat constructor.
  - repeat constructor. simpl. intros H. by destruct H.
  - repeat constructor. simpl. intros dflt H. discriminate H.
Defined.

End PositionalOverKeyword.

Section NestedPlaceholder.

Import CompiledFunction.

(** What the specification describes, where the code does it: a body that
    is a built-in call with at most one argument before the nested
    placeholder.  The surplus arguments are bound to the names [va$1],
    [va$2], ... in the order they are passed, and the body emitted after
    the assignments is the right fold of binary applications of the call
    over the registers of these names, taken as the second argument when
    the call has a first one. *)
Lemma call_expands_nested_placeholder (self : CompiledFunction)
    (op : string) (pre args : list Node) (kwargs d : list (string * Node))
    (assigns : list Node) (va : string) (n : nat) :
  fn_node self = FunctionNode op (pre ++ [StarredNode true]) ->
  truthy_name (va_args (fn_params self)) = Some va ->
  length args = length (params (fn_params self)) + S n ->
  bind_arguments self args kwargs = Ok d ->
  mapM (fun kv => F.Assign (param self (fst kv)) (snd kv)) d = Ok assigns ->
  call self args kwargs
  = Ok (F.Execute
          (assigns
             ++ [let reg := fun i =>
                       RefNode (param self
                                  (va +:+ "$" +:+ str_of_nat (i + 1))) in
                 let nested :=
                   right_fold (fun a b => FunctionNode op [a; b])
                     (reg 0) (map reg (seq 1 n)) in
                 match pre with
                 | [] => nested
                 | arg0 :: _ => FunctionNode op [arg0; nested]
                 end]))
  /\ (forall i a,
         args !! (length (params (fn_params self)) + i) = Some a ->
         dict_get d (va +:+ "$" +:+ str_of_nat (i + 1)) = Some a).
Proof.
  intros Hnode Hva Hlen Hd Hassigns. split.
  - unfold call. rewrite Hd. simpl.
    assert (Nat.ltb (length (params (fn_params self))) (length args) = true)
      as -> by (apply Nat.ltb_lt; lia).
    replace (length args - length (params (fn_params self))) with (S n)
      by lia.
    rewrite Hnode, _resolve_starred_nested_FunctionNode. simpl.
    rewrite Hassigns. simpl.
    rewrite (va_ref_named self va 0 Hva).
    rewrite (map_ext (va_ref self)
               (fun i => RefNode (param self
                                    (va +:+ "$" +:+ str_of_nat (i + 1)))))
      by (intros i; by apply va_ref_named).
    done.
  - intros i a Ha. by eapply bind_arguments_surplus.
Qed.

(** The defect: whatever stands between the first argument and the nested
    placeholder is dropped.  The branch for the placeholder that is not
    nested keeps all of [node.args[:-1]]; this one keeps [node.args[0]]
    only. *)
Lemma nested_placeholder_keeps_first_argument_only (self : CompiledFunction)
    (op : string) (arg0 : Node) (mid : list Node) (n : nat) :
  _resolve_starred self
    (FunctionNode op (arg0 :: mid ++ [StarredNode true])) (S n)
  = _resolve_starred self (FunctionNode op [arg0; StarredNode true]) (S n).
Proof.
  change (arg0 :: mid ++ [StarredNode true])
    with ((arg0 :: mid) ++ [StarredNode true]).
  change [arg0; StarredNode true] with ([arg0] ++ [StarredNode true]).
  by rewrite !_resolve_starred_nested_FunctionNode.
Qed.

(** A call with the nested placeholder that is an argument of another
    built-in call is expanded too. *)
Lemma call_expands_nested_placeholder_in_argument :
  call Examples.abs_of_max [RefNode "a"; RefNode "b"; RefNode "c"] []
  = Ok (ExecuteNode
          [AssignNode "m$f$args$1" (RefNode "a");
           AssignNode "m$f$args$2" (RefNode "b");
           AssignNode "m$f$args$3" (RefNode "c");
           FunctionNode "Abs"
             [FunctionNode "Max"
                [RefNode "m$f$args$1";
                 FunctionNode "Max"
                   [RefNode "m$f$args$2"; RefNode "m$f$args$3"]]]]).
Proof. reflexivity. Qed.

(** Below a [Set] it is not: [SetNode] inherits the [apply] that returns
    the node as it is, and the placeholder stays in the tree without any
    error. *)
Lemma nested_placeholder_below_Set_is_kept :
  call Examples.store_max [RefNode "a"; RefNode "b"] []
  = Ok (ExecuteNode
          [AssignNode "m$f$args$1" (RefNode "a");
           AssignNode "m$f$args$2" (RefNode "b");
           SetNode 0 0 (ValueNode 0%float)
             (FunctionNode "Max" [StarredNode true])]).
Proof. reflexivity. Qed.

(** C4: the specification has the nested placeholder replaced by the right
    fold of binary applications of the surrounding call over the bound
    variadic registers.  For [Add(a, b, ...)] called with four arguments,
    two of them surplus, the code binds the four registers and emits
    [Add(a, Add(args$1, args$2))]: the placeholder is replaced by the fold,
    and the argument [b] before it is dropped from the call. *)
Theorem C4_arguments_before_nested_placeholder_are_dropped :
  call Examples.sum_from
    [ValueNode 1%float; ValueNode 2%float; ValueNode 3%float;
     ValueNode 4%float] []
  = Ok (ExecuteNode
          [AssignNode "m$f$a" (ValueNode 1%float);
           AssignNode "m$f$b" (ValueNode 2%float);
           AssignNode "m$f$args$1" (ValueNode 3%float);
           AssignNode "m$f$args$2" (ValueNode 4%float);
           FunctionNode "Add"
             [RefNode "m$f$a";
              FunctionNode "Add"
                [RefNode "m$f$args$1"; RefNode "m$f$args$2"]]]).
Proof. reflexivity. Qed.

End NestedPlaceholder.

(** * Further properties of the linker *)

Section LinkRestores.

Lemma restores_bind {A B} (c : stateM (gset string) A)
    (k : A -> stateM (gset string) B) :
  restores c -> (forall a, restores (k a)) -> restores (c ≫= k).
Proof.
  intros Hc Hk R. rewrite stateM_bind_run.
  specialize (Hc R). destruct (c R) as [[a R1]|e]; [|done].
  subst R1. apply Hk.
Qed.

Lemma restores_ret {A} (a : A) : restores (mret a : stateM (gset string) A).
Proof. by intros R. Qed.

Lemma restores_lift {A} (r : result A) :
  restores (lift_result r : stateM (gset string) A).
Proof. intros R. unfold lift_result. by destruct r. Qed.

Lemma restores_mapM {A B} (f : A -> stateM (gset string) B) (l : list A) :
  Forall (fun x => restores (f x)) l -> restores (mapM f l).
Proof.
  induction 1 as [|x l Hx _ IH]; simpl; [apply restores_ret|].
  apply restores_bind; [done|]. intros y.
  apply restores_bind; [done|]. intros ys. apply restores_ret.
Qed.

Lemma restores_mapM_items {K A B} (f : A -> stateM (gset string) B)
    (l : list (K * A)) :
  Forall (fun kv => restores (f (snd kv))) l -> restores (mapM_items f l).
Proof.
  induction 1 as [|[k x] l Hx _ IH]; simpl; [apply restores_ret|].
  apply restores_bind; [done|]. intros y.
  apply restores_bind; [done|]. intros ys. apply restores_ret.
Qed.

Lemma _link_restores (depth : nat) (self : CompileOutput) :
  forall node : Node, restores (CompileOutput._link depth self node).
Proof.
  induction depth as [|depth IHd]; [by intros node R|].
  intros node.
  induction node using Node_nested_ind; rewrite _link_unfold; simpl.
  - apply restores_ret.
  - apply restores_bind; [by apply restores_mapM|].
    intros. apply restores_ret.
  - apply restores_ret.
  - apply restores_bind; [done|]. intros. apply restores_lift.
  - apply restores_ret.
  - apply restores_ret.
  - apply restores_bind; [by apply restores_mapM|].
    intros. apply restores_ret.
  - apply restores_bind; [by apply restores_mapM|]. intros args'.
    apply restores_bind; [by apply restores_mapM_items|]. intros kwargs'.
    intros R. rewrite stateM_bind_run. simpl.
    destruct (decide (name ∈ R)) as [Hin|Hnotin]; [done|].
    rewrite stateM_bind_run. simpl.
    rewrite stateM_bind_run. unfold lift_result at 1.
    destruct (CompileOutput.lookup_function self name) as [f|e]; [|done].
    rewrite stateM_bind_run. unfold lift_result at 1.
    destruct (Function_call f args' kwargs') as [body|e]; [|done].
    rewrite stateM_bind_run.
    specialize (IHd body ({[name]} ∪ R)).
    destruct (CompileOutput._link depth self body ({[name]} ∪ R))
      as [[r R']|e]; [|done].
    subst R'. simpl. set_solver.
  - apply restores_ret.
  - apply restores_bind; [done|]. intros.
    apply restores_bind; [done|]. intros.
    apply restores_bind; [done|]. intros. apply restores_ret.
  - apply restores_bind; [done|]. intros.
    apply restores_bind; [done|]. intros. apply restores_ret.
Qed.

(** Whenever the linker returns from a node, the set of names being
    inlined is what it was before: a name is in the set only while the body
    of that function is being linked, so that calling one function at
    several call sites is not taken for recursion. *)
Theorem link_restores_names_being_inlined (depth : nat)
    (self : CompileOutput) (node r : Node) (R R' : gset string) :
  CompileOutput._link depth self node R = Ok (r, R') -> R' = R.
Proof.
  intros H. pose proof (_link_restores depth self node R) as Hr.
  by rewrite H in Hr.
Qed.

End LinkRestores.

Section LinkWitnesses.

Lemma link_restores_names_being_inlined_witness :
  (∅ : gset string) = ∅.
Proof.
  eapply (link_restores_names_being_inlined 3 Examples.two_call_sites
            (CallNode "m.h" [CallNode "m.h" [ValueNode 2%float] []] [])
            _ ∅ ∅).
  vm_compute. reflexivity.
Defined.

Lemma link_ends_and_inlines_visible_calls_witness :
  match CompileOutput.link 3 Examples.two_call_sites with
  | Ok node =>
      visible_calls node = 0
      /\ (has_get_set node = false -> count_calls node = 0)
  | Err e => e <> OutOfFuel
  end.
Proof.
  apply (link_ends_and_inlines_visible_calls 3 Examples.two_call_sites).
  vm_compute. lia.
Defined.

End LinkWitnesses.

(** * Further properties of the tree IR and of flows *)

Section AssignAndExecute.

(** [F.Assign] raises, and then the [IndexError] of indexing an empty
    list, exactly when the value assigned is that of an empty sequence;
    this is so for [F.empty]. *)
Theorem Assign_raises_iff_value_ends_in_empty (name : string)
    (value : Node) :
  (F.Assign name value = Err (IndexError "list index out of range")
   <-> ends_in_empty value = true)
  /\ (forall e, F.Assign name value = Err e
                -> e = IndexError "list index out of range").
Proof.
  split; [apply F_Assign_raises_iff|intros e; apply F_Assign_Err].
Qed.

Lemma Execute_loop_acc (nodes : list Node) :
  forall acc, F.Execute_loop nodes acc = acc ++ F.Execute_loop nodes [].
Proof.
  induction nodes as [|x nodes IH]; intros acc; simpl.
  - by rewrite app_nil_r.
  - destruct (F.empty_node x); [apply IH|].
    assert (forall ns, F.Execute_loop nodes (acc ++ ns)
                       = acc ++ F.Execute_loop nodes ns) as Hns.
    { intros ns. rewrite (IH (acc ++ ns)), (IH ns). by rewrite app_assoc. }
    destruct x; apply Hns.
Qed.

Lemma Execute_loop_app (l1 l2 : list Node) :
  F.Execute_loop (l1 ++ l2) []
  = F.Execute_loop l1 [] ++ F.Execute_loop l2 [].
Proof.
  induction l1 as [|x l1 IH]; simpl; [done|].
  destruct (F.empty_node x); [done|].
  assert (forall ns, F.Execute_loop (l1 ++ l2) ns
                     = F.Execute_loop l1 ns ++ F.Execute_loop l2 []) as Hns.
  { intros ns. rewrite (Execute_loop_acc (l1 ++ l2)), IH.
    rewrite (Execute_loop_acc l1 ns). by rewrite app_assoc. }
  destruct x; apply Hns.
Qed.

Lemma Execute_loop_Execute (l : list Node) :
  F.Execute_loop [F.Execute l] [] = F.Execute_loop l [].
Proof.
  destruct l as [|x [|y l]]; [done|done|].
  unfold F.Execute.
  generalize (F.Execute_loop (x :: y :: l) []). intros L.
  simpl. by destruct L.
Qed.

(** Sequencing is associative: [F.Execute] applied to two sequences built
    by [F.Execute] is [F.Execute] applied to all their arguments, unless
    there is a single argument in all, which [F.Execute] returns as it
    is. *)
Theorem Execute_of_Executes (l1 l2 : list Node) :
  length (l1 ++ l2) <> 1 ->
  F.Execute [F.Execute l1; F.Execute l2] = F.Execute (l1 ++ l2).
Proof.
  intros Hlen.
  assert (F.Execute (l1 ++ l2) = ExecuteNode (F.Execute_loop (l1 ++ l2) []))
    as ->.
  { destruct (l1 ++ l2) as [|x [|y l]]; done. }
  change (F.Execute [F.Execute l1; F.Execute l2])
    with (ExecuteNode
            (F.Execute_loop ([F.Execute l1] ++ [F.Execute l2]) [])).
  by rewrite !Execute_loop_app, !Execute_loop_Execute.
Qed.

Lemma Execute_of_Executes_witness :
  F.Execute [F.Execute [RefNode "a"; ExecuteNode []];
             F.Execute [ExecuteNode [RefNode "b"; RefNode "c"]]]
  = F.Execute ([RefNode "a"; ExecuteNode []]
                 ++ [ExecuteNode [RefNode "b"; RefNode "c"]]).
Proof.
  apply (Execute_of_Executes [RefNode "a"; ExecuteNode []]
           [ExecuteNode [RefNode "b"; RefNode "c"]]).
  simpl. lia.
Defined.

End AssignAndExecute.

Section FlowSequences.

Lemma attach_ExecuteFlow_None (nodes : list Block) (flow : Flow) :
  items (Flow.attach (ExecuteFlow nodes None) flow)
  = map BlockItem nodes ++ items flow.
Proof.
  destruct flow; simpl; [|done..].
  by rewrite map_app, <- app_assoc.
Qed.

(** Attaching a flow to another one appends what it executes: the result
    executes what the first flow does, then what the second does. *)
Theorem items_attach (a b : Flow) :
  items (Flow.attach a b) = items a ++ items b.
Proof.
  induction a as [nodes next IHn|r c cases d next IHc IHd IHn
                  |c body next IHb IHn] using Flow_nested_ind.
  - destruct next as [n|].
    + simpl. rewrite (IHn n eq_refl). by rewrite app_assoc.
    + rewrite attach_ExecuteFlow_None. simpl. by rewrite app_nil_r.
  - simpl. f_equal. destruct next as [n|]; [by apply IHn|done].
  - simpl. f_equal. destruct next as [n|]; [by apply IHn|done].
Qed.

(** [attach] is associative. *)
Theorem attach_assoc (a b f : Flow) :
  Flow.attach (Flow.attach a b) f = Flow.attach a (Flow.attach b f).
Proof.
  induction a as [nodes next IHn|r c cases d next IHc IHd IHn
                  |c body next IHb IHn] using Flow_nested_ind.
  - destruct next as [n|].
    + simpl. by rewrite (IHn n eq_refl).
    + destruct b as [nodes' [n'|]| |]; simpl; try done.
      destruct f; simpl; try done. by rewrite app_assoc.
  - simpl. do 2 f_equal. destruct next as [n|]; [by apply IHn|done].
  - simpl. do 2 f_equal. destruct next as [n|]; [by apply IHn|done].
Qed.

End FlowSequences.

Section SetResult.

(** [set_result] makes the flow end with an assignment to the result
    register, unless a loop stands on the chain of the flow: then the flow
    is returned as it is and the register is never assigned.  The one
    exception it raises is the [IndexError] of an empty last block. *)
Theorem set_result_assigns_unless_loop (f : Flow) (name : string) :
  match Flow.set_result f name with
  | Ok f' =>
      if loop_on_chain f then f' = f
      else exists (pre : list Item) (e : Expr),
          items f'
          = pre ++ [BlockItem (OfStatement (Fl.Assign name (ExprVal e)))]
  | Err e =>
      e = IndexError "list index out of range" /\ loop_on_chain f = false
  end.
Proof.
  induction f as [nodes next IHn|r c cases d next IHc IHd IHn
                  |c body next IHb IHn] using Flow_nested_ind.
  - destruct next as [n|]; simpl.
    + specialize (IHn n eq_refl).
      destruct (Flow.set_result n name) as [n'|e]; simpl; [|done].
      destruct (loop_on_chain n); [by rewrite IHn|].
      destruct IHn as (pre & e & H). exists (map BlockItem nodes ++ pre), e.
      simpl. by rewrite H, app_assoc.
    + destruct (last nodes) as [[e|s]|] eqn:Hlast; [| |done].
      * exists (map BlockItem (removelast nodes)), e.
        simpl. by rewrite app_nil_r, map_app.
      * exists (map BlockItem nodes), (Fl.Value 0%float).
        simpl. by rewrite app_nil_r, map_app.
  - destruct next as [n|]; simpl.
    + specialize (IHn n eq_refl).
      destruct (Flow.set_result n name) as [n'|e]; simpl; [|done].
      destruct (loop_on_chain n); [by rewrite IHn|].
      destruct IHn as (pre & e & H). eexists (_ :: pre), e.
      simpl. by rewrite H.
    + eexists [_], (RefExpr r). done.
  - done.
Qed.

End SetResult.

(** * Properties of the passes on execute flows *)

Section OptimizerTraversal.

Lemma mapM_id {A} (f : A -> result A) (l : list A) :
  Forall (fun x => f x = Ok x) l -> mapM f l = Ok l.
Proof.
  induction 1 as [|x l Hx _ IH]; simpl; [done|]. by rewrite Hx, IH.
Qed.

(** An optimizer without a method for expressions returns them as they
    are. *)
Lemma Optimizer_optimize_Expr (e : Expr) : Optimizer.optimize_Expr e = Ok e.
Proof.
  induction e using Expr_nested_ind; simpl; try done.
  - by rewrite mapM_id.
  - by rewrite IHe.
Qed.

Lemma Optimizer_on_val (v : Val) : on_val Optimizer.optimize_Expr v = Ok v.
Proof. destruct v; simpl; by rewrite ?Optimizer_optimize_Expr. Qed.

Lemma mapM_fst_id (cases : list (Expr * Flow)) :
  mapM (fun c => Optimizer.optimize_Expr (fst c)) cases
  = Ok (map fst cases).
Proof.
  induction cases as [|c cases IH]; simpl; [done|].
  by rewrite Optimizer_optimize_Expr, IH.
Qed.

(** The image of a switch or a loop under [apply], when the callback
    returns for every flow below it a flow related to it by [Q]. *)
Lemma Flow_apply_SwitchFlow (Q : Flow -> Flow -> Prop)
    (on_block : Block -> result Block) (on_flow : Flow -> result Flow)
    (r : string) (c : Val) (cases : list (Expr * Flow))
    (d next : option Flow) :
  Forall (fun cb => exists b', on_flow (snd cb) = Ok b' /\ Q (snd cb) b')
    cases ->
  (forall x, d = Some x -> exists x', on_flow x = Ok x' /\ Q x x') ->
  (forall x, next = Some x -> exists x', on_flow x = Ok x' /\ Q x x') ->
  exists cases' d' next',
    Flow_apply Optimizer.optimize_Expr on_block on_flow
      (SwitchFlow r c cases d next)
    = Ok (SwitchFlow r c cases' d' next')
    /\ Forall2 (fun cb cb' => fst cb' = fst cb /\ Q (snd cb) (snd cb'))
         cases cases'
    /\ option_Forall2 Q d d'
    /\ option_Forall2 Q next next'.
Proof.
  intros Hcases Hd Hnext. simpl.
  rewrite mapM_fst_id. simpl. rewrite Optimizer_on_val. simpl.
  assert (exists cases',
             (fix bodies (cases : list (Expr * Flow)) (cases' : list Expr)
                : result (list (Expr * Flow)) :=
                match cases, cases' with
                | (_, body) :: rest, case' :: rest' =>
                    body' ← on_flow body;
                    tail ← bodies rest rest';
                    Ok ((case', body') :: tail)
                | _, _ => Ok []
                end) cases (map fst cases) = Ok cases'
             /\ Forall2 (fun cb cb' => fst cb' = fst cb
                                       /\ Q (snd cb) (snd cb'))
                  cases cases') as (cases' & -> & HF).
  { induction Hcases as [|[e b] cases (b' & Hb & HQ) _ (cases' & IH & HF)].
    - exists []. by split; [|constructor].
    - exists ((e, b') :: cases'). simpl in *. rewrite Hb. simpl.
      rewrite IH. simpl. split; [done|]. by constructor. }
  simpl.
  assert (forall o, (forall x, o = Some x ->
                       exists x', on_flow x = Ok x' /\ Q x x') ->
                    exists o', and_then on_flow o = Ok o'
                               /\ option_Forall2 Q o o') as Hopt.
  { intros [x|] Hx; simpl.
    - destruct (Hx x eq_refl) as (x' & -> & HQ). simpl.
      exists (Some x'). split; [done|by constructor].
    - exists None. split; [done|constructor]. }
  destruct (Hopt d Hd) as (d' & -> & HQd).
  destruct (Hopt next Hnext) as (next' & -> & HQn). simpl.
  by exists cases', d', next'.
Qed.

Lemma Flow_apply_LoopFlow (Q : Flow -> Flow -> Prop)
    (on_block : Block -> result Block) (on_flow : Flow -> result Flow)
    (c : Expr) (body : Flow) (next : option Flow) :
  (exists b', on_flow body = Ok b' /\ Q body b') ->
  (forall x, next = Some x -> exists x', on_flow x = Ok x' /\ Q x x') ->
  exists body' next',
    Flow_apply Optimizer.optimize_Expr on_block on_flow
      (LoopFlow c body next)
    = Ok (LoopFlow c body' next')
    /\ Q body body'
    /\ option_Forall2 Q next next'.
Proof.
  intros (b' & Hb & HQ) Hnext. simpl.
  rewrite Optimizer_optimize_Expr. simpl. rewrite Hb. simpl.
  destruct next as [x|]; simpl.
  - destruct (Hnext x eq_refl) as (x' & -> & HQx). simpl.
    exists b', (Some x'). split; [done|]. split; [done|by constructor].
  - exists b', None. split; [done|]. split; [done|constructor].
Qed.

Lemma and_then_Q (Q : Flow -> Flow -> Prop) (on_flow : Flow -> result Flow)
    (o : option Flow) :
  (forall x, o = Some x -> exists x', on_flow x = Ok x' /\ Q x x') ->
  exists o', and_then on_flow o = Ok o' /\ option_Forall2 Q o o'.
Proof.
  intros Hx. destruct o as [x|]; simpl.
  - destruct (Hx x eq_refl) as (x' & -> & HQ). simpl.
    exists (Some x'). split; [done|by constructor].
  - exists None. split; [done|constructor].
Qed.

Lemma items_cases_Forall2 (cases cases' : list (Expr * Flow)) :
  Forall2 (fun cb cb' => fst cb' = fst cb
                         /\ items (snd cb') = items (snd cb)) cases cases' ->
  map (fun c => (fst c, items (snd c))) cases'
  = map (fun c => (fst c, items (snd c))) cases.
Proof.
  induction 1 as [|cb cb' l l' [Hf Hi] _ IH]; simpl; [done|].
  by rewrite Hf, Hi, IH.
Qed.

Lemma items_option_Forall2 (o o' : option Flow) :
  option_Forall2 (fun x x' => items x' = items x) o o' ->
  match o' with Some n => items n | None => [] end
  = match o with Some n => items n | None => [] end.
Proof. by destruct 1. Qed.

Lemma items_option_Forall2_Some (o o' : option Flow) :
  option_Forall2 (fun x x' => items x' = items x) o o' ->
  match o' with Some d => Some (items d) | None => None end
  = match o with Some d => Some (items d) | None => None end.
Proof. destruct 1; [by f_equal|done]. Qed.

End OptimizerTraversal.

Section MergeExecuteProperties.

(** [MergeExecute] raises nothing, and the flow it returns executes what
    the given flow executes: only the division into execute blocks
    changes. *)
Theorem MergeExecute_keeps_items (f : Flow) :
  exists f', MergeExecute.optimize f = Ok f' /\ items f' = items f.
Proof.
  set (T := fun f => exists f',
                 MergeExecute.optimize f = Ok f' /\ items f' = items f).
  enough (T f /\ forall n, next_of f = Some n -> T n) as [H _] by exact H.
  induction f as [nodes next IHn|r c cases d next IHc IHd IHn
                  |c body next IHb IHn] using Flow_nested_ind;
    (split; [|simpl; intros n Hn; by apply IHn]).
  - destruct next as [[nodes' next'| |]|].
    + destruct (IHn _ eq_refl) as [_ Hnext]. simpl in Hnext.
      destruct (and_then_Q (fun x x' => items x' = items x)
                  MergeExecute.optimize next' Hnext) as (o' & Ho & HQ).
      unfold T. simpl. rewrite Ho. simpl. eexists. split; [done|].
      simpl. rewrite map_app, <- app_assoc. f_equal. f_equal.
      by apply items_option_Forall2.
    + destruct (IHn _ eq_refl) as [(n' & Hn' & Hi) _].
      unfold T. simpl in *. rewrite Hn'. simpl. eexists. split; [done|].
      simpl. by rewrite Hi.
    + destruct (IHn _ eq_refl) as [(n' & Hn' & Hi) _].
      unfold T. simpl in *. rewrite Hn'. simpl. eexists. split; [done|].
      simpl. by rewrite Hi.
    + unfold T. simpl. eexists. split; done.
  - destruct (Flow_apply_SwitchFlow (fun x x' => items x' = items x)
                Optimizer.optimize_Block MergeExecute.optimize
                r c cases d next)
      as (cases' & d' & next' & Hf & Hc & Hd & Hn).
    + eapply Forall_impl; [exact IHc|]. simpl. by intros cb [HT _].
    + intros x Hx. by apply IHd.
    + intros x Hx. by apply IHn.
    + unfold T. exists (SwitchFlow r c cases' d' next').
      split; [exact Hf|]. simpl.
      by rewrite (items_cases_Forall2 _ _ Hc),
           (items_option_Forall2_Some _ _ Hd), (items_option_Forall2 _ _ Hn).
  - destruct (Flow_apply_LoopFlow (fun x x' => items x' = items x)
                Optimizer.optimize_Block MergeExecute.optimize
                c body next)
      as (body' & next' & Hf & Hb & Hn).
    + by destruct IHb.
    + intros x Hx. by apply IHn.
    + unfold T. exists (LoopFlow c body' next').
      split; [exact Hf|]. simpl.
      by rewrite Hb, (items_option_Forall2 _ _ Hn).
Qed.

End MergeExecuteProperties.

Section RemoveEmptyExecuteProperties.

Lemma mapM_bodies_Q (Q : Flow -> Flow -> Prop)
    (on_flow : Flow -> result Flow) (cases : list (Expr * Flow)) :
  Forall (fun cb => exists b', on_flow (snd cb) = Ok b' /\ Q (snd cb) b')
    cases ->
  exists cases',
    mapM (fun c => body ← on_flow (snd c); Ok (fst c, body)) cases
    = Ok cases'
    /\ Forall2 (fun cb cb' => fst cb' = fst cb /\ Q (snd cb) (snd cb'))
         cases cases'.
Proof.
  induction 1 as [|[e b] cases (b' & Hb & HQ) _ (cases' & IH & HF)].
  - exists []. by split; [|constructor].
  - exists ((e, b') :: cases'). simpl in *. rewrite Hb. simpl.
    rewrite IH. simpl. split; [done|]. by constructor.
Qed.

(** The case where only the continuation is optimized: [IHn] is the
    induction hypothesis for it, [T] and [Q] the local abbreviations. *)
Ltac continuation_only IHn T Q :=
  let n' := fresh "n'" in
  let Hn' := fresh "Hn'" in
  let Hi := fresh "Hi" in
  destruct (IHn _ eq_refl) as [(n' & Hn' & Hi) _];
  unfold T; simpl in *; rewrite Hn'; simpl; eexists; split; [done|];
  unfold Q in *; simpl in *; by rewrite Hi.

(** [RemoveEmptyExecute] raises nothing, and the flow it returns executes
    what the given flow executes. *)
Theorem RemoveEmptyExecute_keeps_items (f : Flow) :
  exists f', RemoveEmptyExecute.optimize f = Ok f' /\ items f' = items f.
Proof.
  set (Q := fun x x' : Flow => items x' = items x).
  set (T := fun f => exists f',
                 RemoveEmptyExecute.optimize f = Ok f' /\ Q f f').
  enough (T f /\ forall n, next_of f = Some n -> T n) as [H _] by exact H.
  assert (forall next : option Flow,
             (forall n, next = Some n ->
                        T n /\ (forall m, next_of n = Some m -> T m)) ->
             forall x, next = Some x -> T x) as Hfst.
  { intros next IHn x Hx. by apply IHn. }
  induction f as [nodes next IHn|r c cases d next IHc IHd IHn
                  |c body next IHb IHn] using Flow_nested_ind;
    (split; [|simpl; intros n Hn; by apply IHn]).
  - destruct nodes as [|b nodes].
    + destruct next as [n|].
      * destruct (IHn _ eq_refl) as [(n' & Hn' & Hi) _].
        exists n'. split; [by destruct n|]. exact Hi.
      * by exists (ExecuteFlow [] None).
    + destruct next as [[[|b' nodes'] next'| |]|];
        [|continuation_only IHn T Q..|by eexists].
      destruct (IHn _ eq_refl) as [_ Hnext]. simpl in Hnext.
      destruct (and_then_Q Q RemoveEmptyExecute.optimize next' Hnext)
        as (o' & Ho & HQ).
      unfold T. simpl. rewrite Ho. simpl. eexists. split; [done|].
      unfold Q. simpl. do 2 f_equal. by apply items_option_Forall2.
  - destruct next as [[[|b' nodes'] next'| |]|];
      [|continuation_only IHn T Q..|by eexists].
    destruct (IHn _ eq_refl) as [_ Hn']. simpl in Hn'.
    destruct (mapM_bodies_Q Q RemoveEmptyExecute.optimize cases)
      as (cases' & Hc & HFc).
    { eapply Forall_impl; [exact IHc|]. simpl. by intros cb [HT _]. }
    destruct (and_then_Q Q RemoveEmptyExecute.optimize d (Hfst d IHd))
      as (d' & Hd & HQd).
    destruct (and_then_Q Q RemoveEmptyExecute.optimize next' Hn')
      as (n' & Hn & HQn).
    unfold T. simpl. rewrite Hc. simpl. rewrite Hd. simpl.
    rewrite Hn. simpl. eexists. split; [done|]. unfold Q. simpl.
    by rewrite (items_cases_Forall2 _ _ HFc),
         (items_option_Forall2_Some _ _ HQd),
         (items_option_Forall2 _ _ HQn).
  - destruct next as [[[|b' nodes'] next'| |]|];
      [|continuation_only IHn T Q..|by eexists].
    destruct (IHn _ eq_refl) as [_ Hn']. simpl in Hn'.
    destruct IHb as [(body' & Hb & HQb) _].
    destruct (and_then_Q Q RemoveEmptyExecute.optimize next' Hn')
      as (n' & Hn & HQn).
    unfold T. simpl. rewrite Hb. simpl. rewrite Hn. simpl.
    eexists. split; [done|]. unfold Q in *. simpl.
    by rewrite HQb, (items_option_Forall2 _ _ HQn).
Qed.

End RemoveEmptyExecuteProperties.

Section EliminationProperties.

Lemma filter_concat {A} (k : A -> bool) (l : list (list A)) :
  List.filter k (concat l) = concat (map (List.filter k) l).
Proof.
  induction l as [|x l IH]; simpl; [done|].
  by rewrite List.filter_app, IH.
Qed.

Lemma blocks_cases_Forall2 (k : Block -> bool)
    (cases cases' : list (Expr * Flow)) :
  Forall2 (fun cb cb' => fst cb' = fst cb
                         /\ blocks (snd cb') = List.filter k (blocks (snd cb)))
    cases cases' ->
  concat (map (fun c => blocks (snd c)) cases')
  = List.filter k (concat (map (fun c => blocks (snd c)) cases)).
Proof.
  induction 1 as [|cb cb' l l' [_ Hb] _ IH]; simpl; [done|].
  by rewrite List.filter_app, Hb, IH.
Qed.

Lemma blocks_option_Forall2 (k : Block -> bool) (o o' : option Flow) :
  option_Forall2 (fun x x' => blocks x' = List.filter k (blocks x)) o o' ->
  match o' with Some n => blocks n | None => [] end
  = List.filter k (match o with Some n => blocks n | None => [] end).
Proof. by destruct 1. Qed.

(** [optimize] for any set [refs] of names: it raises nothing and removes,
    at every depth of the flow, the assignments to the names that are not
    in the set, and nothing else. *)
Lemma UnusedVariableElimination_optimize_blocks
    (refs : gset string) (f : Flow) :
  exists f',
    UnusedVariableElimination.optimize refs f = Ok f'
    /\ blocks f'
       = List.filter
           (fun b => negb (UnusedVariableElimination.unused refs b))
           (blocks f).
Proof.
  set (k := fun b => negb (UnusedVariableElimination.unused refs b)).
  set (Q := fun x x' : Flow => blocks x' = List.filter k (blocks x)).
  induction f as [nodes next IHn|r c cases d next IHc IHd IHn
                  |c body next IHb IHn] using Flow_nested_ind.
  - destruct (and_then_Q Q (UnusedVariableElimination.optimize refs) next IHn)
      as (next' & Hn & HQ).
    simpl. rewrite Hn. simpl. eexists. split; [done|]. simpl.
    by rewrite List.filter_app, (blocks_option_Forall2 k _ _ HQ).
  - destruct (Flow_apply_SwitchFlow Q Optimizer.optimize_Block
                (UnusedVariableElimination.optimize refs) r c cases d next)
      as (cases' & d' & next' & Hf & Hc & Hd & Hn); [done..|].
    exists (SwitchFlow r c cases' d' next'). split; [exact Hf|]. simpl.
    by rewrite !List.filter_app, (blocks_cases_Forall2 k _ _ Hc),
         (blocks_option_Forall2 k _ _ Hd), (blocks_option_Forall2 k _ _ Hn).
  - destruct (Flow_apply_LoopFlow Q Optimizer.optimize_Block
                (UnusedVariableElimination.optimize refs) c body next)
      as (body' & next' & Hf & Hb & Hn); [done..|].
    exists (LoopFlow c body' next'). split; [exact Hf|]. simpl.
    by rewrite List.filter_app, Hb, (blocks_option_Forall2 k _ _ Hn).
Qed.

(** [UnusedVariableElimination], started with the names referenced in the
    flow, raises nothing and removes, at every depth of the flow, the
    assignments to names that are not referenced, and nothing else:
    whatever the value assigned is, a call with an effect included. *)
Theorem UnusedVariableElimination_removes_unused_assignments (f : Flow) :
  exists f',
    UnusedVariableElimination.optimize (UnusedVariableElimination.init f) f
    = Ok f'
    /\ blocks f'
       = List.filter
           (fun b => negb (UnusedVariableElimination.unused
                             (UnusedVariableElimination.init f) b))
           (blocks f).
Proof. apply UnusedVariableElimination_optimize_blocks. Qed.

End EliminationProperties.

Section UselessValueProperties.

Import UselessValueElimination.

Lemma keep_false (nodes : list Block) :
  keep false nodes = List.filter (fun b => negb (useless b)) nodes.
Proof.
  induction nodes as [|b nodes IH]; simpl; [done|].
  rewrite IH. by destruct (useless b).
Qed.

Lemma keep_true_removelast (nodes : list Block) :
  forallb (fun b => negb (useless b)) (removelast (keep true nodes)) = true.
Proof.
  induction nodes as [|b [|b' nodes] IH]; [done|done|].
  change (keep true (b :: b' :: nodes))
    with (if useless b then keep true (b' :: nodes)
          else b :: keep true (b' :: nodes)).
  destruct (useless b) eqn:Hb; [exact IH|].
  revert IH. destruct (keep true (b' :: nodes)) as [|x l]; [done|].
  intros IH.
  change (removelast (b :: x :: l)) with (b :: removelast (x :: l)).
  simpl forallb. simpl in IH. by rewrite Hb, IH.
Qed.

Lemma keep_filter (final : bool) (nodes : list Block) :
  List.filter (fun b => negb (useless b)) (keep final nodes)
  = List.filter (fun b => negb (useless b)) nodes.
Proof.
  induction nodes as [|b nodes IH]; simpl; [done|].
  destruct (final && _); [simpl; by rewrite IH|].
  destruct (useless b) eqn:Hb; simpl; rewrite ?Hb; simpl; by rewrite IH.
Qed.

Lemma tidy_cases_Forall2 (Q' : Flow -> Flow -> Prop)
    (cases cases' : list (Expr * Flow)) :
  Forall2 (fun cb cb' => fst cb' = fst cb
                         /\ (tidy (snd cb') = true /\ Q' (snd cb) (snd cb')))
    cases cases' ->
  forallb (fun c => tidy (snd c)) cases' = true.
Proof.
  induction 1 as [|cb cb' l l' (_ & Ht & _) _ IH]; simpl; [done|].
  by rewrite Ht, IH.
Qed.

Lemma optimize_ExecuteFlow_cons (b : Block) (nodes : list Block)
    (next next' : option Flow) :
  and_then optimize next = Ok next' ->
  optimize (ExecuteFlow (b :: nodes) next)
  = Ok (ExecuteFlow
          (keep (match next with None => true | Some _ => false end)
             (b :: nodes)) next').
Proof.
  intros Hn.
  change (optimize (ExecuteFlow (b :: nodes) next))
    with (next' ← and_then optimize next;
          Ok (ExecuteFlow
                (keep (match next with None => true | Some _ => false end)
                   (b :: nodes)) next')).
  by rewrite Hn.
Qed.

(** [UselessValueElimination] raises nothing; in the flow it returns a
    literal or a reference stands alone only as the last element of a block
    without continuation; and nothing else has been removed. *)
Theorem UselessValueElimination_leaves_values_last_only (f : Flow) :
  exists f',
    optimize f = Ok f'
    /\ tidy f' = true
    /\ List.filter (fun b => negb (useless b)) (blocks f')
       = List.filter (fun b => negb (useless b)) (blocks f).
Proof.
  set (k := fun b => negb (useless b)).
  set (Q := fun x x' : Flow =>
              tidy x' = true
              /\ List.filter k (blocks x') = List.filter k (blocks x)).
  assert (forall o o', option_Forall2 Q o o' ->
            match o' with Some n => tidy n | None => true end = true
            /\ List.filter k (match o' with Some n => blocks n | None => [] end)
               = List.filter k
                   (match o with Some n => blocks n | None => [] end))
    as Hopt.
  { intros o o' [x x' [Ht Hb]|]; done. }
  induction f as [nodes next IHn|r c cases d next IHc IHd IHn
                  |c body next IHb IHn] using Flow_nested_ind.
  - destruct (and_then_Q Q optimize next IHn) as (next' & Hn & HQ).
    destruct (Hopt _ _ HQ) as [Ht Hb].
    destruct nodes as [|b nodes].
    + simpl. rewrite Hn. simpl. eexists. split; [done|].
      split; simpl; [|done]. rewrite Ht. by destruct next'.
    + rewrite (optimize_ExecuteFlow_cons _ _ _ _ Hn).
      eexists. split; [done|]. split.
      * destruct HQ as [x x' _|].
        -- rewrite keep_false. cbn [tidy]. simpl in Ht.
           rewrite Ht, andb_true_r.
           apply forallb_forall. intros y Hy%filter_In. tauto.
        -- cbn [tidy]. rewrite andb_true_r. apply keep_true_removelast.
      * cbn [blocks]. rewrite !List.filter_app, keep_filter. by rewrite Hb.
  - destruct (Flow_apply_SwitchFlow Q Optimizer.optimize_Block optimize
                r c cases d next)
      as (cases' & d' & next' & Hf & Hc & Hd & Hn); [done..|].
    exists (SwitchFlow r c cases' d' next'). split; [exact Hf|].
    destruct (Hopt _ _ Hd) as [Htd Hbd].
    destruct (Hopt _ _ Hn) as [Htn Hbn].
    split.
    + simpl.
      by rewrite (tidy_cases_Forall2
                    (fun x x' => List.filter k (blocks x')
                                 = List.filter k (blocks x)) _ _ Hc),
           Htd, Htn.
    + simpl. rewrite !List.filter_app, !filter_concat, Hbd, Hbn.
      do 2 f_equal. clear -Hc.
      induction Hc as [|cb cb' l l' (_ & _ & Hb) _ IH]; simpl; [done|].
      by rewrite Hb, IH.
  - destruct (Flow_apply_LoopFlow Q Optimizer.optimize_Block optimize
                c body next)
      as (body' & next' & Hf & [Htb Hbb] & Hn); [done..|].
    exists (LoopFlow c body' next'). split; [exact Hf|].
    destruct (Hopt _ _ Hn) as [Htn Hbn].
    split; simpl.
    + by rewrite Htb, Htn.
    + by rewrite !List.filter_app, Hbb, Hbn.
Qed.

End UselessValueProperties.

Section DetectRefs.

Import UnusedVariableElimination.

Lemma foldl_accumulates {A} (g : A -> gset string -> gset string)
    (l : list A) :
  Forall (fun x => forall R, g x R = R ∪ g x ∅) l ->
  forall R, foldl (fun r a => g a r) R l
            = R ∪ foldl (fun r a => g a r) ∅ l.
Proof.
  induction 1 as [|x l Hx _ IH]; intros R; simpl; [set_solver|].
  rewrite (IH (g x R)), (IH (g x ∅)), (Hx R). set_solver.
Qed.

Lemma foldl_collects {A} (g : A -> gset string -> gset string)
    (l : list A) (x : A) :
  Forall (fun x => forall R, g x R = R ∪ g x ∅) l ->
  x ∈ l -> g x ∅ ⊆ foldl (fun r a => g a r) ∅ l.
Proof.
  intros Hall Hin. induction Hall as [|y l Hy Hall IH]; [by inversion Hin|].
  simpl. rewrite (foldl_accumulates g l Hall (g y ∅)).
  apply elem_of_cons in Hin as [->|Hin]; [set_solver|].
  specialize (IH Hin). set_solver.
Qed.

Lemma detect_refs_Expr_accumulates (e : Expr) :
  forall R, detect_refs_Expr e R = R ∪ detect_refs_Expr e ∅.
Proof.
  induction e as [v|name args IH|name|b i o IH] using Expr_nested_ind;
    intros R; simpl.
  - set_solver.
  - by apply (foldl_accumulates detect_refs_Expr).
  - set_solver.
  - apply IH.
Qed.

Lemma detect_refs_operands_accumulate (o v : Expr) :
  forall R,
    detect_refs_Expr v (detect_refs_Expr o R)
    = R ∪ detect_refs_Expr v (detect_refs_Expr o ∅).
Proof.
  intros R.
  rewrite (detect_refs_Expr_accumulates v (detect_refs_Expr o R)),
    (detect_refs_Expr_accumulates v (detect_refs_Expr o ∅)),
    (detect_refs_Expr_accumulates o R).
  set_solver.
Qed.

Lemma detect_refs_Val_accumulates (v : Val) :
  forall R, detect_refs_Val v R = R ∪ detect_refs_Val v ∅.
Proof.
  intros R. destruct v as [e|blk i o v]; simpl.
  - apply detect_refs_Expr_accumulates.
  - apply detect_refs_operands_accumulate.
Qed.

Lemma detect_refs_Block_accumulates (b : Block) :
  forall R, detect_refs_Block b R = R ∪ detect_refs_Block b ∅.
Proof.
  intros R. destruct b as [e|[name value m|blk i o v]]; simpl.
  - apply detect_refs_Expr_accumulates.
  - apply detect_refs_Val_accumulates.
  - apply detect_refs_operands_accumulate.
Qed.

Lemma detect_refs_accumulates (f : Flow) :
  forall R, detect_refs f R = R ∪ detect_refs f ∅.
Proof.
  assert (forall o : option Flow,
             (forall n, o = Some n ->
                        forall R, detect_refs n R = R ∪ detect_refs n ∅) ->
             forall R,
               match o with Some n => detect_refs n R | None => R end
               = R ∪ match o with Some n => detect_refs n ∅ | None => ∅ end)
    as Hopt.
  { intros [n|] Hn R; [by apply Hn|set_solver]. }
  induction f as [nodes next IHn|r c cases d next IHc IHd IHn
                  |c body next IHb IHn] using Flow_nested_ind;
    intros R; simpl.
  - rewrite (Hopt next IHn (foldl _ R nodes)),
      (Hopt next IHn (foldl _ ∅ nodes)).
    rewrite (foldl_accumulates detect_refs_Block nodes); [set_solver|].
    apply Forall_forall. intros b _. apply detect_refs_Block_accumulates.
  - set (R1 := foldl (fun r c => detect_refs_Expr c.1 r) R cases).
    set (E1 := foldl (fun r c => detect_refs_Expr c.1 r) ∅ cases).
    assert (R1 = R ∪ E1) as HR1.
    { apply (foldl_accumulates (fun c => detect_refs_Expr c.1)).
      apply Forall_forall. intros x _. apply detect_refs_Expr_accumulates. }
    assert (forall S, foldl (fun r c => detect_refs c.2 r) S cases
                      = S ∪ foldl (fun r c => detect_refs c.2 r) ∅ cases)
      as Hbodies.
    { by apply (foldl_accumulates (fun c => detect_refs c.2)). }
    rewrite (Hopt next IHn (match d with Some n => _ | None => _ end)).
    rewrite (Hopt d IHd (foldl _ (detect_refs_Val c R1) cases)).
    rewrite (Hbodies (detect_refs_Val c R1)).
    rewrite (detect_refs_Val_accumulates c R1), HR1.
    symmetry.
    rewrite (Hopt next IHn (match d with Some n => _ | None => _ end)).
    rewrite (Hopt d IHd (foldl _ (detect_refs_Val c E1) cases)).
    rewrite (Hbodies (detect_refs_Val c E1)).
    rewrite (detect_refs_Val_accumulates c E1).
    set_solver.
  - rewrite (Hopt next IHn (detect_refs body _)).
    rewrite (IHb (detect_refs_Expr c R)), (detect_refs_Expr_accumulates c R).
    symmetry.
    rewrite (Hopt next IHn (detect_refs body _)).
    rewrite (IHb (detect_refs_Expr c ∅)).
    set_solver.
Qed.

Lemma detect_refs_blocks (f : Flow) (b : Block) :
  b ∈ blocks f -> detect_refs_Block b ∅ ⊆ init f.
Proof.
  unfold init.
  assert (forall o : option Flow,
             (forall n, o = Some n ->
                        b ∈ blocks n -> detect_refs_Block b ∅
                                        ⊆ detect_refs n ∅) ->
             b ∈ match o with Some n => blocks n | None => [] end ->
             forall R,
               detect_refs_Block b ∅
               ⊆ match o with Some n => detect_refs n R | None => R end)
    as Hopt.
  { intros [n|] Hn Hin R; [|by inversion Hin].
    rewrite detect_refs_accumulates. specialize (Hn n eq_refl Hin).
    set_solver. }
  assert (forall o : option Flow, forall R,
             R ⊆ match o with Some n => detect_refs n R | None => R end)
    as Hmono.
  { intros [n|] R; [|done]. rewrite detect_refs_accumulates. set_solver. }
  induction f as [nodes next IHn|r c cases d next IHc IHd IHn
                  |c body next IHb IHn] using Flow_nested_ind;
    simpl; intros Hin.
  - apply elem_of_app in Hin as [Hin|Hin].
    + etrans; [|apply Hmono].
      apply (foldl_collects detect_refs_Block); [|done].
      apply Forall_forall. intros x _. apply detect_refs_Block_accumulates.
    + by apply Hopt.
  - apply elem_of_app in Hin as [Hin|Hin].
    + etrans; [|apply Hmono]. etrans; [|apply Hmono].
      rewrite (foldl_accumulates (fun c => detect_refs c.2));
        [|apply Forall_forall; intros x _; apply detect_refs_accumulates].
      apply list_elem_of_In, in_concat in Hin as (l & Hl & Hb).
      apply in_map_iff in Hl as (cb & <- & Hcb).
      apply list_elem_of_In in Hcb, Hb.
      rewrite Forall_forall in IHc. specialize (IHc cb Hcb Hb).
      pose proof (foldl_collects (fun c => detect_refs c.2) cases cb) as Hc.
      simpl in Hc. etrans; [exact IHc|]. etrans; [apply Hc|]; [|done|].
      * apply Forall_forall. intros x _. apply detect_refs_accumulates.
      * set_solver.
    + apply elem_of_app in Hin as [Hin|Hin].
      * etrans; [|apply Hmono]. by apply Hopt.
      * by apply Hopt.
  - apply elem_of_app in Hin as [Hin|Hin].
    + etrans; [|apply Hmono]. rewrite detect_refs_accumulates.
      specialize (IHb Hin). set_solver.
    + by apply Hopt.
Qed.

(** An assignment to a register that a statement or an expression
    somewhere in the flow reads is kept by [UnusedVariableElimination],
    which is started with the names referenced in the flow. *)
Theorem UnusedVariableElimination_keeps_what_is_read (f : Flow) (b : Block)
    (name : string) (value : Val) (mutable : bool) :
  b ∈ blocks f ->
  name ∈ detect_refs_Block b ∅ ->
  OfStatement (AssignStatement name value mutable) ∈ blocks f ->
  exists f',
    optimize (init f) f = Ok f'
    /\ OfStatement (AssignStatement name value mutable) ∈ blocks f'.
Proof.
  intros Hb Hname Hassign.
  destruct (UnusedVariableElimination_optimize_blocks (init f) f)
    as (f' & Hf & Hblocks).
  exists f'. split; [done|]. rewrite Hblocks.
  apply list_elem_of_In, filter_In. split; [by apply list_elem_of_In|].
  simpl. apply negb_true_iff, bool_decide_eq_false.
  intros Hnot. apply Hnot. by apply (detect_refs_blocks f b).
Qed.

Lemma UnusedVariableElimination_keeps_what_is_read_witness :
  exists f',
    optimize (init Programs.assigned_then_read) Programs.assigned_then_read
    = Ok f'
    /\ OfStatement (AssignStatement "x" (ExprVal (ValueExpr 1%float)) true)
       ∈ blocks f'.
Proof.
  apply (UnusedVariableElimination_keeps_what_is_read
           Programs.assigned_then_read
           (OfExpr (FunctionExpr "Draw" [RefExpr "x"])) "x"
           (ExprVal (ValueExpr 1%float)) true).
  - simpl. set_solver.
  - simpl. set_solver.
  - simpl. set_solver.
Defined.

End DetectRefs.

(** * An invariant of flow lowering *)

Section LoweringInvariant.

Lemma lifted_Flow_attach (a b : Flow) :
  lifted_Flow (Flow.attach a b) = lifted_Flow a && lifted_Flow b.
Proof.
  induction a as [nodes next IHn|r c cases d next IHc IHd IHn
                  |c body next IHb IHn] using Flow_nested_ind.
  - destruct next as [n|].
    + simpl. rewrite (IHn n eq_refl). by rewrite andb_assoc.
    + destruct b; simpl; rewrite ?andb_true_r; try done.
      by rewrite forallb_app, andb_assoc.
  - simpl. destruct next as [n|].
    + rewrite (IHn n eq_refl). by rewrite !andb_assoc.
    + by rewrite andb_true_r.
  - simpl. destruct next as [n|].
    + rewrite (IHn n eq_refl). by rewrite !andb_assoc.
    + by rewrite andb_true_r.
Qed.

Lemma lowers_bind {A B} (c : stateM TState A) (k : A -> stateM TState B)
    (P : A -> Prop) (Q : B -> Prop) :
  lowers c P -> (forall a, P a -> lowers (k a) Q) -> lowers (c ≫= k) Q.
Proof.
  intros Hc Hk s Hs. rewrite stateM_bind_run.
  specialize (Hc s Hs). destruct (c s) as [[a s1]|e]; [|done].
  destruct Hc as (Hs1 & Hle & Ha).
  specialize (Hk a Ha s1 Hs1). destruct (k a s1) as [[b s2]|e]; [|done].
  destruct Hk as (Hs2 & Hle2 & Hb). repeat split; [done|lia|done].
Qed.

Lemma lowers_ret {A} (a : A) (P : A -> Prop) :
  P a -> lowers (mret a) P.
Proof. intros Ha s Hs. simpl. repeat split; [done|lia|done]. Qed.

Lemma lowers_throw {A} (e : error) (P : A -> Prop) :
  e <> OutOfFuel -> lowers (mthrow e) P.
Proof. by intros He s Hs. Qed.

Lemma lowers_weaken {A} (c : stateM TState A) (P Q : A -> Prop) :
  lowers c P -> (forall a, P a -> Q a) -> lowers c Q.
Proof.
  intros Hc HPQ s Hs. specialize (Hc s Hs).
  destruct (c s) as [[a s1]|e]; [|done].
  destruct Hc as (? & ? & ?). auto.
Qed.

Lemma lowers_anonymous : lowers Transformer.anonymous (fun _ => True).
Proof. intros s Hs. simpl. repeat split; [done|lia]. Qed.

Lemma lowers_append_flow (f : Flow) :
  lifted_Flow f = true -> lowers (Transformer.append_flow f) (fun _ => True).
Proof.
  intros Hf s Hs. simpl. rewrite lifted_Flow_attach, Hs, Hf.
  repeat split; [lia].
Qed.

Lemma lowers_append (blocks : list Block) :
  forallb lifted_Block blocks = true ->
  lowers (Transformer.append blocks) (fun _ => True).
Proof.
  intros Hb. apply lowers_append_flow. simpl. by rewrite Hb.
Qed.

Lemma lifted_Block_as_block (v : Val) :
  lifted_Block (as_block v) = lifted_Val v.
Proof. by destruct v. Qed.

Lemma lowers_lift (value : Val) :
  lifted_Val value = true ->
  lowers (Transformer.lift value) (fun e => is_ref e = true).
Proof.
  intros Hv. unfold Transformer.lift.
  eapply lowers_bind; [apply lowers_anonymous|]. intros name _.
  eapply lowers_bind; [apply lowers_append; simpl; by rewrite Hv|].
  intros _ _. by apply lowers_ret.
Qed.

Lemma lowers_value_of (source : string) (r : option Val) :
  lifted_result r ->
  lowers (Transformer.value_of source r) (fun v => lifted_Val v = true).
Proof.
  intros Hr. destruct r as [v|]; simpl.
  - by apply lowers_ret.
  - by apply lowers_throw.
Qed.

Lemma lowers_run (walk : Node -> stateM TState (option Val))
    (root : Node) :
  lowers (walk (ExecuteNode [root])) lifted_result ->
  lowers (Transformer.run walk root) (fun f => lifted_Flow f = true).
Proof.
  intros Hwalk s Hs. unfold Transformer.run.
  set (c := block ← walk (ExecuteNode [root]);
            match block with
            | Some b => Transformer.append [as_block b]
            | None => mret tt
            end).
  assert (lowers c (fun _ => True)) as Hrun.
  { eapply lowers_bind; [exact Hwalk|]. intros [b|] Hb.
    - apply lowers_append. simpl in *.
      by rewrite lifted_Block_as_block, Hb.
    - by apply lowers_ret. }
  specialize (Hrun (mkTState (ExecuteFlow [] None) (counter s)) eq_refl).
  destruct (c (mkTState (ExecuteFlow [] None) (counter s))) as [[u s']|e];
    [|done].
  destruct Hrun as (Hs' & Hle & _). simpl in *. done.
Qed.

Lemma lowers_transform_ExecuteNode
    (walk : Node -> stateM TState (option Val)) (nodes : list Node) :
  Forall (fun n => lowers (walk n) lifted_result) nodes ->
  forall r, lifted_result r ->
    lowers (Transformer.transform_ExecuteNode walk nodes r) lifted_result.
Proof.
  induction 1 as [|n nodes Hn _ IH]; intros r Hr; simpl.
  - by apply lowers_ret.
  - eapply lowers_bind.
    { destruct r as [b|].
      - apply lowers_append. simpl in *.
        by rewrite lifted_Block_as_block, Hr.
      - by apply (lowers_ret tt (fun _ => True)). }
    intros _ _. eapply lowers_bind; [exact Hn|]. apply IH.
Qed.

Lemma lowers_transform_FunctionNode
    (walk : Node -> stateM TState (option Val)) (nodes : list Node) :
  Forall (fun n => lowers (walk n) lifted_result) nodes ->
  forall args, forallb is_ref args = true ->
    lowers (Transformer.transform_FunctionNode walk nodes args)
      (fun args' => forallb is_ref args' = true).
Proof.
  induction 1 as [|n nodes Hn _ IH]; intros args Hargs; simpl.
  - by apply lowers_ret.
  - eapply lowers_bind; [exact Hn|]. intros v Hv.
    eapply lowers_bind; [by apply lowers_value_of|]. intros e He.
    eapply lowers_bind; [by apply lowers_lift|]. intros r Hr.
    apply IH. rewrite forallb_app. simpl. by rewrite Hargs, Hr.
Qed.

Lemma max_list_with_le {A} (g : A -> nat) (l : list A) (x : A) :
  x ∈ l -> g x <= max_list_with g l.
Proof.
  induction 1 as [x l|x y l _ IH]; simpl; lia.
Qed.

Lemma depth_Execute (nodes : list Node) :
  depth (F.Execute nodes) <= S (max_list_with depth nodes).
Proof.
  assert (forall l acc,
             max_list_with depth (F.Execute_loop l acc)
             <= max_list_with depth acc `max` max_list_with depth l) as Hloop.
  { induction l as [|x l IH]; intros acc; simpl; [lia|].
    destruct (F.empty_node x); [etrans; [apply IH|]; lia|].
    assert (forall ns, max_list_with depth (acc ++ ns)
                       = max_list_with depth acc `max` max_list_with depth ns)
      as Happ.
    { intros ns. induction acc as [|a acc IHa]; simpl; [done|].
      rewrite IHa. lia. }
    destruct x; (etrans; [apply IH|]); rewrite Happ; simpl; lia. }
  destruct nodes as [|x [|y l]]; simpl; [lia|lia|].
  apply le_n_S. etrans; [apply (Hloop (x :: y :: l) [])|]. simpl. lia.
Qed.

Lemma on_last_depth (f : Node -> result Node) (l : list Node) :
  Forall (fun x => forall a, f x = Ok a -> depth a <= S (depth x)) l ->
  forall ns, F.on_last f l = Ok ns ->
             max_list_with depth ns <= S (max_list_with depth l).
Proof.
  induction 1 as [|x l Hx Hl IH]; intros ns; [done|].
  destruct l as [|y l].
  - simpl. destruct (f x) as [a|] eqn:Ha; simpl; [|done].
    intros [= <-]. simpl. specialize (Hx a eq_refl). lia.
  - change (F.on_last f (x :: y :: l))
      with (F.on_last f (y :: l) ≫= fun r => Ok (x :: r)).
    destruct (F.on_last f (y :: l)) as [r|] eqn:Hr; simpl; [|done].
    intros [= <-]. specialize (IH r eq_refl). simpl in *. lia.
Qed.

Lemma depth_Assign (name : string) (value : Node) :
  forall a, F.Assign name value = Ok a -> depth a <= S (depth value).
Proof.
  induction value using Node_nested_ind; intros a; simpl;
    try (intros [= <-]; simpl; lia).
  destruct (F.on_last (F.Assign name) nodes) as [ns|] eqn:Hns; simpl;
    [|done].
  intros [= <-]. etrans; [apply depth_Execute|].
  apply le_n_S. by apply (on_last_depth (F.Assign name)).
Qed.

(** Lowering a node with a recursion bound of at least its depth keeps the
    operands lifted. *)
Lemma lowers_transform (fuel : nat) :
  forall node : Node,
    depth node <= fuel ->
    lowers (Transformer.transform fuel node) lifted_result.
Proof.
  induction fuel as [|fuel IH]; intros node Hd.
  { destruct node; simpl in Hd; lia. }
  assert (forall nodes : list Node,
             max_list_with depth nodes <= fuel ->
             Forall (fun n => lowers (Transformer.transform fuel n)
                                lifted_result) nodes) as Hall.
  { intros nodes Hm. apply Forall_forall. intros n Hn. apply IH.
    pose proof (max_list_with_le depth nodes n Hn). lia. }
  assert (forall root : Node,
             S (depth root) <= fuel ->
             lowers (Transformer.run (Transformer.transform fuel) root)
               (fun f => lifted_Flow f = true)) as Hrun.
  { intros root Hr. apply lowers_run. apply IH. simpl. lia. }
  destruct node; simpl in Hd |- *.
  - by apply lowers_ret.
  - eapply lowers_bind.
    { apply lowers_transform_FunctionNode; [apply Hall; lia|done]. }
    intros args' Hargs. by apply lowers_ret.
  - by apply lowers_ret.
  - eapply lowers_bind; [apply IH; lia|]. intros v Hv.
    eapply lowers_bind; [by apply lowers_value_of|]. intros e He.
    eapply lowers_bind; [apply lowers_append; simpl; by rewrite He|].
    intros _ _. by apply lowers_ret.
  - eapply lowers_bind; [apply IH; lia|]. intros v Hv.
    eapply lowers_bind; [by apply lowers_value_of|]. intros e He.
    eapply lowers_bind; [by apply lowers_lift|]. intros r Hr.
    by apply lowers_ret.
  - eapply lowers_bind; [apply IH; lia|]. intros v Hv.
    eapply lowers_bind; [by apply lowers_value_of|]. intros e He.
    eapply lowers_bind; [apply IH; lia|]. intros o Ho.
    eapply lowers_bind; [by apply lowers_value_of|]. intros eo Heo.
    eapply lowers_bind; [by apply lowers_lift|]. intros ro Hro.
    eapply lowers_bind; [by apply lowers_lift|]. intros rv Hrv.
    apply lowers_ret. simpl. by rewrite Hro, Hrv.
  - apply lowers_transform_ExecuteNode; [apply Hall; lia|done].
  - by apply lowers_throw.
  - by apply lowers_throw.
  - eapply lowers_bind; [apply IH; lia|]. intros v Hv.
    eapply lowers_bind; [by apply lowers_value_of|]. intros cond Hcond.
    eapply lowers_bind; [apply lowers_anonymous|]. intros name _.
    eapply lowers_bind; [apply Hrun; lia|]. intros t Ht.
    eapply lowers_bind; [apply Hrun; lia|]. intros e He.
    eapply lowers_bind.
    { apply lowers_append_flow. simpl. by rewrite Hcond, Ht, He. }
    intros _ _. by apply lowers_ret.
  - eapply lowers_bind; [apply lowers_anonymous|]. intros cond _.
    eapply (lowers_bind _ _ (fun a => depth a <= S (depth node1))).
    { intros s Hs. unfold lift_result.
      pose proof (F_Assign_ends cond node1) as Hends.
      pose proof (depth_Assign cond node1) as Hdepth.
      destruct (F.Assign cond node1) as [a|e];
        [|intros ->; by apply Hends].
      repeat split; [done|lia|by apply Hdepth]. }
    intros assign Hassign.
    eapply lowers_bind; [apply Hrun; lia|]. intros condition Hc.
    eapply lowers_bind; [apply Hrun; lia|]. intros body Hb.
    eapply lowers_bind; [by apply lowers_append_flow|]. intros _ _.
    eapply lowers_bind.
    { apply lowers_append_flow. simpl.
      by rewrite lifted_Flow_attach, Hb, Hc. }
    intros _ _. by apply lowers_ret.
Qed.

(** Lowering makes the order of evaluation explicit.  With a recursion
    bound above the depth of the node, [transform] ends: it raises an
    exception of the code, or returns a flow in which every argument of a
    built-in call, every offset and stored value of a memory access and
    every loop condition is a register, and the counter of anonymous names
    has not decreased.  The memory accesses include the statement of a
    [Set] that the code stores as the value of an assignment or as the
    condition of a switch. *)
Theorem transform_lifts_operands (fuel : nat) (node : Node) (count : nat) :
  depth node < fuel ->
  match transform fuel node count with
  | Ok (f, n) => lifted_Flow f = true /\ count <= n
  | Err e => e <> OutOfFuel
  end.
Proof.
  intros Hd. unfold transform.
  assert (lowers (Transformer.run (Transformer.transform fuel) node)
            (fun f => lifted_Flow f = true)) as Hrun.
  { apply lowers_run. apply lowers_transform. simpl. lia. }
  specialize (Hrun (mkTState (ExecuteFlow [] None) count) eq_refl).
  destruct (Transformer.run _ _ _) as [[f s]|e]; [|done].
  destruct Hrun as (_ & Hle & Hf). done.
Qed.

Lemma transform_lifts_operands_witness :
  match transform 5 Examples.if_less 0 with
  | Ok (f, n) => lifted_Flow f = true /\ 0 <= n
  | Err e => e <> OutOfFuel
  end.
Proof.
  apply (transform_lifts_operands 5 Examples.if_less 0).
  vm_compute. lia.
Defined.

End LoweringInvariant.

(** * Anonymous names and the options of the context *)

Section AnonymousNames.

(** The names [anonymous] returns are pairwise different: a later call,
    whatever happens to the counter in between as long as it does not
    decrease, never returns the name of an earlier call. *)
Theorem anonymous_names_differ (s s' : CState) :
  anonymous_variable_counter s < anonymous_variable_counter s' ->
  exists name name' t t',
    anonymous s = Ok (name, t) /\ anonymous s' = Ok (name', t')
    /\ name <> name'
    /\ anonymous_variable_counter s < anonymous_variable_counter t.
Proof.
  intros Hlt. unfold anonymous. do 4 eexists.
  split; [done|]. split; [done|]. split; [|simpl; lia].
  intros H. simpl in H. injection H as H. apply str_of_nat_inj in H. lia.
Qed.

Lemma anonymous_names_differ_witness :
  exists name name' t t',
    anonymous (mkCState [] 0) = Ok (name, t)
    /\ anonymous (mkCState [] 9) = Ok (name', t')
    /\ name <> name'
    /\ anonymous_variable_counter (mkCState [] 0)
       < anonymous_variable_counter t.
Proof.
  apply (anonymous_names_differ (mkCState [] 0) (mkCState [] 9)).
  simpl. lia.
Defined.

End AnonymousNames.

Section ContextOptions.

Lemma lookup_update {A} (read : ContextFrame -> option A)
    (write : ContextFrame -> option ContextFrame) (v : A)
    (frames frames' : list ContextFrame) :
  (forall f, read f = None <-> write f = None) ->
  (forall f f', write f = Some f' -> read f' = Some v) ->
  Context.update write frames = Some frames' ->
  Context.lookup read frames' = Some v
  /\ length frames' = length frames.
Proof.
  intros Hnone Hsome. revert frames'.
  induction frames as [|f frames IH]; intros frames'; simpl; [done|].
  destruct (write f) as [f'|] eqn:Hw.
  - intros [= <-]. simpl. rewrite (Hsome f f' Hw). done.
  - destruct (Context.update write frames) as [rest|]; simpl; [|done].
    intros [= <-]. simpl.
    apply Hnone in Hw. rewrite Hw.
    destruct (IH rest eq_refl) as [Hl Hlen]. by rewrite Hl, Hlen.
Qed.

(** An option of the context that has been assigned is read back: after
    [context.may_return = v] has succeeded, [context.may_return] is [v],
    and no frame has been entered or left.  The assignment raises
    [AttributeError] exactly when no block frame is open. *)
Theorem may_return_is_read_back (v : bool) (s : CState) :
  match Context.set_may_return v s with
  | Ok (_, s') =>
      Context.may_return s' = Ok (v, s')
      /\ length (_frames s') = length (_frames s)
      /\ anonymous_variable_counter s' = anonymous_variable_counter s
  | Err e =>
      e = AttributeError "Option may_return not found in context"
      /\ Forall (fun f => Context.same_class f Context.new_BlockContext
                          = false) (_frames s)
  end.
Proof.
  set (read := fun f => match f with
                        | BlockContext _ _ r _ _ => Some r
                        | _ => None
                        end).
  set (write := fun f => match f with
                         | BlockContext b bf _ rf rv =>
                             Some (BlockContext b bf v rf rv)
                         | _ => None
                         end).
  assert (forall f, read f = None <-> write f = None) as Hnone.
  { intros []; split; simpl; congruence. }
  assert (forall f f', write f = Some f' -> read f' = Some v) as Hsome.
  { intros [] f' H; simpl in H; simplify_eq; reflexivity. }
  unfold Context.set_may_return, Context.setattr, Context.may_return,
    Context.getattr.
  fold read write.
  destruct (Context.update write (_frames s)) as [frames'|] eqn:Hu.
  - simpl.
    destruct (lookup_update read write v _ _ Hnone Hsome Hu) as [-> Hlen].
    done.
  - split; [done|].
    induction (_frames s) as [|f frames IH]; [constructor|].
    simpl in Hu. destruct (write f) eqn:Hw; [done|].
    destruct (Context.update write frames); [done|].
    constructor; [|by apply IH]. by destruct f.
Qed.

End ContextOptions.

(** * Further properties of constant folding and switch elimination *)

Section FoldingLiterals.

Variables math_floor math_ceil round math_trunc math_exp math_log
  : float -> result float.

#[local] Abbreviation optimize :=
  (ConstantFold.optimize math_floor math_ceil round math_trunc math_exp
     math_log).

Lemma _fold_quad_loop_literals (fold : ConstantFold.quad) (vs : list float) :
  forall (constant : float) (result : list Expr),
    ConstantFold._fold_quad_loop fold (map ValueExpr vs) constant result
    = (foldl (match fold with
              | ConstantFold.QuadAdd => PrimFloat.add
              | ConstantFold.QuadMultiply => PrimFloat.mul
              end) constant vs, result).
Proof.
  induction vs as [|v vs IH]; intros constant result; simpl; [done|].
  rewrite IH. by destruct fold.
Qed.

Lemma optimize_literals (vs : list float) :
  mapM optimize (map ValueExpr vs) = Ok (map ValueExpr vs).
Proof.
  induction vs as [|v vs IH]; simpl; [done|]. simpl in IH. by rewrite IH.
Qed.

(** A product of literals folds to the literal of their product, computed
    from left to right, unless the product is zero: then it folds to the
    literal 1. *)
Theorem product_of_literals_folds_to_one_when_zero (vs : list float) :
  optimize (FunctionExpr "Multiply" (map ValueExpr vs))
  = Ok (ValueExpr (let p := foldl PrimFloat.mul 1%float vs in
                   if PrimFloat.eqb p 0%float then 1%float else p)).
Proof.
  change (optimize (FunctionExpr "Multiply" (map ValueExpr vs)))
    with (args' ← mapM optimize (map ValueExpr vs);
          ConstantFold.fold_Multiply args').
  rewrite optimize_literals. simpl.
  unfold ConstantFold.fold_Multiply, ConstantFold._fold_quad.
  rewrite _fold_quad_loop_literals. unfold ConstantFold.truthy_float.
  by destruct (PrimFloat.eqb _ _).
Qed.

(** A sum of literals folds to the literal of their sum; a sum that is
    zero folds to the literal 0. *)
Lemma sum_of_literals_folds (vs : list float) :
  optimize (FunctionExpr "Add" (map ValueExpr vs))
  = Ok (ValueExpr (let p := foldl PrimFloat.add 0%float vs in
                   if PrimFloat.eqb p 0%float then 0%float else p)).
Proof.
  change (optimize (FunctionExpr "Add" (map ValueExpr vs)))
    with (args' ← mapM optimize (map ValueExpr vs);
          ConstantFold.fold_Add args').
  rewrite optimize_literals. simpl.
  unfold ConstantFold.fold_Add, ConstantFold._fold_quad.
  rewrite _fold_quad_loop_literals. unfold ConstantFold.truthy_float.
  by destruct (PrimFloat.eqb _ _).
Qed.

Lemma mapM_length {A B} (f : A -> result B) (l : list A) :
  forall l', mapM f l = Ok l' -> length l' = length l.
Proof.
  induction l as [|x l IH]; simpl; intros l'; [by intros [= <-]|].
  destruct (f x); simpl; [|done].
  destruct (mapM f l) as [ys|]; simpl; [|done].
  intros [= <-]. simpl. by rewrite (IH ys).
Qed.

Lemma _fold_quad_not_nil (fold : ConstantFold.quad) (nodes : list Expr) :
  ConstantFold._fold_quad fold nodes <> [].
Proof.
  unfold ConstantFold._fold_quad.
  destruct (ConstantFold._fold_quad_loop _ _ _ _) as [c r].
  destruct (ConstantFold.truthy_float c); [done|]. by destruct r.
Qed.

(** Folding a subtraction of two or more operands returns a literal or a
    call of the name [Sub]: what is left of a subtraction is no longer
    called [Subtract]. *)
Theorem Subtract_is_renamed_Sub (args : list Expr) (e : Expr) :
  2 <= length args ->
  optimize (FunctionExpr "Subtract" args) = Ok e ->
  (exists v, e = ValueExpr v) \/ (exists args', e = FunctionExpr "Sub" args').
Proof.
  intros Hlen.
  change (optimize (FunctionExpr "Subtract" args))
    with (args' ← mapM optimize args; ConstantFold.fold_Subtract args').
  destruct (mapM optimize args) as [args'|] eqn:Hm; simpl; [|done].
  apply mapM_length in Hm. rewrite <- Hm in Hlen.
  destruct args' as [|head [|x rest]]; simpl in Hlen; [lia|lia|].
  unfold ConstantFold.fold_Subtract.
  pose proof (_fold_quad_not_nil ConstantFold.QuadAdd (x :: rest)) as Hnil.
  destruct (ConstantFold._fold_quad ConstantFold.QuadAdd (x :: rest))
    as [|t tail]; [done|].
  destruct head; try (intros [= <-]; right; by eexists).
  destruct t; try (intros [= <-]; right; by eexists).
  destruct tail; intros [= <-]; [left|right]; by eexists.
Qed.

End FoldingLiterals.

Section FoldingWitnesses.

Lemma Subtract_is_renamed_Sub_witness :
  (exists v, FunctionExpr "Sub" [RefExpr "x"; ValueExpr 1%float]
             = ValueExpr v)
  \/ (exists args', FunctionExpr "Sub" [RefExpr "x"; ValueExpr 1%float]
                    = FunctionExpr "Sub" args').
Proof.
  apply (Subtract_is_renamed_Sub Examples.no_math Examples.no_math
           Examples.no_math Examples.no_math Examples.no_math Examples.no_math
           [RefExpr "x"; ValueExpr 1%float]).
  - simpl. lia.
  - vm_compute. reflexivity.
Defined.

End FoldingWitnesses.

Section SwitchOnLiteral.

Import SwitchElimination.

Lemma select_first_equal_label (v : float) (name : string)
    (default : option Flow) (pre post : list (Expr * Flow)) (c : float)
    (body : Flow) :
  Forall (fun cb => forall l, fst cb = ValueExpr l
                              -> PrimFloat.eqb l v = false) pre ->
  PrimFloat.eqb c v = true ->
  forall static,
    select v name default (pre ++ (ValueExpr c, body) :: post) static
    = (r ← Flow.set_result body name; Ok (Some r)).
Proof.
  intros Hpre Hc.
  induction Hpre as [|[l b] pre Hl _ IH]; intros static; simpl.
  - by rewrite Hc.
  - simpl in Hl. destruct l; try apply IH.
    rewrite (Hl _ eq_refl). apply IH.
Qed.

(** A switch on a literal is replaced by the body of the first case whose
    label is a literal equal to it, whatever the labels before it are, as
    long as none of them is such a literal: labels that are registers or
    calls, whose value is not known, do not keep the switch in place. *)
Theorem switch_on_literal_takes_first_equal_label (r : string) (v c : float)
    (pre post : list (Expr * Flow)) (body : Flow)
    (default next : option Flow) :
  Forall (fun cb => forall l, fst cb = ValueExpr l
                              -> PrimFloat.eqb l v = false) pre ->
  PrimFloat.eqb c v = true ->
  optimize (SwitchFlow r (ExprVal (ValueExpr v))
              (pre ++ (ValueExpr c, body) :: post) default next)
  = (b ← Flow.set_result body r;
     match next with
     | Some n => n' ← optimize n; Ok (Flow.attach b n')
     | None => Ok b
     end).
Proof.
  intros Hpre Hc.
  pose proof (select_first_equal_label v r default pre post c body Hpre Hc
                true) as Hsel.
  destruct (Flow.set_result body r) as [b|e] eqn:Hb.
  - by rewrite (optimize_replaces_switch_by_selected r v _ default next b).
  - destruct next; simpl; simpl in Hsel; by rewrite Hsel.
Qed.

Lemma switch_on_literal_takes_first_equal_label_witness :
  optimize (SwitchFlow "r" (ExprVal (ValueExpr 1%float))
              ([(RefExpr "x", Examples.body_ten)]
                 ++ (ValueExpr 1%float, Examples.body_twenty) :: [])
              None None)
  = (b ← Flow.set_result Examples.body_twenty "r";
     match @None Flow with
     | Some n => n' ← optimize n; Ok (Flow.attach b n')
     | None => Ok b
     end).
Proof.
  apply (switch_on_literal_takes_first_equal_label "r" 1%float 1%float
           [(RefExpr "x", Examples.body_ten)] [] Examples.body_twenty
           None None).
  - constructor; [|constructor]. simpl. intros l H. discriminate H.
  - reflexivity.
Defined.

End SwitchOnLiteral.

(** * The frames of the context during compilation *)

Section FrameDiscipline.

Variable as_qualified : string -> AST -> result QualifiedName.
Variable _resolve_pointer : AST -> result (option Pointer).

#[local] Abbreviation compile :=
  (Compiler.compile as_qualified _resolve_pointer).

Lemma steps_bind {A B} (c : stateM CState A) (k : A -> stateM CState B)
    (pop mid push : list FrameClass) :
  steps c pop mid -> (forall a, steps (k a) mid push) ->
  steps (c ≫= k) pop push.
Proof.
  intros Hc Hk s base Hs. rewrite stateM_bind_run.
  specialize (Hc s base Hs). destruct (c s) as [[a s1]|e]; [|done].
  destruct Hc as [Hs1 Hle].
  specialize (Hk a s1 base Hs1). destruct (k a s1) as [[b s2]|e]; [|done].
  destruct Hk as [Hs2 Hle2]. split; [done|lia].
Qed.

Lemma steps_frame {A} (c : stateM CState A) (l : list FrameClass) :
  steps c [] [] -> steps c l l.
Proof.
  intros Hc s base Hs. apply (Hc s (l ++ base)). exact Hs.
Qed.

Lemma steps_ret {A} (a : A) : steps (mret a : stateM CState A) [] [].
Proof. intros s base Hs. simpl. split; [done|lia]. Qed.

Lemma steps_throw {A} (e : error) (pop push : list FrameClass) :
  steps (mthrow e : stateM CState A) pop push.
Proof. by intros s base Hs. Qed.

Lemma steps_lift {A} (r : result A) :
  steps (lift_result r : stateM CState A) [] [].
Proof.
  intros s base Hs. unfold lift_result. destruct r; [|done].
  split; [done|lia].
Qed.

Lemma steps_enter (frame : ContextFrame) (l : list FrameClass) :
  steps (Context.enter frame) l (class_of frame :: l).
Proof.
  intros s base Hs. simpl. unfold shape in *. simpl. rewrite Hs.
  split; [done|lia].
Qed.

Lemma steps_exit (frame : ContextFrame) (k : FrameClass)
    (l : list FrameClass) :
  steps (Context.exit frame) (k :: l) l.
Proof.
  intros s base Hs. unfold Context.exit, shape in *.
  destruct (_frames s) as [|top rest]; [done|].
  destruct (Context.same_class top frame); [|done].
  simpl in *. injection Hs as _ Hs. split; [done|lia].
Qed.

Lemma steps_current : steps Context.current [] [].
Proof.
  intros s base Hs. unfold Context.current.
  destruct (_frames s); [done|]. split; [done|lia].
Qed.

Lemma steps_assign_current (frame : ContextFrame) (k : FrameClass)
    (l : list FrameClass) :
  steps (Context.assign_current frame) (k :: l) (class_of frame :: l).
Proof.
  intros s base Hs. unfold Context.assign_current, shape in *.
  destruct (_frames s) as [|top rest]; [done|].
  simpl in *. injection Hs as _ Hs. rewrite Hs. split; [done|lia].
Qed.

Lemma steps_getattr {A} (name : string) (read : ContextFrame -> option A) :
  steps (Context.getattr name read) [] [].
Proof.
  intros s base Hs. unfold Context.getattr.
  destruct (Context.lookup read (_frames s)); [|done]. split; [done|lia].
Qed.

Lemma update_shape (write : ContextFrame -> option ContextFrame)
    (frames : list ContextFrame) :
  (forall f f', write f = Some f' -> class_of f' = class_of f) ->
  forall frames', Context.update write frames = Some frames' ->
                  map class_of frames' = map class_of frames.
Proof.
  intros Hw. induction frames as [|f frames IH]; intros frames'; simpl;
    [done|].
  destruct (write f) as [f'|] eqn:Hf.
  - intros [= <-]. simpl. by rewrite (Hw f f' Hf).
  - destruct (Context.update write frames) as [rest|]; simpl; [|done].
    intros [= <-]. simpl. by rewrite (IH rest).
Qed.

Lemma steps_setattr (name : string)
    (write : ContextFrame -> option ContextFrame) :
  (forall f f', write f = Some f' -> class_of f' = class_of f) ->
  steps (Context.setattr name write) [] [].
Proof.
  intros Hw s base Hs. unfold Context.setattr.
  destruct (Context.update write (_frames s)) as [frames'|] eqn:Hu; [|done].
  unfold shape in *. simpl.
  rewrite (update_shape write _ Hw _ Hu). split; [done|lia].
Qed.

Lemma steps_anonymous : steps anonymous [] [].
Proof. intros s base Hs. unfold anonymous. simpl. split; [done|lia]. Qed.

Lemma steps_set_may_return (v : bool) : steps (Context.set_may_return v) [] [].
Proof.
  apply steps_setattr. intros [] f' H; simpl in H; by simplify_eq.
Qed.

Lemma steps_set_return_flag (v : option string) :
  steps (Context.set_return_flag v) [] [].
Proof.
  apply steps_setattr. intros [] f' H; simpl in H; by simplify_eq.
Qed.

Lemma steps_set_return_value (v : option string) :
  steps (Context.set_return_value v) [] [].
Proof.
  apply steps_setattr. intros [] f' H; simpl in H; by simplify_eq.
Qed.

Lemma steps_calls_add (callee : AST) : steps (Context.calls_add callee) [] [].
Proof.
  apply steps_setattr. intros [] f' H; simpl in H; by simplify_eq.
Qed.

(** One step of a proof that a computation of the compiler is scoped. *)
Ltac scoped_step :=
  lazymatch goal with
  | |- steps (mbind _ _) _ _ => eapply steps_bind; [|intros ?]
  | |- steps (mret _) _ _ => apply steps_frame, steps_ret
  | |- steps (mthrow _) _ _ => apply steps_throw
  | |- steps (lift_result _) _ _ => apply steps_frame, steps_lift
  | |- steps (Context.enter _) _ _ => apply steps_enter
  | |- steps (Context.exit _) _ _ => apply steps_exit
  | |- steps (Context.assign_current _) _ _ => apply steps_assign_current
  | |- steps Context.current _ _ => apply steps_frame, steps_current
  | |- steps anonymous _ _ => apply steps_frame, steps_anonymous
  | |- steps (Context.set_may_return _) _ _ =>
      apply steps_frame, steps_set_may_return
  | |- steps (Context.set_return_flag _) _ _ =>
      apply steps_frame, steps_set_return_flag
  | |- steps (Context.set_return_value _) _ _ =>
      apply steps_frame, steps_set_return_value
  | |- steps (Context.calls_add _) _ _ => apply steps_frame, steps_calls_add
  | |- steps Context.left _ _ => apply steps_frame, steps_getattr
  | |- steps Context.right _ _ => apply steps_frame, steps_getattr
  | |- steps Context.operand _ _ => apply steps_frame, steps_getattr
  | |- steps Context.name _ _ => apply steps_frame, steps_getattr
  | |- steps Context.module _ _ => apply steps_frame, steps_getattr
  | |- steps Context.may_return _ _ => apply steps_frame, steps_getattr
  | |- steps (match ?x with _ => _ end) _ _ => destruct x
  | |- steps (let '(_, _) := ?x in _) _ _ => destruct x
  end.

Lemma steps__may_return (c : ContextFrame) (node : Node) :
  steps (Compiler._may_return c node) [] [].
Proof. unfold Compiler._may_return. repeat scoped_step. Qed.

Lemma steps_branch_return (c : ContextFrame) :
  steps (Compiler.branch_return c) [] [].
Proof. unfold Compiler.branch_return. repeat scoped_step. Qed.

Lemma steps_binary (name : string) : steps (Compiler.binary name) [] [].
Proof. unfold Compiler.binary. repeat scoped_step. Qed.

Lemma steps__assign (target : AST) (value : Node) :
  steps (Compiler._assign _resolve_pointer target value) [] [].
Proof. unfold Compiler._assign. repeat scoped_step. Qed.

Lemma steps__compile_block_of (loop : stateM CState (list Node))
    (level : BlockLevel) :
  steps loop [] [] -> steps (Compiler._compile_block_of loop level) [] [].
Proof.
  intros Hloop. unfold Compiler._compile_block_of.
  scoped_step; [scoped_step|].
  scoped_step; [apply steps_frame, Hloop|].
  scoped_step; [scoped_step|].
  scoped_step; [|repeat scoped_step].
  destruct (_ && _); repeat scoped_step.
Qed.

Lemma steps__compile_block_loop (body : list (stateM CState Node)) :
  Forall (fun c => steps c [] []) body ->
  forall nodes, steps (Compiler._compile_block_loop body nodes) [] [].
Proof.
  induction 1 as [|c body Hc _ IH]; intros nodes; simpl.
  - apply steps_ret.
  - scoped_step; [exact Hc|]. scoped_step; [scoped_step|].
    destruct (c_may_return _); [|apply IH].
    scoped_step; [scoped_step|].
    scoped_step; [apply steps_frame, steps__compile_block_of, IH|].
    scoped_step; [scoped_step|].
    scoped_step; [scoped_step|].
    scoped_step; [apply steps_frame, steps__may_return|].
    scoped_step.
Qed.

Lemma steps__compile_block (body : list (stateM CState Node))
    (level : BlockLevel) :
  Forall (fun c => steps c [] []) body ->
  steps (Compiler._compile_block body level) [] [].
Proof.
  intros Hbody. apply steps__compile_block_of.
  by apply steps__compile_block_loop.
Qed.

Lemma steps_compare_chain
    (pairs : list (stateM CState Node * stateM CState Node)) :
  Forall (fun p => steps (fst p) [] [] /\ steps (snd p) [] []) pairs ->
  forall compile_left result,
    steps compile_left [] [] ->
    steps (Compiler.compare_chain compile_left pairs result) [] [].
Proof.
  induction 1 as [|[op right] pairs [Hop Hright] _ IH];
    intros compile_left result Hleft; simpl.
  - apply steps_ret.
  - scoped_step; [scoped_step|].
    scoped_step; [exact Hleft|].
    scoped_step; [scoped_step|].
    scoped_step; [scoped_step|].
    scoped_step; [exact Hright|].
    scoped_step; [scoped_step|].
    scoped_step; [scoped_step|].
    scoped_step; [scoped_step|].
    scoped_step; [apply steps_frame, Hop|].
    scoped_step; [scoped_step|].
    by apply IH.
Qed.

Lemma steps_mapM {A B} (f : A -> stateM CState B) (l : list A) :
  Forall (fun x => steps (f x) [] []) l -> steps (mapM f l) [] [].
Proof.
  induction 1 as [|x l Hx _ IH]; simpl; [apply steps_ret|].
  scoped_step; [exact Hx|]. scoped_step; [exact IH|]. apply steps_ret.
Qed.

Lemma steps_mapM_items {K A B} (f : A -> stateM CState B)
    (l : list (K * A)) :
  Forall (fun kv => steps (f (snd kv)) [] []) l ->
  steps (mapM_items f l) [] [].
Proof.
  induction 1 as [|[k x] l Hx _ IH]; simpl; [apply steps_ret|].
  scoped_step; [exact Hx|]. scoped_step; [exact IH|]. apply steps_ret.
Qed.

Lemma Forall_map_steps (l : list AST) :
  Forall (fun n => steps (compile n) [] []) l ->
  Forall (fun c : stateM CState Node => steps c [] []) (map compile l).
Proof. intros H. by apply Forall_map. Qed.

Lemma Forall_zip_steps (ops comparators : list AST) :
  Forall (fun n => steps (compile n) [] []) ops ->
  Forall (fun n => steps (compile n) [] []) comparators ->
  Forall (fun p : stateM CState Node * stateM CState Node =>
            steps (fst p) [] [] /\ steps (snd p) [] [])
    (zip (map compile ops) (map compile comparators)).
Proof.
  intros Hops. revert comparators.
  induction Hops as [|op ops Hop _ IH]; intros comparators Hc; [constructor|].
  destruct Hc as [|r comparators Hr Hc]; [constructor|].
  simpl. constructor; [by split|]. by apply IH.
Qed.

(** One step of the proof for [compile], with the induction hypotheses
    among the assumptions. *)
Ltac compile_step :=
  lazymatch goal with
  | |- steps (Compiler._may_return _ _) _ _ =>
      apply steps_frame, steps__may_return
  | |- steps (Compiler.branch_return _) _ _ =>
      apply steps_frame, steps_branch_return
  | |- steps (Compiler._assign _ _ _) _ _ =>
      apply steps_frame, steps__assign
  | |- steps (Compiler.binary _) _ _ => apply steps_frame, steps_binary
  | |- steps (Compiler._compile_block _ _) _ _ =>
      apply steps_frame, steps__compile_block; by apply Forall_map_steps
  | |- steps (Compiler.compare_chain _ _ _) _ _ =>
      apply steps_frame, steps_compare_chain;
      [by apply Forall_zip_steps|assumption]
  | |- steps (mapM _ _) _ _ => apply steps_frame; by apply steps_mapM
  | |- steps (mapM_items _ _) _ _ =>
      apply steps_frame; by apply steps_mapM_items
  | |- steps (Compiler.compile _ _ _) _ _ => apply steps_frame; by auto
  | |- steps (if ?b then _ else _) _ _ => destruct b
  | |- _ => scoped_step
  end.

(** Compiling a syntax tree is scoped: whenever [compile] returns, the
    frames that are open are those that were open before, class by class,
    so that every frame entered has been left; and the counter of anonymous
    names has not decreased. *)
Theorem compile_is_scoped (node : AST) : steps (compile node) [] [].
Proof.
  induction node using AST_nested_ind; simpl; repeat compile_step.
Qed.

End FrameDiscipline.

Section BareReturn.

Variable as_qualified : string -> AST -> result QualifiedName.
Variable _resolve_pointer : AST -> result (option Pointer).

#[local] Abbreviation compile :=
  (Compiler.compile as_qualified _resolve_pointer).

Lemma never_bind {S A B} (c : stateM S A) (k : A -> stateM S B) (s : S) :
  (forall a s', is_Ok (k a s') = false) -> is_Ok ((c ≫= k) s) = false.
Proof.
  intros Hk. rewrite stateM_bind_run. destruct (c s) as [[a s']|e]; [|done].
  apply Hk.
Qed.

(** The branch of an [If] whose value is merged with a return value that
    does not exist: the assignment of the empty sequence raises. *)
Lemma merged_branch_without_return_value (value_name flag_name : string)
    (body return_flag : Node) :
  F.empty_node body = false ->
  Compiler.merged_branch value_name flag_name body return_flag F.empty
  = Err (IndexError "list index out of range").
Proof.
  intros Hbody. unfold Compiler.merged_branch. rewrite Hbody. simpl.
  destruct (F.Assign value_name body) as [a1|e] eqn:H1; simpl;
    [|by rewrite (F_Assign_Err _ _ _ H1)].
  destruct (F.Assign flag_name return_flag) as [a2|e] eqn:H2; simpl;
    [done|by rewrite (F_Assign_Err _ _ _ H2)].
Qed.

Lemma compile_If_unfold (test : AST) (body orelse : list AST) :
  compile (If_ test body orelse)
  = (test ← compile test;
     _ ← Context.enter Context.new_BlockContext;
     body ← Compiler._compile_block (map compile body) NoLevel;
     c ← Context.current;
     body ← Compiler._may_return c body;
     c ← Context.current;
     '(may_return_then, return_flag_then, return_value_then) ←
       Compiler.branch_return c;
     _ ← Context.exit Context.new_BlockContext;
     _ ← Context.enter Context.new_BlockContext;
     orelse ← Compiler._compile_block (map compile orelse) NoLevel;
     c ← Context.current;
     orelse ← Compiler._may_return c orelse;
     c ← Context.current;
     '(may_return_else, return_flag_else, return_value_else) ←
       Compiler.branch_return c;
     _ ← Context.exit Context.new_BlockContext;
     if may_return_then || may_return_else then
       _ ← Context.set_may_return true;
       flag_name ← anonymous;
       _ ← Context.set_return_flag (Some flag_name);
       value_name ← anonymous;
       _ ← Context.set_return_value (Some value_name);
       a1 ← lift_result (F.Assign flag_name F.false);
       a2 ← lift_result (F.Assign value_name F.false);
       t ← lift_result (Compiler.merged_branch value_name flag_name body
                          return_flag_then return_value_then);
       e ← lift_result (Compiler.merged_branch value_name flag_name orelse
                          return_flag_else return_value_else);
       mret (F.Execute [a1; a2; F.If test t e])
     else mret (F.If test body orelse)).
Proof. reflexivity. Qed.

(** The block [return], compiled in a new block frame: the flag is set,
    and the frame says that the block returns, without a value. *)
Lemma compile_block_bare_return (frames : list ContextFrame) (n : nat) :
  let flag := "$" +:+ str_of_nat (S n) in
  Compiler._compile_block (map compile [Return None]) NoLevel
    (mkCState (Context.new_BlockContext :: frames) n)
  = Ok (ExecuteNode [AssignNode flag (ValueNode 1%float);
                     IfNode (RefNode flag) (ValueNode 1%float)
                       (ValueNode 0%float)],
        mkCState (BlockContext false None true (Some flag) None :: frames)
          (S (S n))).
Proof. vm_compute. reflexivity. Qed.

(** An [if] statement whose body is a [return] without a value is never
    compiled: whatever the condition, the other branch and the context are,
    [compile] raises an exception.  The branch returns no value, and the
    value of the merged branches is assigned from the empty sequence. *)
Theorem if_with_bare_return_is_never_compiled (test : AST)
    (orelse : list AST) (s : CState) :
  is_Ok (compile (If_ test [Return None] orelse) s) = false.
Proof.
  rewrite compile_If_unfold. apply never_bind. intros t [frames n].
  rewrite stateM_bind_run. cbn [Context.enter _frames
                                  anonymous_variable_counter].
  rewrite stateM_bind_run, compile_block_bare_return.
  set (flag := "$" +:+ str_of_nat (S n)).
  rewrite stateM_bind_run. cbn [Context.current _frames].
  rewrite stateM_bind_run.
  assert (forall body s0,
             Compiler._may_return
               (BlockContext false None true (Some flag) None) body s0
             = (result ← anonymous;
                if negb (F.empty_node body) then
                  a ← lift_result (F.Assign result body);
                  mret (F.Execute [a; F.If (F.Ref flag) F.empty
                                        (F.Ref result)])
                else mret (F.And (F.Ref flag) [F.empty])) s0) as Hmay.
  { reflexivity. }
  rewrite Hmay. clear Hmay.
  rewrite stateM_bind_run. cbn [anonymous _frames anonymous_variable_counter].
  set (result := "$" +:+ str_of_nat (S (S (S n)))).
  cbn [F.empty_node negb].
  rewrite stateM_bind_run.
  set (a := AssignNode result
              (IfNode (RefNode flag) (ValueNode 1%float)
                 (ValueNode 0%float))).
  assert (F.Assign result
            (ExecuteNode
               [AssignNode flag (ValueNode 1%float);
                IfNode (RefNode flag) (ValueNode 1%float)
                  (ValueNode 0%float)])
          = Ok (ExecuteNode [AssignNode flag (ValueNode 1%float); a]))
    as -> by reflexivity.
  cbn [lift_result mret stateM_ret].
  rewrite stateM_bind_run. cbn [Context.current _frames].
  rewrite stateM_bind_run.
  assert (forall s0,
             Compiler.branch_return
               (BlockContext false None true (Some flag) None) s0
             = Ok ((true, F.Ref flag, F.empty), s0)) as -> by reflexivity.
  apply never_bind. intros _ s1.
  apply never_bind. intros _ s2.
  apply never_bind. intros orelse1 s3.
  apply never_bind. intros c1 s4.
  apply never_bind. intros orelse2 s5.
  apply never_bind. intros c2 s6.
  apply never_bind. intros [[may_else flag_else] value_else] s7.
  apply never_bind. intros _ s8.
  cbn [orb].
  apply never_bind. intros _ s9.
  apply never_bind. intros flag_name s10.
  apply never_bind. intros _ s11.
  apply never_bind. intros value_name s12.
  apply never_bind. intros _ s13.
  apply never_bind. intros a1 s14.
  apply never_bind. intros a2 s15.
  rewrite stateM_bind_run.
  by rewrite merged_branch_without_return_value.
Qed.

End BareReturn.

(** * Rebuilt statements, and the helpers on sets *)

Section Immutability.

Lemma SwitchElimination_optimize_Expr (e : Expr) :
  SwitchElimination.optimize_Expr e = Ok e.
Proof.
  induction e as [v|name args IH|name|b i o IH] using Expr_nested_ind;
    simpl; try done.
  - by rewrite mapM_id.
  - by rewrite IH.
Qed.

Lemma SwitchElimination_optimize_Block (b : Block) :
  SwitchElimination.optimize_Block b = Ok (made_mutable b).
Proof.
  destruct b as [e|[name [value|blk i o v] m|blk i o v]]; simpl;
    by rewrite ?SwitchElimination_optimize_Expr.
Qed.

(** An optimizer that rebuilds statements by [apply] forgets that an
    assignment is immutable: [SwitchElimination] returns a block with its
    statements and expressions unchanged, except that every assignment in
    it is mutable. *)
Theorem SwitchElimination_makes_assignments_mutable (nodes : list Block) :
  SwitchElimination.optimize (ExecuteFlow nodes None)
  = Ok (ExecuteFlow (map made_mutable nodes) None).
Proof.
  simpl.
  assert (mapM SwitchElimination.optimize_Block nodes
          = Ok (map made_mutable nodes)) as ->; [|done].
  induction nodes as [|b nodes IH]; simpl; [done|].
  by rewrite SwitchElimination_optimize_Block, IH.
Qed.

End Immutability.

Section Utils.

Context `{Countable K}.

Lemma foldl_intersection (sets : list (gset K)) (s : gset K) (x : K) :
  x ∈ foldl (fun a b => a ∩ b) s sets
  <-> x ∈ s /\ Forall (fun t => x ∈ t) sets.
Proof.
  revert s. induction sets as [|t sets IH]; intros s; simpl.
  - split; [intros Hx; split; [done|constructor]|by intros [Hx _]].
  - rewrite IH, Forall_cons. set_solver.
Qed.

Lemma foldl_union (sets : list (gset K)) (s : gset K) (x : K) :
  x ∈ foldl (fun a b => a ∪ b) s sets
  <-> x ∈ s \/ Exists (fun t => x ∈ t) sets.
Proof.
  revert s. induction sets as [|t sets IH]; intros s; simpl.
  - split; [by left|]. intros [Hx|Hx]; [done|by inversion Hx].
  - rewrite IH, Exists_cons. set_solver.
Qed.

(** [intersection] and [union] of an empty iterable raise [TypeError];
    otherwise an element is in the intersection when it is in every set,
    and in the union when it is in some set. *)
Theorem intersection_and_union (sets : list (gset K)) :
  match utils.intersection sets, utils.union sets with
  | Ok i, Ok u =>
      sets <> []
      /\ (forall x, x ∈ i <-> Forall (fun t => x ∈ t) sets)
      /\ (forall x, x ∈ u <-> Exists (fun t => x ∈ t) sets)
  | Err (TypeError _), Err (TypeError _) => sets = []
  | _, _ => False
  end.
Proof.
  destruct sets as [|s sets]; [done|]. simpl. split; [done|]. split.
  - intros x. rewrite foldl_intersection, Forall_cons. done.
  - intros x. rewrite foldl_union, Exists_cons. done.
Qed.

End Utils.

(** * Parameter lists from the front end *)

Section ParameterLists.

Variable as_qualified : string -> AST -> result QualifiedName.
Variable _resolve_pointer : AST -> result (option Pointer).

Import CompiledFunction.

Lemma mapM_names {A} (f : string * A -> stateM CState Param)
    (l : list (string * A)) :
  (forall x s p s', f x s = Ok (p, s') -> p_name p = fst x) ->
  forall s ps s', mapM f l s = Ok (ps, s') -> map p_name ps = map fst l.
Proof.
  intros Hf. induction l as [|x l IH]; intros s ps s'; simpl.
  - by intros [= <- _].
  - rewrite stateM_bind_run.
    destruct (f x s) as [[p s1]|] eqn:Hx; [|done].
    rewrite stateM_bind_run.
    destruct (mapM f l s1) as [[ps1 s2]|] eqn:Hl; [|done].
    simpl. intros [= <- _]. simpl.
    by rewrite (Hf _ _ _ _ Hx), (IH _ _ _ Hl).
Qed.

Lemma fst_zip_all {A B} (l : list A) (k : list B) :
  length l <= length k -> map fst (zip l k) = l.
Proof.
  revert k. induction l as [|x l IH]; intros [|y k] Hlen; simpl in *;
    [done|done|lia|].
  rewrite IH; [done|lia].
Qed.

(** The parameter list of a function definition holds the positional-only
    parameters, then the other positional parameters, then the keyword-only
    parameters, in the order of the definition, and the name of the
    variadic parameter. *)
Lemma analyze_parameters_names (a : arguments) (s s' : CState)
    (pl : ParameterList) :
  Parameters.analyze_parameters as_qualified _resolve_pointer a s
  = Ok (pl, s') ->
  map p_name (params pl) = a_posonlyargs a ++ a_args a ++ a_kwonlyargs a
  /\ va_args pl = a_vararg a.
Proof.
  unfold Parameters.analyze_parameters.
  destruct (a_kwarg a); [done|].
  rewrite stateM_bind_run.
  set (n := length (a_defaults a)) in *.
  assert (forall s0 ps s1,
             (if Nat.eqb n 0
              then mret (map (fun name => mkParam name None) (a_args a))
              else
                ps ← Parameters.with_defaults as_qualified _resolve_pointer
                       (drop (length (a_args a) - n) (a_args a))
                       (a_defaults a);
                mret (map (fun name => mkParam name None)
                        (take (length (a_args a) - n) (a_args a)) ++ ps))
               s0 = Ok (ps, s1) ->
             map p_name ps = a_args a) as Hargs.
  { intros s0 ps s1. destruct (Nat.eqb n 0).
    - intros [= <- _]. rewrite map_map. simpl. apply map_id.
    - rewrite stateM_bind_run.
      destruct (Parameters.with_defaults _ _ _ _ s0) as [[ps0 s2]|] eqn:Hw;
        [|done].
      simpl. intros [= <- _].
      apply mapM_names in Hw.
      + rewrite map_app, map_map, Hw. simpl. rewrite map_id.
        rewrite fst_zip_all by (rewrite length_drop; lia).
        apply take_drop.
      + intros [name d] s3 p s4. simpl. rewrite stateM_bind_run.
        destruct (Compiler.compile _ _ d s3) as [[v s5]|]; [|done].
        by intros [= <- _]. }
  match goal with
  | |- match ?c s with _ => _ end = _ -> _ =>
      destruct (c s) as [[ps2 s2]|] eqn:H2; [|done]
  end.
  apply Hargs in H2.
  destruct (Nat.eqb (length (a_kwonlyargs a)) (length (a_kw_defaults a)))
    eqn:Hlen; [|done].
  simpl. rewrite stateM_bind_run.
  destruct (Parameters.keyword_only _ _ _ _ s2) as [[ps3 s3]|] eqn:H3;
    [|done].
  simpl. intros [= <- _]. simpl. split; [|done].
  apply mapM_names in H3.
  - rewrite !map_app, map_map, H2, H3. simpl. rewrite map_id.
    apply Nat.eqb_eq in Hlen.
    rewrite fst_zip_all by lia. done.
  - intros [name [d|]] s4 p s5; simpl.
    + rewrite stateM_bind_run.
      destruct (Compiler.compile _ _ d s4) as [[v s6]|]; [|done].
      by intros [= <- _].
    + by intros [= <- _].
Qed.

Lemma bind_arguments_positional (self : CompiledFunction)
    (call_args : list Node) (kwargs d : list (string * Node)) (i : nat)
    (p : Param) (v : Node) :
  NoDup (map p_name (params (fn_params self))) ->
  has_dollar (p_name p) = false ->
  params (fn_params self) !! i = Some p ->
  call_args !! i = Some v ->
  bind_arguments self call_args kwargs = Ok d ->
  dict_get d (p_name p) = Some v.
Proof.
  intros Hnd Hdollar Hp Ha. unfold bind_arguments.
  pose proof (bind_positional_get _ call_args kwargs i p v Hnd Hp Ha) as Hget.
  destruct (Nat.ltb _ _).
  - destruct (truthy_name _) as [va|]; [|done]. simpl.
    intros Hd. eapply bind_defaults_get; [exact Hd|].
    by rewrite bind_variadic_get_other.
  - simpl. intros Hd. by eapply bind_defaults_get.
Qed.

(** A keyword-only parameter is bound by position: a call that passes a
    positional argument beyond the positional parameters of the definition
    raises nothing for it and binds it to the keyword-only parameter at
    that place. *)
Theorem keyword_only_parameter_is_bound_by_position (a : arguments)
    (s s' : CState) (self : CompiledFunction) (call_args : list Node)
    (kwargs d : list (string * Node)) (i : nat) (k : string) (v : Node) :
  Parameters.analyze_parameters as_qualified _resolve_pointer a s
  = Ok (fn_params self, s') ->
  NoDup (a_posonlyargs a ++ a_args a ++ a_kwonlyargs a) ->
  has_dollar k = false ->
  a_kwonlyargs a !! i = Some k ->
  call_args !! (length (a_posonlyargs a) + length (a_args a) + i) = Some v ->
  bind_arguments self call_args kwargs = Ok d ->
  dict_get d k = Some v.
Proof.
  intros Ha Hnd Hdollar Hk Hv Hd.
  destruct (analyze_parameters_names a s s' (fn_params self) Ha)
    as [Hnames _].
  set (j := length (a_posonlyargs a) + length (a_args a) + i) in *.
  assert (map p_name (params (fn_params self)) !! j = Some k) as Hj.
  { rewrite Hnames, app_assoc, lookup_app_r by (rewrite length_app; lia).
    rewrite <- Hk. f_equal. rewrite length_app. unfold j. lia. }
  rewrite list_lookup_fmap in Hj.
  destruct (params (fn_params self) !! j) as [p|] eqn:Hp; [|done].
  simpl in Hj. injection Hj as <-.
  eapply (bind_arguments_positional self call_args kwargs d j p v);
    try done.
  by rewrite Hnames.
Qed.

End ParameterLists.

Section ParameterWitness.

Lemma keyword_only_parameter_is_bound_by_position_witness :
  dict_get [("a", RefNode "x"); ("b", RefNode "y")] "b" = Some (RefNode "y").
Proof.
  apply (keyword_only_parameter_is_bound_by_position
           Examples.as_qualified Examples._resolve_pointer
           Programs.keyword_only_arguments (mkCState [] 0) (mkCState [] 0)
           Programs.keyword_only_function [RefNode "x"; RefNode "y"] []
           [("a", RefNode "x"); ("b", RefNode "y")] 0 "b" (RefNode "y")).
  - reflexivity.
  - simpl. repeat (apply NoDup_cons; split; [set_solver|]). apply NoDup_nil_2.
  - reflexivity.
  - reflexivity.
  - reflexivity.
  - reflexivity.
Defined.

End ParameterWitness.
